(** * Conversation memory backfill engine (src/lib/memory/backfill.ts)

    A shallow embedding of the backfill engine and of the helpers it is
    built from: the path normalizer, the two transcript extractors, the
    transcript scanner, the working-directory resolver and the match and
    dedup loop that assembles the report.

    Conventions.
    - A JavaScript string is the sequence of its UTF-16 code units; the
      embedding covers code units below 256, one [ascii] each.
    - JavaScript numbers that the engine only counts with are [nat];
      epoch-millisecond timestamps are [Z]; the request's [maxFiles] is a
      rational, so that fractional caps are covered.
    - The Node runtime is POSIX ([path.sep = "/"]).  [path.normalize] and
      [path.join] are modelled after the POSIX implementation of the
      runtime; [JSON.parse], [Date], the filesystem, the agent registry, the
      live session inventory and the record store are parameters. *)

From Stdlib Require Import ZArith Ascii String List Lia.
From Stdlib Require QArith Qround Sorted.
From stdpp Require Import base list strings gmap.

Local Open Scope string_scope.
Local Open Scope list_scope.

(* ===================================================================== *)
(** ** JavaScript string primitives, on lists of code units *)
(* ===================================================================== *)

Module Js.

Abbreviation chars := (list ascii).

Definition ofString (s : string) : chars := list_ascii_of_string s.
Definition toString (l : chars) : string := string_of_list_ascii l.

(** White space and line terminators removed by [String.prototype.trim],
    among the code units below 256: TAB, LF, VT, FF, CR, SP, NBSP. *)
Definition isWhitespace (c : ascii) : bool :=
  let n := nat_of_ascii c in
  ((9 <=? n) && (n <=? 13) || (n =? 32) || (n =? 160))%nat.

Fixpoint trimStart (l : chars) : chars :=
  match l with
  | [] => []
  | c :: l' => if isWhitespace c then trimStart l' else l
  end.

Definition trimEnd (l : chars) : chars := rev (trimStart (rev l)).

Definition trim (l : chars) : chars := trimEnd (trimStart l).

(** [s.endsWith(c)] for a one-unit string [c]. *)
Definition endsWith (l : chars) (c : ascii) : bool :=
  match last l with
  | Some d => Ascii.eqb d c
  | None => false
  end.

(** [s.slice(0, -1)]. *)
Definition dropLast (l : chars) : chars := removelast l.

(** [s.replace(/c/g, d)] for single code units. *)
Definition replaceAll (c d : ascii) (l : chars) : chars :=
  map (fun x => if Ascii.eqb x c then d else x) l.

(** [s.split(c)] for a one-unit separator: never the empty list. *)
Fixpoint split (sep : ascii) (l : chars) : list chars :=
  match l with
  | [] => [[]]
  | c :: l' =>
      if Ascii.eqb c sep then [] :: split sep l'
      else match split sep l' with
           | seg :: rest => (c :: seg) :: rest
           | [] => [[c]]
           end
  end.

(** [parts.join(sep)]. *)
Fixpoint join (sep : chars) (parts : list chars) : chars :=
  match parts with
  | [] => []
  | [p] => p
  | p :: rest => p ++ sep ++ join sep rest
  end.

Definition isUpper (c : ascii) : bool :=
  let n := nat_of_ascii c in
  ((65 <=? n) && (n <=? 90))%nat.

Definition isLower (c : ascii) : bool :=
  let n := nat_of_ascii c in
  ((97 <=? n) && (n <=? 122))%nat.

(** [toLowerCase] on one code unit: A-Z and the Latin-1 capitals
    (0xC0-0xDE except the multiplication sign 0xD7). *)
Definition lowerChar (c : ascii) : ascii :=
  let n := nat_of_ascii c in
  if isUpper c then ascii_of_nat (n + 32)
  else if ((192 <=? n) && (n <=? 222) && negb (n =? 215))%nat
       then ascii_of_nat (n + 32)
       else c.

Definition toLowerCase (l : chars) : chars := map lowerChar l.

Fixpoint startsWith (l pre : chars) : bool :=
  match pre, l with
  | [], _ => true
  | p :: pre', c :: l' => Ascii.eqb c p && startsWith l' pre'
  | _ :: _, [] => false
  end.

(** [s.includes(sub)]. *)
Fixpoint includes (l sub : chars) : bool :=
  startsWith l sub ||
  match l with
  | [] => false
  | _ :: l' => includes l' sub
  end.

End Js.

(* ===================================================================== *)
(** ** The runtime's POSIX [path] module *)
(* ===================================================================== *)

Module Path.
Import Js.

Definition slash : ascii := "/"%char.
Definition backslash : ascii := "\"%char.
Definition dot : chars := ["."%char].
Definition dotdot : chars := ["."%char; "."%char].

Definition chars_eqb (a b : chars) : bool := bool_decide (a = b).

(** One step of [normalizeString]: [stack] holds the segments kept so
    far, innermost first. *)
Definition normStep (allowAboveRoot : bool) (stack : list chars) (seg : chars)
  : list chars :=
  if chars_eqb seg [] || chars_eqb seg dot then stack
  else if chars_eqb seg dotdot then
    match stack with
    | top :: rest =>
        if chars_eqb top dotdot
        then (if allowAboveRoot then dotdot :: stack else stack)
        else rest
    | [] => if allowAboveRoot then [dotdot] else []
    end
  else seg :: stack.

Definition normalizeString (p : chars) (allowAboveRoot : bool) : chars :=
  join [slash] (rev (fold_left (normStep allowAboveRoot) (split slash p) [])).

(** [path.normalize] (POSIX). *)
Definition normalizeChars (p : chars) : chars :=
  match p with
  | [] => dot
  | c :: _ =>
      let isAbsolute := Ascii.eqb c slash in
      let trailingSeparator := endsWith p slash in
      let core := normalizeString p (negb isAbsolute) in
      match core with
      | [] => if isAbsolute then [slash]
              else if trailingSeparator then dot ++ [slash] else dot
      | _ :: _ =>
          (if isAbsolute then [slash] else []) ++ core ++
          (if trailingSeparator then [slash] else [])
      end
  end.

Definition normalize (p : string) : string :=
  toString (normalizeChars (ofString p)).

(** [path.join(...parts)] (POSIX): the non-empty arguments joined by "/"
    and normalized; "." when nothing is left. *)
Definition join (parts : list string) : string :=
  match filter (fun s => s ≠ EmptyString) parts with
  | [] => "."
  | ps => toString (normalizeChars (Js.join [slash] (map ofString ps)))
  end.

Definition sep : ascii := slash.

End Path.

(* ===================================================================== *)
(** ** Path normalizer *)
(* ===================================================================== *)

Import Js.

(** [normalized.length > 1 && normalized.endsWith(c)] then
    [normalized.slice(0, -1)]. *)
Definition stripTrailing (c : ascii) (l : chars) : chars :=
  if (1 <? length l)%nat && endsWith l c then dropLast l else l.

(** [normalized.match(/^([A-Za-z]):\//)] and the rebuilt string
    [`${drive.toLowerCase()}:${normalized.slice(2)}`]. *)
Definition lowerDrive (l : chars) : chars :=
  match l with
  | d :: c :: s :: rest =>
      if (isUpper d || isLower d) && Ascii.eqb c ":"%char && Ascii.eqb s Path.slash
      then lowerChar d :: ":"%char :: s :: rest
      else l
  | _ => l
  end.

Definition normalizePathChars (input : chars) : chars :=
  let normalized := Path.normalizeChars (trim input) in
  let normalized := stripTrailing Path.sep normalized in
  let normalized := replaceAll Path.backslash Path.slash normalized in
  let normalized := stripTrailing Path.slash normalized in
  lowerDrive normalized.

Definition normalizePathForMatch (input : string) : string :=
  toString (normalizePathChars (ofString input)).

(* ===================================================================== *)
(** ** JSON values, as [JSON.parse] returns them *)
(* ===================================================================== *)

Module Json.

#[warnings="-register-all"] Inductive json : Type :=
| JNull
| JBool (b : bool)
| JNum (q : QArith_base.Q)
| JStr (s : string)
| JArr (items : list json)
| JObj (fields : list (string * json)).

(** [v.k]: [None] is [undefined].  None of the property names the engine
    reads exists on the prototype of a string, number, boolean or array. *)
Definition prop (v : json) (k : string) : option json :=
  match v with
  | JObj fields =>
      match List.find (fun kv => String.eqb (fst kv) k) fields with
      | Some kv => Some (snd kv)
      | None => None
      end
  | _ => None
  end.

(** [typeof v === 'string']. *)
Definition asString (v : option json) : option string :=
  match v with
  | Some (JStr s) => Some s
  | _ => None
  end.

(** JavaScript truthiness of a value that came out of JSON. *)
Definition truthy (v : option json) : bool :=
  match v with
  | None | Some JNull => false
  | Some (JBool b) => b
  | Some (JNum q) => negb (QArith_base.Qnum q =? 0)%Z
  | Some (JStr s) => negb (String.eqb s EmptyString)
  | Some (JArr _) | Some (JObj _) => true
  end.

(** [v === s] for a string literal [s]. *)
Definition isStr (v : option json) (s : string) : bool :=
  match v with
  | Some (JStr t) => String.eqb t s
  | _ => false
  end.

End Json.

Import Json.

(** Truthiness of a [string | null] local. *)
Definition truthyStr (s : option string) : bool :=
  match s with
  | Some t => negb (String.eqb t EmptyString)
  | None => false
  end.

(* ===================================================================== *)
(** ** Data model *)
(* ===================================================================== *)

Inductive ConversationSource : Type := claude | codex.

Definition ConversationSource_eqb (a b : ConversationSource) : bool :=
  match a, b with
  | claude, claude | codex, codex => true
  | _, _ => false
  end.

Record DiscoveredConversation : Type := mkConversation {
  source : ConversationSource;
  jsonlFile : string;
  cwd : option string;
  sessionId : option string;
  firstMessageAt : option Z;
  lastMessageAt : option Z;
  messageCount : nat;
  firstUserMessage : option string;
  modelNames : option string;
  gitBranch : option string;
  cliVersion : option string
}.

Record BackfillRequest : Type := mkRequest {
  sources : option (list ConversationSource);
  dryRun : option bool;
  maxFiles : option QArith_base.Q;
  force : option bool
}.

Record SourceStats : Type := mkStats {
  discovered : nat;
  matched : nat;
  unmapped : nat;
  existing : nat;
  inserted : nat
}.

Inductive Mode : Type := mode_dry_run | mode_apply.

Record BackfillReport : Type := mkReport {
  success : bool;
  agent_id : string;
  mode : Mode;
  stats_claude : SourceStats;
  stats_codex : SourceStats;
  total_discovered : nat;
  total_matched : nat;
  total_unmapped : nat;
  total_existing : nat;
  total_inserted : nat;
  max_files_applied : QArith_base.Q;
  truncated : bool;
  working_directories : list string;
  active_sessions_seen : nat;
  unmapped_examples : list string;
  existing_examples : list string;
  inserted_examples : list string
}.

(** [report.sources[src]]. *)
Definition stats (r : BackfillReport) (src : ConversationSource) : SourceStats :=
  match src with
  | claude => stats_claude r
  | codex => stats_codex r
  end.

Definition MAX_EXAMPLES : nat := 20.

(* ===================================================================== *)
(** ** Format extractors *)
(* ===================================================================== *)

(** [raw.replace(/[\n\r\t]+/g, ' ')]: every maximal run of LF, CR and TAB
    becomes one space. *)
Definition isBreak (c : ascii) : bool :=
  let n := nat_of_ascii c in
  ((n =? 10) || (n =? 13) || (n =? 9))%nat.

Fixpoint collapseBreaks (inRun : bool) (l : chars) : chars :=
  match l with
  | [] => []
  | c :: l' =>
      if isBreak c
      then (if inRun then collapseBreaks true l'
            else " "%char :: collapseBreaks true l')
      else c :: collapseBreaks false l'
  end.

Definition truncateText (raw : option string) (maxLength : nat) : option string :=
  match raw with
  | None => None
  | Some r =>
      if String.eqb r EmptyString then None
      else
        let normalized := trim (collapseBreaks false (ofString r)) in
        match normalized with
        | [] => None
        | _ :: _ =>
            Some (toString (if (maxLength <? length normalized)%nat
                            then take maxLength normalized
                            else normalized))
        end
  end.

Definition toDisplayModel (model : string) : string :=
  let normalized := toLowerCase (ofString model) in
  if includes normalized (ofString "sonnet") then "Sonnet 4.5"
  else if includes normalized (ofString "haiku") then "Haiku 4.5"
  else if includes normalized (ofString "opus") then "Opus 4.5"
  else model.

(** [typeof v === 'object'] and [v] truthy: an array or an object. *)
Definition isObjectLike (v : option json) : bool :=
  match v with
  | Some (JArr _) | Some (JObj _) => true
  | _ => false
  end.

Definition chunkText (entry : json) : string :=
  if negb (isObjectLike (Some entry)) then EmptyString
  else
    match asString (prop entry "text") with
    | Some text =>
        if isStr (prop entry "type") "input_text" then text
        else if isStr (prop entry "type") "text" then text
        else EmptyString
    | None => EmptyString
    end.

Definition joinStrings (sep : string) (parts : list string) : string :=
  toString (Js.join (ofString sep) (map ofString parts)).

Definition parseUserContent (payload : option json) : option string :=
  if negb (isObjectLike payload) then None
  else
    match payload with
    | Some p =>
        match prop p "content" with
        | Some (JStr content) => truncateText (Some content) 100
        | Some (JArr content) =>
            let chunks :=
              filter (fun s => s ≠ EmptyString) (map chunkText content) in
            truncateText (Some (joinStrings " " chunks)) 100
        | _ => None
        end
    | None => None
    end.

(** [Set.prototype.add] on an insertion-ordered set of strings. *)
Definition setAdd (s : list string) (x : string) : list string :=
  if bool_decide (x ∈ s) then s else s ++ [x].

(** The locals of an extractor. *)
Record Extract : Type := mkExtract {
  x_sessionId : option string;
  x_cwd : option string;
  x_firstUserMessage : option string;
  x_gitBranch : option string;
  x_cliVersion : option string;
  x_firstMessageAt : option Z;
  x_lastMessageAt : option Z;
  x_modelSet : list string
}.

Definition emptyExtract : Extract :=
  mkExtract None None None None None None None [].

(** [if (!cur && typeof v === 'string') cur = v]. *)
Definition firstString (cur : option string) (v : option json) : option string :=
  if truthyStr cur then cur
  else match asString v with
       | Some s => Some s
       | None => cur
       end.

(** [if (ts !== null && (cur === null || ts < cur)) cur = ts]. *)
Definition keepMin (cur ts : option Z) : option Z :=
  match ts, cur with
  | Some t, None => Some t
  | Some t, Some c => if (t <? c)%Z then Some t else cur
  | None, _ => cur
  end.

(** [if (ts !== null && (cur === null || ts > cur)) cur = ts]. *)
Definition keepMax (cur ts : option Z) : option Z :=
  match ts, cur with
  | Some t, None => Some t
  | Some t, Some c => if (c <? t)%Z then Some t else cur
  | None, _ => cur
  end.

Definition modelNamesOf (modelSet : list string) : option string :=
  match modelSet with
  | [] => None
  | _ :: _ => Some (joinStrings ", " modelSet)
  end.

Section Extractors.

(** [JSON.parse]: [None] when it throws. *)
Variable JSON_parse : string -> option json.
(** [new Date(v).getTime()] for a value [v] ([None] is [undefined]):
    [None] when the result is NaN. *)
Variable Date_getTime : option json -> option Z.

Definition parseTimestamp (raw : option json) : option Z :=
  match raw with
  | Some (JStr s) => if String.eqb s EmptyString then None else Date_getTime raw
  | _ => None
  end.

(** The decoded line, when the loop body can read properties from it:
    a line that does not parse, or parses to [null] (reading a property of
    [null] throws inside the [try]), is skipped. *)
Definition decodeLine (line : string) : option json :=
  match JSON_parse line with
  | None | Some JNull => None
  | Some message => Some message
  end.

(** Body of the metadata loop of the Claude extractor. *)
Definition claudeMetaStep (st : Extract) (line : string) : Extract :=
  match decodeLine line with
  | None => st
  | Some message =>
      let sessionId' := firstString (x_sessionId st) (prop message "sessionId") in
      let cwd' := firstString (x_cwd st) (prop message "cwd") in
      let gitBranch' := firstString (x_gitBranch st) (prop message "gitBranch") in
      let cliVersion' := firstString (x_cliVersion st) (prop message "version") in
      let parsedTs := parseTimestamp (prop message "timestamp") in
      let firstMessageAt' := keepMin (x_firstMessageAt st) parsedTs in
      let firstUserMessage' :=
        if negb (truthyStr (x_firstUserMessage st)) && isStr (prop message "type") "user"
        then
          match prop message "message" with
          | Some msg =>
              if truthy (Some msg) then
                match asString (prop msg "content") with
                | Some content => truncateText (Some content) 100
                | None => x_firstUserMessage st
                end
              else x_firstUserMessage st
          | None => x_firstUserMessage st
          end
        else x_firstUserMessage st in
      let modelSet' :=
        if isStr (prop message "type") "assistant"
        then
          match prop message "message" with
          | Some msg =>
              if truthy (Some msg) then
                match asString (prop msg "model") with
                | Some model => setAdd (x_modelSet st) (toDisplayModel model)
                | None => x_modelSet st
                end
              else x_modelSet st
          | None => x_modelSet st
          end
        else x_modelSet st in
      mkExtract sessionId' cwd' firstUserMessage' gitBranch' cliVersion'
                firstMessageAt' (x_lastMessageAt st) modelSet'
  end.

(** The timestamp a line carries, as the backward loop reads it. *)
Definition lineTimestamp (line : string) : option Z :=
  match decodeLine line with
  | Some message => parseTimestamp (prop message "timestamp")
  | None => None
  end.

(** The backward loop [for (i = lines.length - 1; i >= max(0, lines.length - 50); i--)],
    given the lines it visits in visiting order: the first timestamp met
    ends the loop. *)
Fixpoint firstTimestamp (visited : list string) : option Z :=
  match visited with
  | [] => None
  | line :: rest =>
      match lineTimestamp line with
      | Some ts => Some ts
      | None => firstTimestamp rest
      end
  end.

(** [lines.slice(-50)] read from the end. *)
Definition lastLinesBackward (n : nat) (lines : list string) : list string :=
  take n (rev lines).

Definition extractConversationFromClaudeLines
  (lines : list string) (jsonlFile : string) : DiscoveredConversation :=
  let metadataLines := take 80 lines in
  let st := fold_left claudeMetaStep metadataLines emptyExtract in
  let lastMessageAt := firstTimestamp (lastLinesBackward 50 lines) in
  {| source := claude;
     jsonlFile := jsonlFile;
     cwd := x_cwd st;
     sessionId := x_sessionId st;
     firstMessageAt := x_firstMessageAt st;
     lastMessageAt := lastMessageAt;
     messageCount := length lines;
     firstUserMessage := x_firstUserMessage st;
     modelNames := modelNamesOf (x_modelSet st);
     gitBranch := x_gitBranch st;
     cliVersion := x_cliVersion st |}.

(** [v.k] for a possibly [undefined] [v] that was tested truthy before. *)
Definition propOf (v : option json) (k : string) : option json :=
  match v with
  | Some x => prop x k
  | None => None
  end.

(** Body of the loop of the Codex extractor. *)
Definition codexStep (st : Extract) (line : string) : Extract :=
  match decodeLine line with
  | None => st
  | Some event =>
      let eventTs := parseTimestamp (prop event "timestamp") in
      let firstMessageAt' := keepMin (x_firstMessageAt st) eventTs in
      let lastMessageAt' := keepMax (x_lastMessageAt st) eventTs in
      let type := prop event "type" in
      let payload := prop event "payload" in
      let st1 :=
        mkExtract (x_sessionId st) (x_cwd st) (x_firstUserMessage st)
                  (x_gitBranch st) (x_cliVersion st)
                  firstMessageAt' lastMessageAt' (x_modelSet st) in
      if isStr type "session_meta" then
        if truthy payload then
          let sessionId' := firstString (x_sessionId st) (propOf payload "id") in
          let cwd' := firstString (x_cwd st) (propOf payload "cwd") in
          let cliVersion' :=
            firstString (x_cliVersion st) (propOf payload "cli_version") in
          let git := propOf payload "git" in
          let gitBranch' :=
            if truthy git then firstString (x_gitBranch st) (propOf git "branch")
            else x_gitBranch st in
          mkExtract sessionId' cwd' (x_firstUserMessage st) gitBranch' cliVersion'
                    firstMessageAt' lastMessageAt' (x_modelSet st)
        else st1
      else if isStr type "turn_context" then
        if truthy payload then
          let cwd' := firstString (x_cwd st) (propOf payload "cwd") in
          let modelSet' :=
            match asString (propOf payload "model") with
            | Some model => setAdd (x_modelSet st) model
            | None => x_modelSet st
            end in
          mkExtract (x_sessionId st) cwd' (x_firstUserMessage st)
                    (x_gitBranch st) (x_cliVersion st)
                    firstMessageAt' lastMessageAt' modelSet'
        else st1
      else if isStr type "response_item" then
        if negb (truthy payload)
           || negb (isStr (propOf payload "type") "message")
           || negb (isStr (propOf payload "role") "user")
        then st1
        else if negb (truthyStr (x_firstUserMessage st)) then
          mkExtract (x_sessionId st) (x_cwd st) (parseUserContent payload)
                    (x_gitBranch st) (x_cliVersion st)
                    firstMessageAt' lastMessageAt' (x_modelSet st)
        else st1
      else if isStr type "event_msg" then
        if negb (truthy payload) then st1
        else if negb (truthyStr (x_firstUserMessage st))
                && isStr (propOf payload "type") "user_message"
        then
          match asString (propOf payload "message") with
          | Some message =>
              mkExtract (x_sessionId st) (x_cwd st) (truncateText (Some message) 100)
                        (x_gitBranch st) (x_cliVersion st)
                        firstMessageAt' lastMessageAt' (x_modelSet st)
          | None => st1
          end
        else st1
      else st1
  end.

Definition extractConversationFromCodexLines
  (lines : list string) (jsonlFile : string) : DiscoveredConversation :=
  let st := fold_left codexStep lines emptyExtract in
  {| source := codex;
     jsonlFile := jsonlFile;
     cwd := x_cwd st;
     sessionId := x_sessionId st;
     firstMessageAt := x_firstMessageAt st;
     lastMessageAt := x_lastMessageAt st;
     messageCount := length lines;
     firstUserMessage := x_firstUserMessage st;
     modelNames := modelNamesOf (x_modelSet st);
     gitBranch := x_gitBranch st;
     cliVersion := x_cliVersion st |}.

End Extractors.

(* ===================================================================== *)
(** ** The environment of one invocation *)
(* ===================================================================== *)

(** The agent registry's view of an agent, as far as the resolver reads it. *)
Record RegistrySession : Type := mkRegistrySession {
  rs_workingDirectory : option string
}.

Record RegistryAgent : Type := mkRegistryAgent {
  ra_workingDirectory : option string;
  ra_sessions : list RegistrySession;
  ra_defaultWorkingDirectory : option string
}.

(** What [getSelfHost()], [fetch] and [response.json()] come to. *)
Inductive FetchOutcome : Type :=
| FetchThrows
| FetchNotOk
| FetchOk (body : json).

(** Everything outside the engine that is not the record store: the
    runtime's library functions, the filesystem, the agent registry and the
    live session inventory. *)
Record Runtime : Type := mkRuntime {
  JSON_parse : string -> option json;
  Date_getTime : option json -> option Z;
  os_homedir : string;
  fs_existsSync : string -> bool;
  fs_readdirSync : string -> option (list string);
  (** [Some true] for a directory, [None] when [statSync] throws. *)
  fs_statSync : string -> option bool;
  fs_readFileSync : string -> option string;
  path_basename : string -> string;
  path_dirname : string -> string;
  getAgent : string -> option RegistryAgent;
  getAgentBySession : string -> option RegistryAgent;
  fetchSessions : FetchOutcome
}.

(* ===================================================================== *)
(** ** Transcript scanner and discovery *)
(* ===================================================================== *)

(** [item.endsWith(suffix)]. *)
Definition endsWithString (s suffix : string) : bool :=
  startsWith (rev (ofString s)) (rev (ofString suffix)).

(** [line.trim().length > 0]. *)
Definition nonBlank (line : chars) : bool :=
  match trim line with
  | [] => false
  | _ :: _ => true
  end.

(** [raw.split('\n').filter((line) => line.trim().length > 0)]. *)
Definition nonEmptyLines (raw : string) : list string :=
  map toString (List.filter nonBlank (split "010"%char (ofString raw))).

Section Discovery.

Variable rt : Runtime.

(** The [for (const item of items)] loop of [findJsonlFiles]; the work
    list [stack] has its top first. *)
Fixpoint scanItems (current : string) (items : list string)
  (stack files : list string) : list string * list string :=
  match items with
  | [] => (stack, files)
  | item :: rest =>
      let fullPath := Path.join [current; item] in
      match fs_statSync rt fullPath with
      | Some true => scanItems current rest (fullPath :: stack) files
      | Some false =>
          if endsWithString item ".jsonl"
          then scanItems current rest stack (files ++ [fullPath])
          else scanItems current rest stack files
      | None => scanItems current rest stack files
      end
  end.

(** The [while (stack.length > 0)] loop; [None] when [fuel] iterations do
    not empty the work list. *)
Fixpoint walk (fuel : nat) (stack files : list string) : option (list string) :=
  match stack with
  | [] => Some files
  | current :: stack' =>
      match fuel with
      | O => None
      | S fuel' =>
          match fs_readdirSync rt current with
          | None => walk fuel' stack' files
          | Some items =>
              let '(stack'', files') := scanItems current items stack' files in
              walk fuel' stack'' files'
          end
      end
  end.

Definition findJsonlFiles (fuel : nat) (rootDir : string) : option (list string) :=
  if negb (fs_existsSync rt rootDir) then Some []
  else walk fuel [rootDir] [].

Definition extractFor (src : ConversationSource)
  (lines : list string) (file : string) : DiscoveredConversation :=
  match src with
  | claude =>
      extractConversationFromClaudeLines (JSON_parse rt) (Date_getTime rt) lines file
  | codex =>
      extractConversationFromCodexLines (JSON_parse rt) (Date_getTime rt) lines file
  end.

Fixpoint discoverConversationsFromFiles
  (files : list string) (src : ConversationSource) : list DiscoveredConversation :=
  match files with
  | [] => []
  | file :: rest =>
      match fs_readFileSync rt file with
      | None => discoverConversationsFromFiles rest src
      | Some raw =>
          match nonEmptyLines raw with
          | [] => discoverConversationsFromFiles rest src
          | lines => extractFor src lines file :: discoverConversationsFromFiles rest src
          end
      end
  end.

Definition hasSource (srcs : list ConversationSource) (s : ConversationSource) : bool :=
  existsb (ConversationSource_eqb s) srcs.

Definition discoverConversations (fuel : nat) (srcs : list ConversationSource)
  : option (list DiscoveredConversation) :=
  let home := os_homedir rt in
  match
    (if hasSource srcs claude
     then match findJsonlFiles fuel (Path.join [home; ".claude"; "projects"]) with
          | Some claudeFiles => Some (discoverConversationsFromFiles claudeFiles claude)
          | None => None
          end
     else Some [])
  with
  | None => None
  | Some fromClaude =>
      if hasSource srcs codex
      then match findJsonlFiles fuel (Path.join [home; ".codex"; "sessions"]) with
           | Some codexFiles =>
               Some (fromClaude ++ discoverConversationsFromFiles codexFiles codex)
           | None => None
           end
      else Some fromClaude
  end.

End Discovery.

(* ===================================================================== *)
(** ** The record store, as the engine uses it *)
(* ===================================================================== *)

Definition Err : Type := string.

Inductive Result (A : Type) : Type :=
| Ok (a : A)
| Fail (e : Err).
Arguments Ok {A} a.
Arguments Fail {A} e.

Record SessionArgs : Type := mkSessionArgs {
  sa_session_id : option json;
  sa_session_name : option json;
  sa_agent_id : string;
  sa_working_directory : option json;
  sa_started_at : option Z;
  sa_status : option json
}.

Record ProjectArgs : Type := mkProjectArgs {
  pa_project_path : string;
  pa_project_name : string;
  pa_claude_dir : string
}.

Record ConversationArgs : Type := mkConversationArgs {
  ca_jsonl_file : string;
  ca_project_path : string;
  ca_session_id : string;
  ca_message_count : nat;
  ca_first_message_at : option Z;
  ca_last_message_at : option Z;
  ca_first_user_message : option string;
  ca_model_names : option string;
  ca_git_branch : option string;
  ca_claude_version : option string
}.

(** The five store operations of [@/lib/cozo-schema-simple] the engine
    calls, over a store state [S].  Reads return the first column of each
    row ([project[0]], [row[0]]; a first column that is not a string reads
    as the empty string, which is falsy as well).  A write returns the
    store it leaves and whether it threw. *)
Record StoreOps (S : Type) : Type := mkStoreOps {
  getProjects : S -> Result (list string);
  getConversations : S -> string -> Result (list string);
  recordSession : S -> SessionArgs -> S * option Err;
  recordProject : S -> ProjectArgs -> S * option Err;
  recordConversation : S -> ConversationArgs -> S * option Err
}.
Arguments getProjects {S} _ _.
Arguments getConversations {S} _ _ _.
Arguments recordSession {S} _ _ _.
Arguments recordProject {S} _ _ _.
Arguments recordConversation {S} _ _ _.

(** A call to the store, for the log of an invocation. *)
Inductive StoreCall : Type :=
| CallGetProjects
| CallGetConversations (projectPath : string)
| CallRecordSession (a : SessionArgs)
| CallRecordProject (a : ProjectArgs)
| CallRecordConversation (a : ConversationArgs).

Definition isWrite (c : StoreCall) : bool :=
  match c with
  | CallGetProjects | CallGetConversations _ => false
  | CallRecordSession _ | CallRecordProject _ | CallRecordConversation _ => true
  end.

Definition isRecordSession (c : StoreCall) : bool :=
  match c with
  | CallRecordSession _ => true
  | _ => false
  end.

(** The store and the calls made so far, oldest first, each with whether
    it returned ([true]) or threw ([false]). *)
Record World (S : Type) : Type := mkWorld {
  w_store : S;
  w_log : list (StoreCall * bool)
}.
Arguments mkWorld {S} _ _.
Arguments w_store {S} _.
Arguments w_log {S} _.

(** How an asynchronous computation ends: it returns, it throws (the
    promise rejects), or it does not end ([Hung]: the directory walk ran
    out of fuel). *)
Inductive Outcome (A : Type) : Type :=
| Returned (a : A)
| Threw (e : Err)
| Hung.
Arguments Returned {A} a.
Arguments Threw {A} e.
Arguments Hung {A}.

Definition M (S A : Type) : Type := World S -> Outcome A * World S.

Definition ret {S A} (a : A) : M S A := fun w => (Returned a, w).

Definition bind {S A B} (m : M S A) (k : A -> M S B) : M S B :=
  fun w =>
    match m w with
    | (Returned a, w') => k a w'
    | (Threw e, w') => (Threw e, w')
    | (Hung, w') => (Hung, w')
    end.

(** [try { m } catch { h }]. *)
Definition tryCatch {S A} (m : M S A) (h : M S A) : M S A :=
  fun w =>
    match m w with
    | (Threw _, w') => h w'
    | r => r
    end.

Notation "'let*' x ':=' m 'in' k" := (bind m (fun x => k))
  (at level 10, x pattern, m at level 100, k at level 200).

Section StoreCalls.

Context {S : Type}.
Variable ops : StoreOps S.

Definition logged (w : World S) (s : S) (c : StoreCall) (ok : bool) : World S :=
  mkWorld s (w_log w ++ [(c, ok)]).

Definition doRead {A} (c : StoreCall) (f : S -> Result A) : M S A :=
  fun w =>
    match f (w_store w) with
    | Ok a => (Returned a, logged w (w_store w) c true)
    | Fail e => (Threw e, logged w (w_store w) c false)
    end.

Definition doWrite (c : StoreCall) (f : S -> S * option Err) : M S unit :=
  fun w =>
    match f (w_store w) with
    | (s', None) => (Returned tt, logged w s' c true)
    | (s', Some e) => (Threw e, logged w s' c false)
    end.

Definition callGetProjects : M S (list string) :=
  doRead CallGetProjects (getProjects ops).

Definition callGetConversations (projectPath : string) : M S (list string) :=
  doRead (CallGetConversations projectPath)
         (fun s => getConversations ops s projectPath).

Definition callRecordSession (a : SessionArgs) : M S unit :=
  doWrite (CallRecordSession a) (fun s => recordSession ops s a).

Definition callRecordProject (a : ProjectArgs) : M S unit :=
  doWrite (CallRecordProject a) (fun s => recordProject ops s a).

Definition callRecordConversation (a : ConversationArgs) : M S unit :=
  doWrite (CallRecordConversation a) (fun s => recordConversation ops s a).

(** The inner loop of [getExistingConversationFiles]:
    [if (row[0]) existingFiles.add(row[0])]. *)
Definition addRows (existingFiles : gset string) (rows : list string) : gset string :=
  fold_left (fun acc row0 => if String.eqb row0 EmptyString then acc else acc ∪ {[ row0 ]})
            rows existingFiles.

Fixpoint existingLoop (projects : list string) (existingFiles : gset string)
  : M S (gset string) :=
  match projects with
  | [] => ret existingFiles
  | projectPath :: rest =>
      let* conversations := callGetConversations projectPath in
      existingLoop rest (addRows existingFiles conversations)
  end.

Definition getExistingConversationFiles : M S (gset string) :=
  let* projects := callGetProjects in
  existingLoop projects ∅.

End StoreCalls.

(* ===================================================================== *)
(** ** Working-directory resolver *)
(* ===================================================================== *)

(** [a || b] on [string | undefined] values. *)
Definition orElse (a b : option string) : option string :=
  if truthyStr a then a else b.

(** What [for (const session of v || [])] iterates over: the elements of
    an array, the code units of a string; [None] when the value is truthy
    and not iterable (a TypeError). *)
Definition iterate (v : option json) : option (list json) :=
  if negb (truthy v) then Some []
  else match v with
       | Some (JArr items) => Some items
       | Some (JStr s) => Some (map (fun c => JStr (String c EmptyString)) (ofString s))
       | _ => None
       end.

Section Resolver.

Context {S : Type}.
Variable rt : Runtime.
Variable ops : StoreOps S.

(** The registry part: the base and the preferred working directory. *)
Definition registryDirectories (agentId : string) : list string :=
  let registryAgent :=
    match getAgent rt agentId with
    | Some a => Some a
    | None => getAgentBySession rt agentId
    end in
  match registryAgent with
  | None => []
  | Some a =>
      let baseWd :=
        orElse (ra_workingDirectory a)
               (match ra_sessions a with
                | s0 :: _ => rs_workingDirectory s0
                | [] => None
                end) in
      let prefWd := ra_defaultWorkingDirectory a in
      let wds :=
        match baseWd with
        | Some wd => if truthyStr baseWd then setAdd [] (normalizePathForMatch wd) else []
        | None => []
        end in
      match prefWd with
      | Some wd => if truthyStr prefWd then setAdd wds (normalizePathForMatch wd) else wds
      | None => wds
      end
  end.

Definition sessionArgs (agentId : string) (session : json) : SessionArgs :=
  {| sa_session_id := prop session "id";
     sa_session_name := prop session "name";
     sa_agent_id := agentId;
     sa_working_directory := prop session "workingDirectory";
     sa_started_at := Date_getTime rt (prop session "createdAt");
     sa_status := prop session "status" |}.

(** The [for (const session of ...)] loop.  It runs inside the [try]: when
    an iteration throws, the loop ends and the function goes on with the
    counters as they are at that point. *)
Fixpoint sessionLoop (agentId : string) (applyWrites : bool) (sessions : list json)
  (activeSessionsSeen : nat) (workingDirectories : list string)
  : M S (nat * list string) :=
  match sessions with
  | [] => ret (activeSessionsSeen, workingDirectories)
  | session :: rest =>
      match session with
      | JNull => ret (activeSessionsSeen, workingDirectories)
      | _ =>
          if negb (isStr (prop session "agentId") agentId)
          then sessionLoop agentId applyWrites rest activeSessionsSeen workingDirectories
          else
            let activeSessionsSeen := Datatypes.S activeSessionsSeen in
            let wd := prop session "workingDirectory" in
            match (if truthy wd
                   then match wd with
                        | Some (JStr s) =>
                            Some (setAdd workingDirectories (normalizePathForMatch s))
                        | _ => None
                        end
                   else Some workingDirectories)
            with
            | None => ret (activeSessionsSeen, workingDirectories)
            | Some workingDirectories =>
                if applyWrites
                then
                  let* recorded :=
                    tryCatch
                      (let* _ := callRecordSession ops (sessionArgs agentId session) in
                       ret true)
                      (ret false) in
                  if (recorded : bool)
                  then sessionLoop agentId applyWrites rest
                                   activeSessionsSeen workingDirectories
                  else ret (activeSessionsSeen, workingDirectories)
                else sessionLoop agentId applyWrites rest
                                 activeSessionsSeen workingDirectories
            end
      end
  end.

Definition fetchWorkingDirectoriesForAgent (agentId : string) (applyWrites : bool)
  : M S (nat * list string) :=
  let workingDirectories := registryDirectories agentId in
  match fetchSessions rt with
  | FetchThrows | FetchNotOk => ret (0%nat, workingDirectories)
  | FetchOk JNull => ret (0%nat, workingDirectories)
  | FetchOk sessionsData =>
      match iterate (prop sessionsData "sessions") with
      | None => ret (0%nat, workingDirectories)
      | Some sessions =>
          sessionLoop agentId applyWrites sessions 0%nat workingDirectories
      end
  end.

End Resolver.

(* ===================================================================== *)
(** ** Match and dedup engine *)
(* ===================================================================== *)

Definition emptySourceStats : SourceStats := mkStats 0 0 0 0 0.

Definition emptyReport (agentId : string) (dryRun : bool)
  (maxFilesApplied : QArith_base.Q) : BackfillReport :=
  {| success := true;
     agent_id := agentId;
     mode := if dryRun then mode_dry_run else mode_apply;
     stats_claude := emptySourceStats;
     stats_codex := emptySourceStats;
     total_discovered := 0;
     total_matched := 0;
     total_unmapped := 0;
     total_existing := 0;
     total_inserted := 0;
     max_files_applied := maxFilesApplied;
     truncated := false;
     working_directories := [];
     active_sessions_seen := 0;
     unmapped_examples := [];
     existing_examples := [];
     inserted_examples := [] |}.

Definition pushExample (target : list string) (value : string) : list string :=
  if (MAX_EXAMPLES <=? length target)%nat then target else target ++ [value].

(** [report.sources[src] = f(report.sources[src])]. *)
Definition updStats (src : ConversationSource) (f : SourceStats -> SourceStats)
  (r : BackfillReport) : BackfillReport :=
  {| success := success r;
     agent_id := agent_id r;
     mode := mode r;
     stats_claude := match src with claude => f (stats_claude r) | codex => stats_claude r end;
     stats_codex := match src with codex => f (stats_codex r) | claude => stats_codex r end;
     total_discovered := total_discovered r;
     total_matched := total_matched r;
     total_unmapped := total_unmapped r;
     total_existing := total_existing r;
     total_inserted := total_inserted r;
     max_files_applied := max_files_applied r;
     truncated := truncated r;
     working_directories := working_directories r;
     active_sessions_seen := active_sessions_seen r;
     unmapped_examples := unmapped_examples r;
     existing_examples := existing_examples r;
     inserted_examples := inserted_examples r |}.

(** The report-level counters and lists, updated together. *)
Definition updTotals
  (fMatched fUnmapped fExisting fInserted : nat -> nat)
  (fUnmappedEx fExistingEx fInsertedEx : list string -> list string)
  (r : BackfillReport) : BackfillReport :=
  {| success := success r;
     agent_id := agent_id r;
     mode := mode r;
     stats_claude := stats_claude r;
     stats_codex := stats_codex r;
     total_discovered := total_discovered r;
     total_matched := fMatched (total_matched r);
     total_unmapped := fUnmapped (total_unmapped r);
     total_existing := fExisting (total_existing r);
     total_inserted := fInserted (total_inserted r);
     max_files_applied := max_files_applied r;
     truncated := truncated r;
     working_directories := working_directories r;
     active_sessions_seen := active_sessions_seen r;
     unmapped_examples := fUnmappedEx (unmapped_examples r);
     existing_examples := fExistingEx (existing_examples r);
     inserted_examples := fInsertedEx (inserted_examples r) |}.

(** [report.active_sessions_seen = n; report.working_directories = wds]. *)
Definition withResolved (n : nat) (wds : list string) (r : BackfillReport)
  : BackfillReport :=
  {| success := success r;
     agent_id := agent_id r;
     mode := mode r;
     stats_claude := stats_claude r;
     stats_codex := stats_codex r;
     total_discovered := total_discovered r;
     total_matched := total_matched r;
     total_unmapped := total_unmapped r;
     total_existing := total_existing r;
     total_inserted := total_inserted r;
     max_files_applied := max_files_applied r;
     truncated := truncated r;
     working_directories := wds;
     active_sessions_seen := n;
     unmapped_examples := unmapped_examples r;
     existing_examples := existing_examples r;
     inserted_examples := inserted_examples r |}.

(** [report.total_discovered = n; report.truncated = t]. *)
Definition withDiscovered (n : nat) (t : bool) (r : BackfillReport)
  : BackfillReport :=
  {| success := success r;
     agent_id := agent_id r;
     mode := mode r;
     stats_claude := stats_claude r;
     stats_codex := stats_codex r;
     total_discovered := n;
     total_matched := total_matched r;
     total_unmapped := total_unmapped r;
     total_existing := total_existing r;
     total_inserted := total_inserted r;
     max_files_applied := max_files_applied r;
     truncated := t;
     working_directories := working_directories r;
     active_sessions_seen := active_sessions_seen r;
     unmapped_examples := unmapped_examples r;
     existing_examples := existing_examples r;
     inserted_examples := inserted_examples r |}.

Definition incDiscovered (s : SourceStats) : SourceStats :=
  mkStats (Datatypes.S (discovered s)) (matched s) (unmapped s) (existing s) (inserted s).
Definition incMatched (s : SourceStats) : SourceStats :=
  mkStats (discovered s) (Datatypes.S (matched s)) (unmapped s) (existing s) (inserted s).
Definition incUnmapped (s : SourceStats) : SourceStats :=
  mkStats (discovered s) (matched s) (Datatypes.S (unmapped s)) (existing s) (inserted s).
Definition incExisting (s : SourceStats) : SourceStats :=
  mkStats (discovered s) (matched s) (unmapped s) (Datatypes.S (existing s)) (inserted s).
Definition incInserted (s : SourceStats) : SourceStats :=
  mkStats (discovered s) (matched s) (unmapped s) (existing s) (Datatypes.S (inserted s)).

(** [report.sources[item.source].discovered++]. *)
Definition countDiscovered (r : BackfillReport) (item : DiscoveredConversation)
  : BackfillReport :=
  updStats (source item) incDiscovered r.

Definition markUnmapped (r : BackfillReport) (item : DiscoveredConversation)
  : BackfillReport :=
  updTotals id Datatypes.S id id (fun l => pushExample l (jsonlFile item)) id id
            (updStats (source item) incUnmapped r).

Definition markMatched (r : BackfillReport) (item : DiscoveredConversation)
  : BackfillReport :=
  updTotals Datatypes.S id id id id id id (updStats (source item) incMatched r).

Definition markExisting (r : BackfillReport) (item : DiscoveredConversation)
  : BackfillReport :=
  updTotals id id Datatypes.S id id (fun l => pushExample l (jsonlFile item)) id
            (updStats (source item) incExisting r).

Definition markInserted (r : BackfillReport) (item : DiscoveredConversation)
  : BackfillReport :=
  updTotals id id id Datatypes.S id id (fun l => pushExample l (jsonlFile item))
            (updStats (source item) incInserted r).

(** [{ ...item, cwd: normalizedCwd }]. *)
Definition withCwd (item : DiscoveredConversation) (normalizedCwd : string)
  : DiscoveredConversation :=
  {| source := source item;
     jsonlFile := jsonlFile item;
     cwd := Some normalizedCwd;
     sessionId := sessionId item;
     firstMessageAt := firstMessageAt item;
     lastMessageAt := lastMessageAt item;
     messageCount := messageCount item;
     firstUserMessage := firstUserMessage item;
     modelNames := modelNames item;
     gitBranch := gitBranch item;
     cliVersion := cliVersion item |}.

(** [item.cwd ? normalizePathForMatch(item.cwd) : null], then the test
    [!normalizedCwd || !workingDirectorySet.has(normalizedCwd)] negated:
    the normalized directory when the item is matched. *)
Definition matchedCwd (workingDirectorySet : list string)
  (item : DiscoveredConversation) : option string :=
  match cwd item with
  | Some c =>
      if truthyStr (cwd item) then
        let normalizedCwd := normalizePathForMatch c in
        if negb (String.eqb normalizedCwd EmptyString)
           && bool_decide (normalizedCwd ∈ workingDirectorySet)
        then Some normalizedCwd
        else None
      else None
  | None => None
  end.

(** Body of the classification loop over the truncated discovered set. *)
Definition matchStep (workingDirectorySet : list string)
  (acc : BackfillReport * list DiscoveredConversation)
  (item : DiscoveredConversation) : BackfillReport * list DiscoveredConversation :=
  let '(report, matchedItems) := acc in
  match matchedCwd workingDirectorySet item with
  | None => (markUnmapped report item, matchedItems)
  | Some normalizedCwd =>
      (markMatched report item, matchedItems ++ [withCwd item normalizedCwd])
  end.

(** [x || undefined] on a nullable number: zero is falsy too. *)
Definition truthyNumber (x : option Z) : option Z :=
  match x with
  | Some z => if (z =? 0)%Z then None else Some z
  | None => None
  end.

(** [x || undefined] on a nullable string. *)
Definition truthyString (x : option string) : option string :=
  if truthyStr x then x else None.

(** Comparisons of JavaScript numbers, on rationals. *)
Definition numGt (a b : QArith_base.Q) : bool := negb (QArith_base.Qle_bool a b).

Definition numOfNat (n : nat) : QArith_base.Q := QArith_base.inject_Z (Z.of_nat n).

(** The integer [Array.prototype.slice] clamps a positive end index to. *)
Definition sliceEnd (q : QArith_base.Q) : nat := Z.to_nat (Qround.Qfloor q).

Definition DEFAULT_MAX_FILES : QArith_base.Q := QArith_base.inject_Z 5000.

Definition requestSources (request : BackfillRequest) : list ConversationSource :=
  match sources request with
  | Some (s :: l) => s :: l
  | _ => [claude; codex]
  end.

(** [request.dryRun === true]. *)
Definition requestDryRun (request : BackfillRequest) : bool :=
  match dryRun request with
  | Some true => true
  | _ => false
  end.

Definition requestMaxFiles (request : BackfillRequest) : QArith_base.Q :=
  match maxFiles request with
  | Some q => if numGt q (QArith_base.inject_Z 0) then q else DEFAULT_MAX_FILES
  | None => DEFAULT_MAX_FILES
  end.

Section Engine.

Context {S : Type}.
Variable rt : Runtime.
Variable ops : StoreOps S.

Definition projectArgs (c : string) (item : DiscoveredConversation) : ProjectArgs :=
  {| pa_project_path := c;
     pa_project_name :=
       (let b := path_basename rt c in if String.eqb b EmptyString then "unknown" else b);
     pa_claude_dir := path_dirname rt (jsonlFile item) |}.

Definition conversationArgs (c : string) (item : DiscoveredConversation)
  : ConversationArgs :=
  {| ca_jsonl_file := jsonlFile item;
     ca_project_path := c;
     ca_session_id :=
       match truthyString (sessionId item) with
       | Some s => s
       | None => "unknown"
       end;
     ca_message_count := messageCount item;
     ca_first_message_at := truthyNumber (firstMessageAt item);
     ca_last_message_at := truthyNumber (lastMessageAt item);
     ca_first_user_message := truthyString (firstUserMessage item);
     ca_model_names := truthyString (modelNames item);
     ca_git_branch := truthyString (gitBranch item);
     ca_claude_version := truthyString (cliVersion item) |}.

(** [if (!dryRun && item.cwd) { await recordProject(..); await recordConversation(..) }]. *)
Definition persist (dryRun : bool) (item : DiscoveredConversation) : M S unit :=
  match cwd item with
  | Some c =>
      if negb dryRun && truthyStr (cwd item)
      then
        let* _ := callRecordProject ops (projectArgs c item) in
        callRecordConversation ops (conversationArgs c item)
      else ret tt
  | None => ret tt
  end.

(** The loop over the matched conversations. *)
Fixpoint insertLoop (dryRun : bool) (existingFiles : gset string)
  (matchedItems : list DiscoveredConversation) (report : BackfillReport)
  : M S BackfillReport :=
  match matchedItems with
  | [] => ret report
  | item :: rest =>
      if bool_decide (jsonlFile item ∈ existingFiles)
      then insertLoop dryRun existingFiles rest (markExisting report item)
      else
        let* _ := persist dryRun item in
        insertLoop dryRun existingFiles rest (markInserted report item)
  end.

(** The synchronous middle of the engine: count, truncate, classify. *)
Definition classify (maxFiles : QArith_base.Q)
  (discoveredAll : list DiscoveredConversation) (report : BackfillReport)
  : BackfillReport * list DiscoveredConversation :=
  let report := fold_left countDiscovered discoveredAll report in
  let truncate := numGt (numOfNat (length discoveredAll)) maxFiles in
  let report := withDiscovered (length discoveredAll) truncate report in
  let discoveredItems :=
    if truncate then take (sliceEnd maxFiles) discoveredAll else discoveredAll in
  fold_left (matchStep (working_directories report)) discoveredItems (report, []).

(** [backfillAgentMemory(agentId, agentDb, request)]; the store behind
    [agentDb] is the state of the monad, [fuel] bounds the directory walk. *)
Definition backfillAgentMemory (fuel : nat) (agentId : string)
  (request : BackfillRequest) : M S BackfillReport :=
  let srcs := requestSources request in
  let dryRun := requestDryRun request in
  let maxFiles := requestMaxFiles request in
  let report := emptyReport agentId dryRun maxFiles in
  let* (activeSessionsSeen, workingDirectories) :=
    fetchWorkingDirectoriesForAgent rt ops agentId (negb dryRun) in
  let report := withResolved activeSessionsSeen workingDirectories report in
  match discoverConversations rt fuel srcs with
  | None => fun w => (Hung, w)
  | Some discoveredAll =>
      let '(report, matchedItems) := classify maxFiles discoveredAll report in
      let* existingFiles := getExistingConversationFiles ops in
      insertLoop dryRun existingFiles matchedItems report
  end.

End Engine.

(* ===================================================================== *)
(** ** The route layer's request (src/app/api/agents/[id]/memory/backfill/route.ts) *)
(* ===================================================================== *)

Record BackfillRequestBody : Type := mkBody {
  body_dryRun : option bool;
  body_force : option bool;
  body_sources : option (list ConversationSource);
  body_maxFiles : option QArith_base.Q
}.

(** The request the backfill route hands to the engine:
    [dryRun: body.dryRun !== false], [force: body.force === true]. *)
Definition routeRequest (body : BackfillRequestBody) : BackfillRequest :=
  {| sources := body_sources body;
     dryRun := Some (match body_dryRun body with Some false => false | _ => true end);
     maxFiles := body_maxFiles body;
     force := Some (match body_force body with Some true => true | _ => false end) |}.

(* ===================================================================== *)
(** ** Vocabulary of the statements about the path normalizer *)
(* ===================================================================== *)

(** The string ends with a code unit that [trim] removes. *)
Definition endsWithWhitespace (p : string) : bool :=
  match last (ofString p) with
  | Some c => isWhitespace c
  | None => false
  end.

(** The last "/"-separated component of a sequence of code units. *)
Definition finalComponent (l : chars) : chars :=
  match last (split Path.slash l) with
  | Some s => s
  | None => []
  end.

(** A component that is a plain name: not empty, not "." or "..", and not
    ending in a backslash. *)
Definition plainComponent (s : chars) : bool :=
  negb (Path.chars_eqb s []) && negb (Path.chars_eqb s Path.dot)
  && negb (Path.chars_eqb s Path.dotdot) && negb (endsWith s Path.backslash).

(** The path, once trimmed, ends in a plain name. *)
Definition endsInPlainName (p : string) : bool :=
  plainComponent (finalComponent (trim (ofString p))).

(** A segment that [normalizeString] keeps: not empty, not ending in "/". *)
Definition keptSegment (s : chars) : Prop := s <> [] /\ last s <> Some Path.slash.

(* ===================================================================== *)
(** ** Vocabulary of the statements about the extractors *)
(* ===================================================================== *)

(** The timestamps of the lines that carry one, in file order. *)
Definition timestampsOf (JSON_parse : string -> option json)
  (Date_getTime : option json -> option Z) (lines : list string) : list Z :=
  omap (lineTimestamp JSON_parse Date_getTime) lines.

(* ===================================================================== *)
(** ** Sample transcripts and a sample runtime *)
(* ===================================================================== *)

Module Sample.

(** The double quote, and a JSON string literal without escapes. *)
Definition dq : string := String (ascii_of_nat 34) EmptyString.
Definition quoted (s : string) : string := (dq ++ s ++ dq)%string.

(** The text of a one-level JSON object whose values are strings. *)
Fixpoint objectBody (fields : list (string * string)) : string :=
  match fields with
  | [] => EmptyString
  | [(k, v)] => (quoted k ++ ":" ++ quoted v)%string
  | (k, v) :: rest => (quoted k ++ ":" ++ quoted v ++ "," ++ objectBody rest)%string
  end.

Definition objectText (fields : list (string * string)) : string :=
  ("{" ++ objectBody fields ++ "}")%string.

Definition objectValue (fields : list (string * string)) : json :=
  JObj (map (fun kv => (fst kv, JStr (snd kv))) fields).

(** [JSON.parse] restricted to the texts of the given objects (on which it
    returns the object) and to the malformed text "not json" (on which it
    throws; every other text is outside the table and reads as throwing). *)
Definition parseTable (objects : list (list (string * string))) (line : string)
  : option json :=
  match List.find (fun fields => String.eqb (objectText fields) line) objects with
  | Some fields => Some (objectValue fields)
  | None => None
  end.

(** [new Date(s).getTime()] on the ISO instants used in the samples. *)
Definition dateTable : list (string * Z) :=
  [("1970-01-01T00:00:00.050Z", 50%Z);
   ("1970-01-01T00:00:00.100Z", 100%Z);
   ("1970-01-01T00:00:00.200Z", 200%Z)].

Definition sampleDate (v : option json) : option Z :=
  match v with
  | Some (JStr s) =>
      match List.find (fun kv => String.eqb (fst kv) s) dateTable with
      | Some kv => Some (snd kv)
      | None => None
      end
  | _ => None
  end.

Definition stamped (iso : string) : list (string * string) := [("timestamp", iso)].

Definition lineAt050 : string := objectText (stamped "1970-01-01T00:00:00.050Z").
Definition lineAt100 : string := objectText (stamped "1970-01-01T00:00:00.100Z").
Definition lineAt200 : string := objectText (stamped "1970-01-01T00:00:00.200Z").

Definition stampedParse : string -> option json :=
  parseTable [stamped "1970-01-01T00:00:00.050Z";
              stamped "1970-01-01T00:00:00.100Z";
              stamped "1970-01-01T00:00:00.200Z"].

(** A Claude transcript of 81 lines whose last line is older than the
    eighty before it. *)
Definition outOfOrderLines : list string := replicate 80 lineAt100 ++ [lineAt050].

End Sample.

(** The timestamps of the lines are non-decreasing in file order. *)
Definition chronological (JSON_parse : string -> option json)
  (Date_getTime : option json -> option Z) (lines : list string) : Prop :=
  Sorted.Sorted Z.le (timestampsOf JSON_parse Date_getTime lines).

(** [first <= last] when both are present. *)
Definition firstBeforeLast (d : DiscoveredConversation) : Prop :=
  forall f l, firstMessageAt d = Some f -> lastMessageAt d = Some l -> (f <= l)%Z.

(** The pair of running bounds of the Codex loop: both absent, or both
    present and ordered. *)
Definition boundsOrdered (first last : option Z) : Prop :=
  match first, last with
  | None, None => True
  | Some f, Some l => (f <= l)%Z
  | _, _ => False
  end.

Module SampleLines.
Import Sample.

(** A Claude transcript of 81 lines in chronological order. *)
Definition inOrderLines : list string := replicate 80 lineAt100 ++ [lineAt200].

(** A short transcript whose lines are not in chronological order. *)
Definition shuffledLines : list string := [lineAt100; lineAt050; lineAt200; "not json"].

End SampleLines.

(* ===================================================================== *)
(** ** The record store of the spec: upsert by key *)
(* ===================================================================== *)

(** Structural equality of JSON values, used to compare session ids. *)
Fixpoint json_eqb (a b : json) : bool :=
  match a, b with
  | JNull, JNull => true
  | JBool x, JBool y => Bool.eqb x y
  | JNum x, JNum y => QArith_base.Qeq_bool x y
  | JStr x, JStr y => String.eqb x y
  | JArr xs, JArr ys =>
      (fix all2 (xs ys : list json) : bool :=
         match xs, ys with
         | [], [] => true
         | x :: xs', y :: ys' => json_eqb x y && all2 xs' ys'
         | _, _ => false
         end) xs ys
  | JObj xs, JObj ys =>
      (fix all2 (xs ys : list (string * json)) : bool :=
         match xs, ys with
         | [], [] => true
         | (k, x) :: xs', (l, y) :: ys' =>
             String.eqb k l && json_eqb x y && all2 xs' ys'
         | _, _ => false
         end) xs ys
  | _, _ => false
  end.

Definition sessionKey_eqb (a b : option json) : bool :=
  match a, b with
  | Some x, Some y => json_eqb x y
  | None, None => true
  | _, _ => false
  end.

Module UpsertStore.

(** Modelled from the spec: the per-agent record store behind
    [@/lib/cozo-schema-simple], which is not part of the sources at hand.
    The spec gives [recordSession], [recordProject] and [recordConversation]
    as idempotent upserts keyed by session id, project path and transcript
    path, and the reads as listing all known projects and all conversations
    under a project.  No operation of this store throws. *)
Record Store : Type := mkStore {
  sessionRows : list SessionArgs;
  projectRows : gmap string ProjectArgs;
  conversationRows : gmap string ConversationArgs
}.

Definition empty : Store := mkStore [] ∅ ∅.

(** The first column of the project rows: the project paths. *)
Definition listProjects (s : Store) : list string :=
  map fst (map_to_list (projectRows s)).

(** The first column of the conversation rows of one project: the
    transcript paths. *)
Definition listConversations (s : Store) (projectPath : string) : list string :=
  map fst
      (List.filter (fun kv => String.eqb (ca_project_path (snd kv)) projectPath)
                   (map_to_list (conversationRows s))).

Definition upsertSession (s : Store) (a : SessionArgs) : Store :=
  mkStore
    (a :: List.filter
            (fun r => negb (sessionKey_eqb (sa_session_id r) (sa_session_id a)))
            (sessionRows s))
    (projectRows s) (conversationRows s).

Definition upsertProject (s : Store) (a : ProjectArgs) : Store :=
  mkStore (sessionRows s) (<[pa_project_path a := a]> (projectRows s))
          (conversationRows s).

Definition upsertConversation (s : Store) (a : ConversationArgs) : Store :=
  mkStore (sessionRows s) (projectRows s)
          (<[ca_jsonl_file a := a]> (conversationRows s)).

Definition ops : StoreOps Store :=
  {| getProjects := fun s => Ok (listProjects s);
     getConversations := fun s p => Ok (listConversations s p);
     recordSession := fun s a => (upsertSession s a, None);
     recordProject := fun s a => (upsertProject s a, None);
     recordConversation := fun s a => (upsertConversation s a, None) |}.

(** The same store behind a connection on which session upserts throw. *)
Definition opsSessionsDown : StoreOps Store :=
  {| getProjects := fun s => Ok (listProjects s);
     getConversations := fun s p => Ok (listConversations s p);
     recordSession := fun s a => (s, Some "session relation unavailable");
     recordProject := fun s a => (upsertProject s a, None);
     recordConversation := fun s a => (upsertConversation s a, None) |}.

(** The same store when it cannot be reached for reading. *)
Definition opsReadsDown : StoreOps Store :=
  {| getProjects := fun s => Fail "store unreachable";
     getConversations := fun s p => Fail "store unreachable";
     recordSession := fun s a => (upsertSession s a, None);
     recordProject := fun s a => (upsertProject s a, None);
     recordConversation := fun s a => (upsertConversation s a, None) |}.

(** The same store when conversation upserts throw. *)
Definition opsConversationsDown : StoreOps Store :=
  {| getProjects := fun s => Ok (listProjects s);
     getConversations := fun s p => Ok (listConversations s p);
     recordSession := fun s a => (upsertSession s a, None);
     recordProject := fun s a => (upsertProject s a, None);
     recordConversation := fun s a => (s, Some "conversation relation unavailable") |}.

(** The transcript is listed under a known project: what
    [getExistingConversationFiles] collects. *)
Definition listed (s : Store) (file : string) : Prop :=
  file <> EmptyString /\
  exists c, conversationRows s !! file = Some c
            /\ is_Some (projectRows s !! ca_project_path c).

End UpsertStore.

(* ===================================================================== *)
(** ** A sample host: filesystem, registry, live sessions *)
(* ===================================================================== *)

Module World.
Import Sample.

(** JSON values built from strings and objects only, with their text. *)
#[warnings="-register-all"] Inductive sval : Type :=
| SStr (s : string)
| SObj (fields : list (string * sval)).

Fixpoint render (v : sval) : string :=
  match v with
  | SStr s => quoted s
  | SObj fields =>
      let body :=
        (fix body (fs : list (string * sval)) : string :=
           match fs with
           | [] => EmptyString
           | (k, x) :: rest =>
               match rest with
               | [] => (quoted k ++ ":" ++ render x)%string
               | _ :: _ => (quoted k ++ ":" ++ render x ++ "," ++ body rest)%string
               end
           end) fields in
      ("{" ++ body ++ "}")%string
  end.

Fixpoint toJson (v : sval) : json :=
  match v with
  | SStr s => JStr s
  | SObj fields =>
      JObj ((fix each (fs : list (string * sval)) : list (string * json) :=
               match fs with
               | [] => []
               | (k, x) :: rest => (k, toJson x) :: each rest
               end) fields)
  end.

(** [JSON.parse] restricted to the texts of the given values; every other
    text reads as a parse error. *)
Definition parseValues (values : list sval) (line : string) : option json :=
  match List.find (fun v => String.eqb (render v) line) values with
  | Some v => Some (toJson v)
  | None => None
  end.

Definition t050 : string := "1970-01-01T00:00:00.050Z".
Definition t100 : string := "1970-01-01T00:00:00.100Z".
Definition t200 : string := "1970-01-01T00:00:00.200Z".

(** The lines of the sample transcripts. *)
Definition claudeUser : sval :=
  SObj [("timestamp", SStr t100); ("sessionId", SStr "sess-a");
        ("cwd", SStr "/home/u/work/"); ("type", SStr "user");
        ("message", SObj [("content", SStr "Plan the migration")])].
Definition claudeAssistant : sval :=
  SObj [("timestamp", SStr t200); ("type", SStr "assistant");
        ("message", SObj [("model", SStr "claude-sonnet-4-5")])].
Definition claudeElsewhere : sval :=
  SObj [("timestamp", SStr t050); ("cwd", SStr "/elsewhere")].
Definition codexMeta : sval :=
  SObj [("timestamp", SStr t100); ("type", SStr "session_meta");
        ("payload", SObj [("id", SStr "sess-c"); ("cwd", SStr "/home/u/side")])].

Definition parse : string -> option json :=
  parseValues [claudeUser; claudeAssistant; claudeElsewhere; codexMeta].

Definition nl : string := String (ascii_of_nat 10) EmptyString.

(** The text of a file made of the given lines, each ended by LF. *)
Definition unlines (lines : list string) : string :=
  fold_right (fun l acc => (l ++ nl ++ acc)%string) EmptyString lines.

Definition claudeRoot : string := "/home/u/.claude/projects".
Definition codexRoot : string := "/home/u/.codex/sessions".
Definition fileA : string := "/home/u/.claude/projects/proj/a.jsonl".
Definition fileB : string := "/home/u/.claude/projects/proj/b.jsonl".
Definition fileBlank : string := "/home/u/.claude/projects/proj/blank.jsonl".
Definition fileC : string := "/home/u/.codex/sessions/c.jsonl".

Definition assoc {A} (table : list (string * A)) (k : string) : option A :=
  match List.find (fun kv => String.eqb (fst kv) k) table with
  | Some kv => Some (snd kv)
  | None => None
  end.

Definition directories : list (string * list string) :=
  [(claudeRoot, ["proj"; "README.md"]);
   ("/home/u/.claude/projects/proj", ["a.jsonl"; "blank.jsonl"; "b.jsonl"; "notes.txt"]);
   (codexRoot, ["c.jsonl"])].

Definition files : list (string * string) :=
  [(fileA, unlines [render claudeUser; EmptyString; render claudeAssistant]);
   (fileBlank, unlines [EmptyString; "   "; EmptyString]);
   (fileB, unlines [render claudeElsewhere; "not json"]);
   (fileC, unlines [render codexMeta]);
   ("/home/u/.claude/projects/README.md", "notes");
   ("/home/u/.claude/projects/proj/notes.txt", "notes")].

Definition lastComponent (p : string) : string :=
  toString (finalComponent (ofString p)).

Definition parentOf (p : string) : string :=
  let segs := split Path.slash (ofString p) in
  toString (Js.join [Path.slash] (take (length segs - 1) segs)).

Definition agent : string := "agent-1".

Definition liveSession : json :=
  JObj [("agentId", JStr agent); ("id", JStr "live-1"); ("name", JStr "main");
        ("workingDirectory", JStr "/home/u/side/"); ("createdAt", JStr t100);
        ("status", JStr "active")].

Definition foreignSession : json :=
  JObj [("agentId", JStr "agent-2"); ("id", JStr "live-2");
        ("workingDirectory", JStr "/elsewhere")].

(** A POSIX host with two Claude transcripts, a blank one and a Codex
    transcript; the registry knows the agent's working directory, the live
    inventory lists one session of the agent and one of another agent.
    [path.basename] and [path.dirname] are given on normalized absolute
    paths without a trailing separator, the only ones they are applied to
    here. *)
Definition host : Runtime :=
  {| JSON_parse := parse;
     Date_getTime := sampleDate;
     os_homedir := "/home/u";
     fs_existsSync := fun p => bool_decide (is_Some (assoc directories p));
     fs_readdirSync := assoc directories;
     fs_statSync := fun p =>
       match assoc directories p, assoc files p with
       | Some _, _ => Some true
       | None, Some _ => Some false
       | None, None => None
       end;
     fs_readFileSync := assoc files;
     path_basename := lastComponent;
     path_dirname := parentOf;
     getAgent := fun id =>
       if String.eqb id agent
       then Some (mkRegistryAgent (Some "/home/u/work") [] None)
       else None;
     getAgentBySession := fun _ => None;
     fetchSessions :=
       FetchOk (JObj [("sessions", JArr [foreignSession; liveSession])]) |}.

Definition request (dry : option bool) (cap : option QArith_base.Q) : BackfillRequest :=
  mkRequest None dry cap None.



(** A store that already holds the first Claude transcript. *)
Definition seeded : UpsertStore.Store :=
  UpsertStore.upsertConversation
    (UpsertStore.upsertProject UpsertStore.empty
       (mkProjectArgs "/home/u/work" "work" "/home/u/.claude/projects/proj"))
    (mkConversationArgs fileA "/home/u/work" "sess-a" 2 (Some 100%Z) (Some 200%Z)
                        None None None None).

Definition start (s : UpsertStore.Store) : World UpsertStore.Store := mkWorld s [].

(** The report of a run that returns one; the empty report otherwise. *)
Definition reportOf {S} (run : Outcome BackfillReport * World S) : BackfillReport :=
  match fst run with
  | Returned r => r
  | _ => emptyReport EmptyString false DEFAULT_MAX_FILES
  end.

Definition summary (r : BackfillReport)
  : Mode * bool * (nat * nat * nat * nat * nat) * list (nat * nat * nat * nat * nat) :=
  (mode r, truncated r,
   (total_discovered r, total_matched r, total_unmapped r,
    total_existing r, total_inserted r),
   map (fun s => (discovered s, matched s, unmapped s, existing s, inserted s))
       [stats_claude r; stats_codex r]).

End World.

(* ===================================================================== *)
(** ** Vocabulary of the statements about the engine *)
(* ===================================================================== *)

(** How many of the items come from the given source. *)
Definition countSource (src : ConversationSource)
  (items : list DiscoveredConversation) : nat :=
  length (List.filter (fun d => ConversationSource_eqb (source d) src) items).

(** The part of the report the lookup loop does not touch. *)
Definition classification (r : BackfillReport)
  : (bool * string * Mode * QArith_base.Q * bool * list string * nat * list string)
    * (nat * nat * nat) * list (nat * nat * nat) :=
  ((success r, agent_id r, mode r, max_files_applied r, truncated r,
    working_directories r, active_sessions_seen r, unmapped_examples r),
   (total_discovered r, total_matched r, total_unmapped r),
   map (fun s => (discovered s, matched s, unmapped s)) [stats_claude r; stats_codex r]).

(** The items the classification loop runs over: the discovered set cut to
    the cap when it exceeds it. *)
Definition classified (maxFiles : QArith_base.Q)
  (discoveredAll : list DiscoveredConversation) : list DiscoveredConversation :=
  if numGt (numOfNat (length discoveredAll)) maxFiles
  then take (sliceEnd maxFiles) discoveredAll
  else discoveredAll.

(** The report as the engine has it when discovery starts. *)
Definition initialReport (agentId : string) (request : BackfillRequest)
  (activeSessionsSeen : nat) (workingDirectories : list string) : BackfillReport :=
  withResolved activeSessionsSeen workingDirectories
    (emptyReport agentId (requestDryRun request) (requestMaxFiles request)).

(** The calls a computation added to the log. *)
Definition newCalls {S} (before after : World S) : list (StoreCall * bool) :=
  drop (length (w_log before)) (w_log after).

(** The matched form of an item: its working directory replaced by the
    normalized one, when that is one of the agent's directories. *)
Definition matchedItem (workingDirectorySet : list string)
  (item : DiscoveredConversation) : option DiscoveredConversation :=
  match matchedCwd workingDirectorySet item with
  | Some normalizedCwd => Some (withCwd item normalizedCwd)
  | None => None
  end.

Definition matchedOf (workingDirectorySet : list string)
  (items : list DiscoveredConversation) : list DiscoveredConversation :=
  omap (matchedItem workingDirectorySet) items.

(** The matched items whose transcript is, respectively is not, among the
    existing files. *)
Definition existingOf (existingFiles : gset string)
  (matchedItems : list DiscoveredConversation) : list DiscoveredConversation :=
  List.filter (fun d => bool_decide (jsonlFile d ∈ existingFiles)) matchedItems.

Definition insertedOf (existingFiles : gset string)
  (matchedItems : list DiscoveredConversation) : list DiscoveredConversation :=
  List.filter (fun d => negb (bool_decide (jsonlFile d ∈ existingFiles))) matchedItems.

(** The report while the engine runs: [items] are the discovered
    conversations classified so far, [looked] the matched ones looked up in
    the store so far. *)
Record Progress (agentId : string) (request : BackfillRequest)
  (activeSessionsSeen : nat) (workingDirectories : list string)
  (discoveredAll : list DiscoveredConversation) (existingFiles : gset string)
  (items looked : list DiscoveredConversation)
  (r : BackfillReport) : Prop := mkProgress {
  d_success : success r = true;
  d_agent : agent_id r = agentId;
  d_mode : mode r = if requestDryRun request then mode_dry_run else mode_apply;
  d_cap : max_files_applied r = requestMaxFiles request;
  d_truncated :
    truncated r = numGt (numOfNat (length discoveredAll)) (requestMaxFiles request);
  d_directories : working_directories r = workingDirectories;
  d_sessions : active_sessions_seen r = activeSessionsSeen;
  d_total_discovered : total_discovered r = length discoveredAll;
  d_total_matched : total_matched r = length (matchedOf workingDirectories items);
  d_total_unmapped :
    (total_unmapped r + length (matchedOf workingDirectories items))%nat = length items;
  d_total_existing : total_existing r = length (existingOf existingFiles looked);
  d_total_inserted : total_inserted r = length (insertedOf existingFiles looked);
  d_discovered : forall src, discovered (stats r src) = countSource src discoveredAll;
  d_src_matched : forall src,
    matched (stats r src) = countSource src (matchedOf workingDirectories items);
  d_src_unmapped : forall src,
    (unmapped (stats r src) + countSource src (matchedOf workingDirectories items))%nat
    = countSource src items;
  d_src_existing : forall src,
    existing (stats r src) = countSource src (existingOf existingFiles looked);
  d_src_inserted : forall src,
    inserted (stats r src) = countSource src (insertedOf existingFiles looked)
}.

(** What a returned report says, given what the run resolved, discovered
    and found in the store. *)
Definition Describes (agentId : string) (request : BackfillRequest)
  (activeSessionsSeen : nat) (workingDirectories : list string)
  (discoveredAll : list DiscoveredConversation) (existingFiles : gset string)
  (r : BackfillReport) : Prop :=
  let items := classified (requestMaxFiles request) discoveredAll in
  Progress agentId request activeSessionsSeen workingDirectories
           discoveredAll existingFiles items (matchedOf workingDirectories items) r.

(** Everything in a report but the per-source [discovered] counters. *)
Definition besidesDiscovered (r : BackfillReport) :=
  ((success r, agent_id r, mode r, max_files_applied r, truncated r),
   (working_directories r, active_sessions_seen r),
   (total_discovered r, total_matched r, total_unmapped r, total_existing r,
    total_inserted r),
   (unmapped_examples r, existing_examples r, inserted_examples r),
   map (fun s => (matched s, unmapped s, existing s, inserted s))
       [stats_claude r; stats_codex r]).

(** A computation that leaves the store as it is and calls only reads. *)
Definition readsOnly {S A} (m : M S A) : Prop :=
  forall w,
    w_store (snd (m w)) = w_store w
    /\ exists calls, w_log (snd (m w)) = w_log w ++ calls
                     /\ Forall (fun e => isWrite (fst e) = false) calls.

(** A computation that throws whenever one of its store calls other than
    [recordSession] threw. *)
Definition propagates {S A} (m : M S A) : Prop :=
  forall w,
    exists calls, w_log (snd (m w)) = w_log w ++ calls
                  /\ forall c, (c, false) ∈ calls -> isRecordSession c = false ->
                               exists e, fst (m w) = Threw e.

(** A computation that returns, after calling nothing but [recordSession]. *)
Definition sessionCallsOnly {S A} (m : M S A) : Prop :=
  forall w,
    (exists a, fst (m w) = Returned a)
    /\ exists calls, w_log (snd (m w)) = w_log w ++ calls
                     /\ Forall (fun e => isRecordSession (fst e) = true) calls.

(** The three example lists of a report, together. *)
Definition examples (r : BackfillReport) : list string :=
  unmapped_examples r ++ existing_examples r ++ inserted_examples r.

(** A computation on the upsert store that returns the same value from
    every world and leaves the project and conversation rows as they are. *)
Definition keepsRows {A} (m : M UpsertStore.Store A) : Prop :=
  exists res, forall w, exists w',
    m w = (Returned res, w')
    /\ UpsertStore.projectRows (w_store w') = UpsertStore.projectRows (w_store w)
    /\ UpsertStore.conversationRows (w_store w')
       = UpsertStore.conversationRows (w_store w).

(** A preview as [truncateText] produces it: at most [bound] code units,
    none of them LF, CR or TAB. *)
Definition previewWithin (bound : nat) (preview : option string) : Prop :=
  forall s, preview = Some s ->
    (length (ofString s) <= bound)%nat
    /\ Forall (fun c => isBreak c = false) (ofString s).

(** The fields of a conversation that the Claude extractor reads from the
    head of the file. *)
Definition headFields (d : DiscoveredConversation) :=
  (cwd d, sessionId d, gitBranch d, cliVersion d,
   firstMessageAt d, firstUserMessage d, modelNames d).

(** The four scalar metadata fields of a conversation. *)
Definition scalarFields (d : DiscoveredConversation) : list (option string) :=
  [sessionId d; cwd d; gitBranch d; cliVersion d].

(** Everything in a conversation but its message count. *)
Definition besidesCount (d : DiscoveredConversation) :=
  (source d, jsonlFile d, headFields d, lastMessageAt d).

(** A directory in normal form. *)
Definition isNormalForm (d : string) : Prop :=
  exists raw, d = normalizePathForMatch raw.

(** What the resolver keeps of its working directories: no duplicates, the
    directories it started from in front, normal forms only. *)
Definition directoriesOk (base wds : list string) : Prop :=
  NoDup wds /\ base `prefix_of` wds /\ Forall isNormalForm wds.

(** Each example list holds the first paths of its class, up to the cap:
    its length is the smaller of [MAX_EXAMPLES] and the class's total. *)
Definition capped (r : BackfillReport) : Prop :=
  length (unmapped_examples r) = Nat.min MAX_EXAMPLES (total_unmapped r)
  /\ length (existing_examples r) = Nat.min MAX_EXAMPLES (total_existing r)
  /\ length (inserted_examples r) = Nat.min MAX_EXAMPLES (total_inserted r).

(** A regular file whose path ends in ".jsonl". *)
Definition jsonlFileOf (rt : Runtime) (f : string) : Prop :=
  fs_statSync rt f = Some false /\ endsWithString f ".jsonl" = true.

Definition isRecordProject (c : StoreCall) : bool :=
  match c with
  | CallRecordProject _ => true
  | _ => false
  end.

Definition isRecordConversation (c : StoreCall) : bool :=
  match c with
  | CallRecordConversation _ => true
  | _ => false
  end.

(** The two calls the lookup loop logs for a conversation it writes. *)
Definition writesFor (rt : Runtime) (item : DiscoveredConversation)
  : list (StoreCall * bool) :=
  match cwd item with
  | Some c => [(CallRecordProject (projectArgs rt c item), true);
               (CallRecordConversation (conversationArgs c item), true)]
  | None => []
  end.

(** A logged call that did not stop the engine: it returned, or it is a
    [recordSession], whose failure the resolver swallows. *)
Definition callOk (e : StoreCall * bool) : Prop :=
  snd e = true \/ isRecordSession (fst e) = true.

(** A computation that throws only when a store call other than
    [recordSession] threw, and then makes no further call. *)
Definition stopsAtFailure {S A} (m : M S A) : Prop :=
  forall w, exists calls,
    w_log (snd (m w)) = w_log w ++ calls
    /\ match fst (m w) with
       | Threw _ => exists before c,
                      calls = before ++ [(c, false)]
                      /\ isRecordSession c = false /\ Forall callOk before
       | _ => Forall callOk calls
       end.

(** A computation that ends: it returns or throws. *)
Definition ends {S A} (m : M S A) : Prop :=
  forall w, fst (m w) <> Hung.







(* ===================================================================== *)
(** * Properties *)
(* ===================================================================== *)

(** ** The path normalizer *)

(** The two cases of the repository's test suite. *)
Example normalizePathForMatch_test_trailing :
  normalizePathForMatch "/home/user/projects/app/" = "/home/user/projects/app".
Proof. reflexivity. Qed.

Example normalizePathForMatch_test_windows :
  normalizePathForMatch "C:\Users\test\repo\" = "c:/Users/test/repo".
Proof. reflexivity. Qed.

Example path_normalize_samples :
  map Path.normalize ["/a/b/../c/./d//"; "a/../.."; "/.."; EmptyString; "./"; "a/b/../../.."; "/a/.../b"]
  = ["/a/c/d/"; ".."; "/"; "."; "./"; ".."; "/a/.../b"].
Proof. reflexivity. Qed.

Example path_join_samples :
  map Path.join [["/home/u"; ".claude"; "projects"]; [EmptyString; EmptyString]; ["a"; "../x.jsonl"]]
  = ["/home/u/.claude/projects"; "."; "x.jsonl"].
Proof. reflexivity. Qed.

Section JsStringFacts.

Lemma ofString_app (a b : string) :
  ofString (a ++ b)%string = ofString a ++ ofString b.
Proof. induction a as [|c a IH]; simpl; [done | by rewrite IH]. Qed.

Lemma ofString_toString (l : chars) : ofString (toString l) = l.
Proof. apply list_ascii_of_string_of_list_ascii. Qed.

Lemma toString_ofString (s : string) : toString (ofString s) = s.
Proof. apply string_of_list_ascii_of_string. Qed.

Lemma ofString_nil (s : string) : ofString s = [] -> s = EmptyString.
Proof. by destruct s. Qed.

Lemma trimStart_snoc (l : chars) (c : ascii) :
  isWhitespace c = false -> trimStart (l ++ [c]) = trimStart l ++ [c].
Proof.
  intros Hc. induction l as [|d l IH]; simpl.
  - by rewrite Hc.
  - destruct (isWhitespace d); [exact IH | done].
Qed.

Lemma trimEnd_snoc (l : chars) (c : ascii) :
  isWhitespace c = false -> trimEnd (l ++ [c]) = l ++ [c].
Proof.
  intros Hc. unfold trimEnd. rewrite rev_app_distr. simpl.
  rewrite Hc. simpl. by rewrite rev_involutive.
Qed.

Lemma trim_snoc (l : chars) (c : ascii) :
  isWhitespace c = false -> trim (l ++ [c]) = trimStart l ++ [c].
Proof.
  intros Hc. unfold trim. rewrite trimStart_snoc by done. by apply trimEnd_snoc.
Qed.

Lemma split_nonempty (sep : ascii) (l : chars) : split sep l <> [].
Proof.
  induction l as [|c l IH]; simpl; [done |].
  destruct (Ascii.eqb c sep); [done |]. by destruct (split sep l).
Qed.

Lemma split_snoc_sep (sep : ascii) (l : chars) :
  split sep (l ++ [sep]) = split sep l ++ [[]].
Proof.
  induction l as [|c l IH]; simpl.
  - by rewrite Ascii.eqb_refl.
  - rewrite IH. destruct (Ascii.eqb c sep); [done |].
    pose proof (split_nonempty sep l). by destruct (split sep l).
Qed.

Lemma split_snoc_other (sep c : ascii) (l : chars) :
  Ascii.eqb c sep = false ->
  exists init s, split sep l = init ++ [s] /\ split sep (l ++ [c]) = init ++ [s ++ [c]].
Proof.
  intros Hc. induction l as [|d l (init & s & Hl & Hlc)]; simpl.
  - rewrite Hc. by exists [], [].
  - rewrite Hl, Hlc. destruct (Ascii.eqb d sep).
    + by exists ([] :: init), s.
    + destruct init as [|i0 init]; simpl.
      * by exists [], (d :: s).
      * by exists ((d :: i0) :: init), s.
Qed.

Lemma split_no_sep (sep : ascii) (l : chars) :
  Forall (fun seg => sep ∉ seg) (split sep l).
Proof.
  induction l as [|c l IH]; simpl.
  - constructor; [apply not_elem_of_nil | constructor].
  - destruct (Ascii.eqb_spec c sep) as [->|Hne].
    + constructor; [apply not_elem_of_nil | done].
    + pose proof (split_nonempty sep l).
      destruct (split sep l) as [|seg rest]; [done |].
      apply Forall_cons in IH as [Hseg Hrest].
      constructor; [|done]. intros Hin.
      apply elem_of_cons in Hin as [Heq|Hin]; [congruence | by apply Hseg].
Qed.

Lemma split_last_endsWith (sep : ascii) (l : chars) (s : chars) :
  last (split sep l) = Some s -> s <> [] -> endsWith l sep = false.
Proof.
  unfold endsWith.
  destruct (last l) as [d|] eqn:Hlast; [|done].
  apply last_Some in Hlast as [l' ->].
  destruct (Ascii.eqb_spec d sep) as [->|Hne]; [|done].
  rewrite split_snoc_sep, last_snoc. by intros [= <-].
Qed.

End JsStringFacts.

Section PathFacts.

Import Path.

Lemma chars_eqb_eq (a b : chars) : chars_eqb a b = true <-> a = b.
Proof. unfold chars_eqb. by rewrite bool_decide_eq_true. Qed.

Lemma chars_eqb_neq (a b : chars) : chars_eqb a b = false <-> a <> b.
Proof. unfold chars_eqb. by rewrite bool_decide_eq_false. Qed.

Lemma normStep_empty (allow : bool) (stack : list chars) :
  normStep allow stack [] = stack.
Proof. done. Qed.

Lemma normStep_plain (allow : bool) (stack : list chars) (s : chars) :
  s <> [] -> s <> dot -> s <> dotdot -> normStep allow stack s = s :: stack.
Proof.
  intros H1 H2 H3. unfold normStep.
  apply chars_eqb_neq in H1, H2, H3. by rewrite H1, H2, H3.
Qed.

Lemma normStep_kept (allow : bool) (stack : list chars) (s : chars) :
  slash ∉ s -> Forall keptSegment stack -> Forall keptSegment (normStep allow stack s).
Proof.
  intros Hs Hst. unfold normStep.
  assert (Hdd : keptSegment dotdot) by (split; done).
  destruct (chars_eqb s []) eqn:E1; simpl; [done |].
  destruct (chars_eqb s dot) eqn:E2; simpl; [done |].
  destruct (chars_eqb s dotdot) eqn:E3.
  - destruct stack as [|top rest].
    + destruct allow; [by constructor | done].
    + pose proof Hst as Hst'. apply Forall_cons in Hst' as [Htop Hrest].
      destruct (chars_eqb top dotdot); [|done].
      destruct allow; [by constructor | done].
  - constructor; [|done]. apply chars_eqb_neq in E1. split; [done |].
    intros Hl. apply last_Some_elem_of in Hl. by apply Hs.
Qed.

Lemma fold_normStep_kept (allow : bool) (segs stack : list chars) :
  Forall (fun seg => slash ∉ seg) segs -> Forall keptSegment stack ->
  Forall keptSegment (fold_left (normStep allow) segs stack).
Proof.
  revert stack. induction segs as [|seg segs IH]; intros stack Hsegs Hst; simpl.
  - done.
  - apply Forall_cons in Hsegs as [Hseg Hsegs].
    apply IH; [done |]. by apply normStep_kept.
Qed.

Lemma join_snoc (sep : chars) (parts : list chars) (s : chars) :
  parts <> [] -> Js.join sep (parts ++ [s]) = Js.join sep parts ++ sep ++ s.
Proof.
  induction parts as [|p parts IH]; [done |]. intros _.
  destruct parts as [|q parts]; [done |].
  change (Js.join sep ((p :: q :: parts) ++ [s]))
    with (p ++ sep ++ Js.join sep ((q :: parts) ++ [s])).
  rewrite IH by done.
  change (Js.join sep (p :: q :: parts)) with (p ++ sep ++ Js.join sep (q :: parts)).
  by rewrite <- !app_assoc.
Qed.

Lemma join_last (sep : chars) (parts : list chars) (s : chars) :
  s <> [] -> last (Js.join sep (parts ++ [s])) = last s.
Proof.
  intros Hs. destruct parts as [|p parts].
  - done.
  - rewrite join_snoc by done. rewrite !last_app.
    destruct (last s) eqn:E; [done |]. by apply last_None in E.
Qed.

Lemma join_snoc_app (sep : chars) (parts : list chars) (a b : chars) :
  Js.join sep (parts ++ [a ++ b]) = Js.join sep (parts ++ [a]) ++ b.
Proof.
  destruct parts as [|p parts]; [done |].
  rewrite !join_snoc by done. by rewrite <- !app_assoc.
Qed.

Lemma join_nil_inv (sep : chars) (parts : list chars) (s : chars) :
  s <> [] -> Js.join sep (parts ++ [s]) <> [].
Proof.
  intros Hs Hj. pose proof (join_last sep parts s Hs) as Hl.
  rewrite Hj in Hl. simpl in Hl. symmetry in Hl. by apply last_None in Hl.
Qed.

(** The normalized core never ends in a separator. *)
Lemma normalizeString_last (p : chars) (allow : bool) :
  last (normalizeString p allow) <> Some slash.
Proof.
  unfold normalizeString.
  pose proof (fold_normStep_kept allow (split slash p) [] (split_no_sep slash p)
                (Forall_nil_2 _)) as Hk.
  destruct (fold_left (normStep allow) (split slash p) []) as [|top rest]; [done |].
  apply Forall_cons in Hk as [[Hne Htop] _].
  simpl. by rewrite join_last.
Qed.

Lemma normalizeString_snoc_slash (p : chars) (allow : bool) :
  normalizeString (p ++ [slash]) allow = normalizeString p allow.
Proof.
  unfold normalizeString. by rewrite split_snoc_sep, fold_left_app.
Qed.

End PathFacts.

Section NormalizerFacts.

Import Path.

Lemma endsWith_snoc (l : chars) (c d : ascii) :
  endsWith (l ++ [c]) d = Ascii.eqb c d.
Proof. unfold endsWith. by rewrite last_snoc. Qed.

Lemma endsWith_false (l : chars) (c : ascii) :
  last l <> Some c -> endsWith l c = false.
Proof.
  unfold endsWith. destruct (last l) as [d|]; [|done].
  destruct (Ascii.eqb_spec d c) as [->|]; [congruence | done].
Qed.

Lemma endsWith_true (l : chars) (c : ascii) :
  endsWith l c = true -> exists l', l = l' ++ [c].
Proof.
  unfold endsWith. destruct (last l) as [d|] eqn:E; [|done].
  destruct (Ascii.eqb_spec d c) as [->|]; [|done].
  intros _. by apply last_Some.
Qed.

Lemma stripTrailing_snoc (c : ascii) (l : chars) :
  l <> [] -> stripTrailing c (l ++ [c]) = l.
Proof.
  intros Hl. unfold stripTrailing, dropLast.
  rewrite endsWith_snoc, Ascii.eqb_refl, andb_true_r.
  destruct (1 <? length (l ++ [c]))%nat eqn:E.
  - apply removelast_last.
  - apply Nat.ltb_ge in E. rewrite length_app in E. simpl in E.
    destruct l; [done | simpl in E; lia].
Qed.

Lemma stripTrailing_id (c : ascii) (l : chars) :
  last l <> Some c -> stripTrailing c l = l.
Proof.
  intros Hl. unfold stripTrailing. rewrite (endsWith_false _ _ Hl).
  by rewrite andb_false_r.
Qed.

Lemma stripTrailing_single (c d : ascii) : stripTrailing c [d] = [d].
Proof. done. Qed.

(** Appending "/" to a non-empty path does not change what is left after
    [path.normalize] and the first strip. *)
Lemma strip_normalize_snoc_slash (t : chars) :
  t <> [] ->
  stripTrailing sep (normalizeChars (t ++ [slash]))
  = stripTrailing sep (normalizeChars t).
Proof.
  intros Ht. destruct t as [|c t]; [done |]. clear Ht.
  unfold normalizeChars. change ((c :: t) ++ [slash]) with (c :: (t ++ [slash])).
  cbv beta iota zeta.
  change (c :: (t ++ [slash])) with ((c :: t) ++ [slash]).
  rewrite normalizeString_snoc_slash, endsWith_snoc.
  change (Ascii.eqb slash slash) with true. cbv iota.
  pose proof (normalizeString_last (c :: t) (negb (Ascii.eqb c slash))) as Hlast.
  destruct (normalizeString (c :: t) (negb (Ascii.eqb c slash))) as [|x core] eqn:Hcore.
  - destruct (Ascii.eqb c slash); [done |].
    by destruct (endsWith (c :: t) slash).
  - set (pre := if Ascii.eqb c slash then [slash] else []).
    assert (Hne : pre ++ x :: core <> []) by (by destruct pre).
    rewrite (app_assoc pre (x :: core) [slash]).
    unfold sep. rewrite stripTrailing_snoc by done.
    destruct (endsWith (c :: t) slash).
    + rewrite (app_assoc pre (x :: core) [slash]). by rewrite stripTrailing_snoc.
    + rewrite app_nil_r. rewrite stripTrailing_id; [done |].
      rewrite last_app.
      destruct (last (x :: core)) eqn:E; [done | by apply last_None in E].
Qed.

End NormalizerFacts.

Section BackslashFacts.

Import Path.

Lemma snoc_backslash_plain (s : chars) :
  s ++ [backslash] <> [] /\ s ++ [backslash] <> dot /\ s ++ [backslash] <> dotdot.
Proof.
  repeat split; intros H; apply (f_equal last) in H;
    rewrite last_snoc in H; discriminate H.
Qed.

Lemma plainComponent_spec (s : chars) :
  plainComponent s = true ->
  s <> [] /\ s <> dot /\ s <> dotdot /\ last s <> Some backslash.
Proof.
  unfold plainComponent. rewrite !andb_true_iff, !negb_true_iff.
  intros [[[H1 H2] H3] H4]. apply chars_eqb_neq in H1, H2, H3.
  repeat split; try done. intros Hl. apply last_Some in Hl as [l' ->].
  by rewrite endsWith_snoc in H4.
Qed.

Lemma last_replaceAll (c d : ascii) (l : chars) :
  last (replaceAll c d l) = (fun x => if Ascii.eqb x c then d else x) <$> last l.
Proof. unfold replaceAll. apply fmap_last. Qed.

(** Appending a backslash to a path that ends in a plain name does not
    change what is left after the second strip. *)
Lemma strip_normalize_snoc_backslash (t : chars) :
  plainComponent (finalComponent t) = true ->
  stripTrailing slash
    (replaceAll backslash slash (stripTrailing sep (normalizeChars (t ++ [backslash]))))
  = stripTrailing slash
      (replaceAll backslash slash (stripTrailing sep (normalizeChars t))).
Proof.
  intros Hplain.
  destruct (split_snoc_other slash backslash t eq_refl) as (init & s & Ht & Htb).
  unfold finalComponent in Hplain. rewrite Ht, last_snoc in Hplain.
  apply plainComponent_spec in Hplain as (Hs1 & Hs2 & Hs3 & Hs4).
  assert (Hslash : last s <> Some slash).
  { intros Hl. apply last_Some_elem_of in Hl.
    pose proof (split_no_sep slash t) as Hall. rewrite Ht in Hall.
    apply Forall_app in Hall as [_ Hall]. apply Forall_cons in Hall as [Hall _].
    by apply Hall. }
  assert (Hends : endsWith t slash = false).
  { apply (split_last_endsWith slash t s); [by rewrite Ht, last_snoc | done]. }
  destruct t as [|c t];
    [simpl in Ht; destruct init as [|i [|j init]]; simpl in Ht; try congruence |].
  destruct (snoc_backslash_plain s) as (Hb1 & Hb2 & Hb3).
  assert (Hcore : forall allow,
    exists parts, normalizeString (c :: t) allow = Js.join [slash] (parts ++ [s]) /\
      normalizeString ((c :: t) ++ [backslash]) allow
      = Js.join [slash] (parts ++ [s]) ++ [backslash]).
  { intros allow. unfold normalizeString. rewrite Ht, Htb, !fold_left_app. simpl.
    rewrite !normStep_plain by done. simpl.
    exists (rev (fold_left (normStep allow) init [])).
    split; [done | apply join_snoc_app]. }
  unfold normalizeChars.
  change ((c :: t) ++ [backslash]) with (c :: (t ++ [backslash])).
  cbv beta iota zeta.
  change (c :: (t ++ [backslash])) with ((c :: t) ++ [backslash]).
  rewrite endsWith_snoc, Hends. change (Ascii.eqb backslash slash) with false.
  destruct (Hcore (negb (Ascii.eqb c slash))) as (parts & -> & ->).
  pose proof (join_nil_inv [slash] parts s Hs1) as Hne.
  pose proof (join_last [slash] parts s Hs1) as Hlast.
  destruct (Js.join [slash] (parts ++ [s])) as [|x core]; [done |].
  change ((x :: core) ++ [backslash]) with (x :: (core ++ [backslash])).
  cbv iota.
  change (x :: (core ++ [backslash])) with ((x :: core) ++ [backslash]).
  set (pre := if Ascii.eqb c slash then [slash] else []).
  rewrite !app_nil_r.
  assert (Hpc : last (pre ++ x :: core) = last s).
  { rewrite last_app, Hlast. destruct (last s) eqn:E; [done | by apply last_None in E]. }
  unfold sep.
  rewrite (stripTrailing_id slash (pre ++ x :: core)) by (by rewrite Hpc).
  rewrite (stripTrailing_id slash (pre ++ (x :: core) ++ [backslash])).
  2:{ rewrite app_assoc, last_snoc. discriminate. }
  rewrite app_assoc. unfold replaceAll at 1. rewrite map_app.
  fold (replaceAll backslash slash (pre ++ x :: core)).
  change (map _ [backslash]) with [slash].
  rewrite stripTrailing_snoc by (by destruct pre).
  rewrite stripTrailing_id; [done |].
  rewrite last_replaceAll, Hpc.
  destruct (last s) as [d|] eqn:E; [|done]. simpl.
  destruct (Ascii.eqb_spec d backslash) as [->|Hd]; [done |].
  congruence.
Qed.

End BackslashFacts.

(** C8 (as stated, refuted).  Appending a trailing separator can change the
    normal form: the empty path becomes the root; a path that ends in white
    space loses it only when no separator follows; on a POSIX host a
    backslash appended to a path that already ends in a separator, or whose
    last component is "..", survives structural normalization and is only
    then turned into "/", of which a single one is stripped. *)
Lemma normalizePathForMatch_trailing_separator_counterexample :
  normalizePathForMatch (EmptyString ++ "/") <> normalizePathForMatch EmptyString
  /\ normalizePathForMatch ("/srv/app " ++ "/") <> normalizePathForMatch "/srv/app "
  /\ normalizePathForMatch ("C:\Users\" ++ "\") <> normalizePathForMatch "C:\Users\"
  /\ normalizePathForMatch ("/srv/app/.." ++ "\") <> normalizePathForMatch "/srv/app/..".
Proof. vm_compute. repeat split; discriminate. Qed.

Example normalizePathForMatch_counterexample_values :
  map normalizePathForMatch
      [EmptyString; "/"; "/srv/app "; "/srv/app /"; "C:\Users\"; "C:\Users\\";
       "/srv/app/.."; "/srv/app/..\"]
  = ["."; "/"; "/srv/app"; "/srv/app "; "c:/Users"; "c:/Users/";
     "/srv"; "/srv/app/.."].
Proof. reflexivity. Qed.

(** C8 (amended).  [normalizePathForMatch] is a total function on strings.
    For every non-empty path [p] that does not end in white space,
    appending "/" does not change its normal form; appending a backslash
    does not change it either when [p], once trimmed, ends in a plain name
    (a last "/"-component that is not empty, not "." or "..", and does not
    itself end in a backslash). *)
Theorem normalizePathForMatch_trailing_separator (p : string) :
  p <> EmptyString ->
  endsWithWhitespace p = false ->
  normalizePathForMatch (p ++ "/") = normalizePathForMatch p
  /\ (endsInPlainName p = true ->
      normalizePathForMatch (p ++ "\") = normalizePathForMatch p).
Proof.
  intros Hp Hws. unfold normalizePathForMatch, normalizePathChars, endsInPlainName.
  rewrite !ofString_app. unfold endsWithWhitespace in Hws.
  destruct (last (ofString p)) as [c|] eqn:Hlast.
  2:{ apply last_None in Hlast. by apply ofString_nil in Hlast. }
  apply last_Some in Hlast as [q Hq]. rewrite Hq.
  change (ofString "/") with [Path.slash].
  change (ofString "\") with [Path.backslash].
  rewrite (trim_snoc (q ++ [c]) Path.slash) by done.
  rewrite (trim_snoc (q ++ [c]) Path.backslash) by done.
  rewrite (trim_snoc q c) by done.
  rewrite (trimStart_snoc q c) by done.
  split.
  - rewrite strip_normalize_snoc_slash; [done | by destruct (trimStart q)].
  - intros Hplain. by rewrite strip_normalize_snoc_backslash.
Qed.

Lemma normalizePathForMatch_trailing_separator_witness :
  normalizePathForMatch ("C:\Users\test\repo" ++ "/")
    = normalizePathForMatch "C:\Users\test\repo"
  /\ normalizePathForMatch ("C:\Users\test\repo" ++ "\")
    = normalizePathForMatch "C:\Users\test\repo".
Proof.
  destruct (normalizePathForMatch_trailing_separator "C:\Users\test\repo")
    as [Hslash Hback]; [discriminate | reflexivity |].
  split; [exact Hslash | apply Hback; reflexivity].
Defined.

(** ** The extractors *)

Example sample_line_text :
  Sample.lineAt050
  = String "{" (String (ascii_of_nat 34) ("timestamp" ++
      String (ascii_of_nat 34) (String ":" (String (ascii_of_nat 34)
        ("1970-01-01T00:00:00.050Z" ++ String (ascii_of_nat 34) "}")))))%string.
Proof. reflexivity. Qed.

Section ExtractorFacts.

Variable JSON_parse : string -> option json.
Variable Date_getTime : option json -> option Z.

Abbreviation lineTs := (lineTimestamp JSON_parse Date_getTime).

Lemma keepMin_le (cur ts : option Z) (m : Z) :
  keepMin cur ts = Some m ->
  (forall c, cur = Some c -> (m <= c)%Z) /\ (forall t, ts = Some t -> (m <= t)%Z).
Proof.
  destruct cur as [c|], ts as [t|]; simpl; try discriminate.
  - destruct (Z.ltb_spec t c); intros [= <-]; split; intros ? [= <-]; lia.
  - intros [= <-]. split; [intros ? [= <-]; lia | discriminate].
  - intros [= <-]. split; [discriminate | intros ? [= <-]; lia].
Qed.

Lemma keepMin_is_Some (cur ts : option Z) :
  is_Some cur \/ is_Some ts -> is_Some (keepMin cur ts).
Proof.
  destruct cur as [c|], ts as [t|]; simpl; intros [[? [=]]|[? [=]]]; eauto.
  all: destruct (t <? c)%Z; eauto.
Qed.

(** The running minimum is below the value it started from and below every
    timestamp folded in. *)
Lemma fold_keepMin_le (tss : list (option Z)) (init : option Z) (m : Z) :
  fold_left keepMin tss init = Some m ->
  (forall c, init = Some c -> (m <= c)%Z)
  /\ (forall t, Some t ∈ tss -> (m <= t)%Z).
Proof.
  revert init. induction tss as [|ts tss IH]; intros init; simpl.
  - intros ->. split; [intros ? [= <-]; lia | intros t Ht; by apply elem_of_nil in Ht].
  - intros Hfold. destruct (IH _ Hfold) as [Hinit Hrest].
    destruct (keepMin init ts) as [k|] eqn:Hk.
    + destruct (keepMin_le _ _ _ Hk) as [Hc Ht]. specialize (Hinit k eq_refl).
      split.
      * intros c Hcur. specialize (Hc c Hcur). lia.
      * intros t Hin. apply elem_of_cons in Hin as [Heq|Hin]; [|by apply Hrest].
        symmetry in Heq. specialize (Ht t Heq). lia.
    + split.
      * intros c ->. destruct (keepMin_is_Some (Some c) ts) as [? Hs]; [left; eauto |].
        congruence.
      * intros t Hin. apply elem_of_cons in Hin as [Heq|Hin]; [|by apply Hrest].
        destruct (keepMin_is_Some init ts) as [? Hs]; [right; rewrite <- Heq; eauto |].
        congruence.
Qed.

Lemma claudeMetaStep_first (st : Extract) (line : string) :
  x_firstMessageAt (claudeMetaStep JSON_parse Date_getTime st line)
  = keepMin (x_firstMessageAt st) (lineTs line).
Proof.
  unfold claudeMetaStep, lineTimestamp.
  destruct (decodeLine JSON_parse line) as [message|]; simpl; [done |].
  by destruct (x_firstMessageAt st).
Qed.

Lemma fold_claudeMetaStep_first (lines : list string) (st : Extract) :
  x_firstMessageAt (fold_left (claudeMetaStep JSON_parse Date_getTime) lines st)
  = fold_left keepMin (map lineTs lines) (x_firstMessageAt st).
Proof.
  revert st. induction lines as [|line lines IH]; intros st; simpl; [done |].
  by rewrite IH, claudeMetaStep_first.
Qed.

(** The backward scan returns the timestamp of the last stamped line among
    those it visits. *)
Lemma firstTimestamp_rev (lines : list string) (l : Z) :
  firstTimestamp JSON_parse Date_getTime (rev lines) = Some l ->
  last (timestampsOf JSON_parse Date_getTime lines) = Some l.
Proof.
  unfold timestampsOf. induction lines as [|line lines IH] using rev_ind; [done |].
  rewrite rev_app_distr. simpl. rewrite omap_app. simpl.
  destruct (lineTs line) as [ts|] eqn:Hts.
  - intros [= <-]. by rewrite last_snoc.
  - rewrite app_nil_r. exact IH.
Qed.

Lemma firstTimestamp_take (n : nat) (visited : list string) (l : Z) :
  firstTimestamp JSON_parse Date_getTime (take n visited) = Some l ->
  firstTimestamp JSON_parse Date_getTime visited = Some l.
Proof.
  revert n. induction visited as [|line visited IH]; intros [|n]; simpl; try done.
  destruct (lineTs line); [done | apply IH].
Qed.

End ExtractorFacts.

Section ExtractorOrder.

Variable JSON_parse : string -> option json.
Variable Date_getTime : option json -> option Z.

Lemma codexStep_bounds (st : Extract) (line : string) :
  x_firstMessageAt (codexStep JSON_parse Date_getTime st line)
  = keepMin (x_firstMessageAt st) (lineTimestamp JSON_parse Date_getTime line)
  /\ x_lastMessageAt (codexStep JSON_parse Date_getTime st line)
  = keepMax (x_lastMessageAt st) (lineTimestamp JSON_parse Date_getTime line).
Proof.
  unfold codexStep, lineTimestamp.
  destruct (decodeLine JSON_parse line) as [event|].
  - repeat (case_match; simpl); done.
  - by destruct (x_firstMessageAt st), (x_lastMessageAt st).
Qed.

Lemma keep_boundsOrdered (first last ts : option Z) :
  boundsOrdered first last -> boundsOrdered (keepMin first ts) (keepMax last ts).
Proof.
  destruct first as [f|], last as [l|], ts as [t|]; simpl; try done; try lia.
  intros Hfl. destruct (Z.ltb_spec t f), (Z.ltb_spec l t); simpl; lia.
Qed.

Lemma fold_codexStep_bounds (lines : list string) (st : Extract) :
  boundsOrdered (x_firstMessageAt st) (x_lastMessageAt st) ->
  boundsOrdered
    (x_firstMessageAt (fold_left (codexStep JSON_parse Date_getTime) lines st))
    (x_lastMessageAt (fold_left (codexStep JSON_parse Date_getTime) lines st)).
Proof.
  revert st. induction lines as [|line lines IH]; intros st Hst; simpl; [done |].
  apply IH. destruct (codexStep_bounds st line) as [-> ->].
  by apply keep_boundsOrdered.
Qed.

Lemma codex_firstBeforeLast (lines : list string) (file : string) :
  firstBeforeLast (extractConversationFromCodexLines JSON_parse Date_getTime lines file).
Proof.
  intros f l. unfold extractConversationFromCodexLines. simpl. intros Hf Hl.
  pose proof (fold_codexStep_bounds lines emptyExtract I) as Hb.
  by rewrite Hf, Hl in Hb.
Qed.

Lemma fold_keepMin_none (tss : list (option Z)) :
  Forall (fun ts => ts = None) tss -> fold_left keepMin tss None = None.
Proof.
  induction tss as [|ts tss IH]; [done |]. intros Hall.
  apply Forall_cons in Hall as [-> Hall]. simpl. by apply IH.
Qed.

Lemma omap_nil_all_none (lines : list string) :
  timestampsOf JSON_parse Date_getTime lines = [] ->
  Forall (fun ts => ts = None) (map (lineTimestamp JSON_parse Date_getTime) lines).
Proof.
  unfold timestampsOf. induction lines as [|line lines IH]; simpl; [constructor |].
  destruct (lineTimestamp JSON_parse Date_getTime line); [done |].
  intros H. constructor; [done | by apply IH].
Qed.

Lemma stamped_in_lines (lines : list string) (t : Z) :
  t ∈ timestampsOf JSON_parse Date_getTime lines ->
  Some t ∈ map (lineTimestamp JSON_parse Date_getTime) lines.
Proof.
  unfold timestampsOf. intros Hin. apply list_elem_of_omap in Hin as (line & Hline & Hts).
  rewrite <- Hts. by apply list_elem_of_fmap_2.
Qed.

Lemma claude_firstBeforeLast (lines : list string) (file : string) :
  (length lines <= 80)%nat \/ chronological JSON_parse Date_getTime lines ->
  firstBeforeLast (extractConversationFromClaudeLines JSON_parse Date_getTime lines file).
Proof.
  intros Hcase f l. unfold extractConversationFromClaudeLines, lastLinesBackward. simpl.
  rewrite fold_claudeMetaStep_first. simpl. intros Hfirst Hlast.
  apply firstTimestamp_take, firstTimestamp_rev in Hlast.
  destruct (fold_keepMin_le _ _ _ Hfirst) as [_ Hmin].
  destruct Hcase as [Hshort|Hsorted].
  - rewrite take_ge in Hmin by done. apply Hmin, stamped_in_lines.
    by apply last_Some_elem_of.
  - unfold chronological in Hsorted.
    assert (Hsplit : timestampsOf JSON_parse Date_getTime lines
                     = timestampsOf JSON_parse Date_getTime (take 80 lines)
                       ++ timestampsOf JSON_parse Date_getTime (drop 80 lines)).
    { unfold timestampsOf. by rewrite <- omap_app, take_drop. }
    destruct (timestampsOf JSON_parse Date_getTime (take 80 lines)) as [|t0 front] eqn:Hfront.
    { apply omap_nil_all_none, fold_keepMin_none in Hfront. congruence. }
    assert (Ht0 : (f <= t0)%Z).
    { apply Hmin, stamped_in_lines. rewrite Hfront. apply elem_of_cons. by left. }
    rewrite Hsplit in Hsorted, Hlast. simpl in Hsorted, Hlast.
    apply Sorted.Sorted_StronglySorted in Hsorted; [|intros ???; lia].
    apply Sorted.StronglySorted_inv in Hsorted as [_ Hall].
    rewrite last_cons in Hlast.
    destruct (last (front ++ _)) as [x|] eqn:Hx.
    + injection Hlast as ->. apply last_Some_elem_of, list_elem_of_In in Hx.
      rewrite List.Forall_forall in Hall. specialize (Hall l Hx). lia.
    + injection Hlast as ->. lia.
Qed.

End ExtractorOrder.

(** C7 (as stated, refuted).  The Claude extractor takes [firstMessageAt]
    from the first 80 lines only and [lastMessageAt] from the last stamped
    line: on 81 lines of which the last is the oldest, first is 100 and
    last is 50. *)
Lemma extractor_first_le_last_counterexample :
  let d := extractConversationFromClaudeLines
             Sample.stampedParse Sample.sampleDate
             Sample.outOfOrderLines "/tmp/claude-session.jsonl" in
  firstMessageAt d = Some 100%Z /\ lastMessageAt d = Some 50%Z
  /\ ~ firstBeforeLast d.
Proof.
  vm_compute. split; [done |]. split; [done |].
  intros H. specialize (H 100%Z 50%Z eq_refl eq_refl). by apply H.
Qed.

(** C7 (amended).  For every list of lines and every path, the conversation
    returned by the Codex extractor has [firstMessageAt <= lastMessageAt]
    when both are present; so has the one returned by the Claude extractor
    when the file has at most 80 lines or when the timestamps of its lines
    are non-decreasing in file order. *)
Theorem extractor_first_le_last
  (JSON_parse : string -> option json) (Date_getTime : option json -> option Z)
  (lines : list string) (file : string) :
  firstBeforeLast (extractConversationFromCodexLines JSON_parse Date_getTime lines file)
  /\ ((length lines <= 80)%nat \/ chronological JSON_parse Date_getTime lines ->
      firstBeforeLast
        (extractConversationFromClaudeLines JSON_parse Date_getTime lines file)).
Proof.
  split; [apply codex_firstBeforeLast | apply claude_firstBeforeLast].
Qed.

Lemma extractor_first_le_last_witness :
  firstBeforeLast
    (extractConversationFromCodexLines Sample.stampedParse Sample.sampleDate
       SampleLines.shuffledLines "/tmp/codex-session.jsonl")
  /\ firstBeforeLast
       (extractConversationFromClaudeLines Sample.stampedParse Sample.sampleDate
          SampleLines.inOrderLines "/tmp/claude-session.jsonl").
Proof.
  split.
  - apply (extractor_first_le_last Sample.stampedParse Sample.sampleDate).
  - apply (extractor_first_le_last Sample.stampedParse Sample.sampleDate).
    right. unfold chronological. vm_compute.
    repeat (constructor; try discriminate).
Defined.

Example extractor_sample_bounds :
  let timesOf d := (firstMessageAt d, lastMessageAt d, messageCount d) in
  timesOf (extractConversationFromCodexLines Sample.stampedParse Sample.sampleDate
             SampleLines.shuffledLines "/tmp/codex-session.jsonl")
  = (Some 50%Z, Some 200%Z, 4%nat)
  /\ timesOf (extractConversationFromClaudeLines Sample.stampedParse Sample.sampleDate
                SampleLines.shuffledLines "/tmp/claude-session.jsonl")
  = (Some 50%Z, Some 200%Z, 4%nat)
  /\ timesOf (extractConversationFromClaudeLines Sample.stampedParse Sample.sampleDate
                SampleLines.inOrderLines "/tmp/claude-session.jsonl")
  = (Some 100%Z, Some 200%Z, 81%nat).
Proof. vm_compute. done. Qed.

(** ** The sample host *)

Example world_discovery :
  option_map (map (fun d => (source d, jsonlFile d, cwd d, messageCount d)))
             (discoverConversations World.host 10 [claude; codex])
  = Some [(claude, World.fileA, Some "/home/u/work/", 2%nat);
          (claude, World.fileB, Some "/elsewhere", 2%nat);
          (codex, World.fileC, Some "/home/u/side", 1%nat)].
Proof. vm_compute. reflexivity. Qed.

Example world_dry_run :
  let run := backfillAgentMemory World.host UpsertStore.ops 10 World.agent
               (World.request (Some true) None) (World.start World.seeded) in
  World.summary (World.reportOf run)
  = (mode_dry_run, false, (3, 2, 1, 1, 1)%nat, [(2, 1, 1, 1, 0)%nat; (1, 1, 0, 0, 1)%nat])
  /\ working_directories (World.reportOf run) = ["/home/u/work"; "/home/u/side"]
  /\ map fst (w_log (snd run))
     = [CallGetProjects; CallGetConversations "/home/u/work"].
Proof. vm_compute. done. Qed.

(** ** Discovery *)

Section DiscoveryFacts.

Variable rt : Runtime.

Lemma extractFor_fields (src : ConversationSource) (lines : list string) (file : string) :
  source (extractFor rt src lines file) = src
  /\ jsonlFile (extractFor rt src lines file) = file
  /\ messageCount (extractFor rt src lines file) = length lines.
Proof. by destruct src. Qed.

(** A file that reads as no non-empty line leaves no trace in the
    discovered list. *)
Lemma discover_skip_blank (before after : list string) (file raw : string)
  (src : ConversationSource) :
  fs_readFileSync rt file = Some raw ->
  nonEmptyLines raw = [] ->
  discoverConversationsFromFiles rt (before ++ file :: after) src
  = discoverConversationsFromFiles rt (before ++ after) src.
Proof.
  intros Hread Hblank. induction before as [|f before IH]; simpl.
  - by rewrite Hread, Hblank.
  - rewrite IH. done.
Qed.

(** Every discovered conversation stands for a readable file with at least
    one non-empty line, and counts those lines. *)
Lemma discover_from_files_counts (files : list string) (src : ConversationSource)
  (d : DiscoveredConversation) :
  d ∈ discoverConversationsFromFiles rt files src ->
  source d = src /\ jsonlFile d ∈ files /\
  exists raw, fs_readFileSync rt (jsonlFile d) = Some raw
              /\ messageCount d = length (nonEmptyLines raw)
              /\ (1 <= messageCount d)%nat.
Proof.
  induction files as [|file files IH]; simpl.
  - intros Hin. by apply elem_of_nil in Hin.
  - destruct (fs_readFileSync rt file) as [raw|] eqn:Hread.
    2:{ intros Hin. destruct (IH Hin) as (? & ? & ?).
        repeat split; [done | by apply elem_of_cons; right | done]. }
    destruct (nonEmptyLines raw) as [|line lines] eqn:Hlines.
    { intros Hin. destruct (IH Hin) as (? & ? & ?).
      repeat split; [done | by apply elem_of_cons; right | done]. }
    intros Hin. apply elem_of_cons in Hin as [->|Hin].
    + destruct (extractFor_fields src (line :: lines) file) as (-> & -> & ->).
      repeat split; [by apply elem_of_cons; left |].
      exists raw. rewrite Hlines. simpl. repeat split; [done | lia].
    + destruct (IH Hin) as (? & ? & ?).
      repeat split; [done | by apply elem_of_cons; right | done].
Qed.

Lemma discoverConversations_inv (fuel : nat) (srcs : list ConversationSource)
  (discoveredAll : list DiscoveredConversation) (d : DiscoveredConversation) :
  discoverConversations rt fuel srcs = Some discoveredAll ->
  d ∈ discoveredAll ->
  exists files root,
    findJsonlFiles rt fuel root = Some files
    /\ d ∈ discoverConversationsFromFiles rt files (source d).
Proof.
  unfold discoverConversations.
  destruct (hasSource srcs claude).
  - destruct (findJsonlFiles rt fuel (Path.join [os_homedir rt; ".claude"; "projects"]))
      as [claudeFiles|] eqn:Hclaude; [|done].
    destruct (hasSource srcs codex).
    + destruct (findJsonlFiles rt fuel (Path.join [os_homedir rt; ".codex"; "sessions"]))
        as [codexFiles|] eqn:Hcodex; [|done].
      intros [= <-] Hin. apply elem_of_app in Hin as [Hin|Hin].
      * pose proof (discover_from_files_counts _ _ _ Hin) as (-> & _). eauto.
      * pose proof (discover_from_files_counts _ _ _ Hin) as (-> & _). eauto.
    + intros [= <-] Hin.
      pose proof (discover_from_files_counts _ _ _ Hin) as (-> & _). eauto.
  - destruct (hasSource srcs codex).
    + destruct (findJsonlFiles rt fuel (Path.join [os_homedir rt; ".codex"; "sessions"]))
        as [codexFiles|] eqn:Hcodex; [|done].
      intros [= <-] Hin. simpl in Hin.
      pose proof (discover_from_files_counts _ _ _ Hin) as (-> & _). eauto.
    + intros [= <-] Hin. by apply elem_of_nil in Hin.
Qed.

End DiscoveryFacts.

(** ** The store monad *)

Section MonadFacts.

Context {S : Type}.

Lemma bind_returned {A B} (m : M S A) (k : A -> M S B) (w w' : World S) (b : B) :
  bind m k w = (Returned b, w') ->
  exists a w1, m w = (Returned a, w1) /\ k a w1 = (Returned b, w').
Proof.
  unfold bind. destruct (m w) as [[a|e|] w1]; [eauto | done | done].
Qed.

Lemma fold_left_invariant {A B} (f : A -> B -> A) (P : A -> Prop)
  (l : list B) (a : A) :
  P a -> (forall a b, P a -> P (f a b)) -> P (fold_left f l a).
Proof.
  intros Ha Hstep. revert a Ha. induction l as [|b l IH]; intros a Ha; simpl; [done |].
  apply IH. by apply Hstep.
Qed.

End MonadFacts.

(** ** Counting *)

Section CountingFacts.

Lemma countSource_snoc (src : ConversationSource)
  (items : list DiscoveredConversation) (d : DiscoveredConversation) :
  countSource src (items ++ [d])
  = (countSource src items + if ConversationSource_eqb (source d) src then 1 else 0)%nat.
Proof.
  unfold countSource. rewrite List.filter_app, length_app. simpl.
  by destruct (ConversationSource_eqb (source d) src).
Qed.

Lemma countSource_cons (src : ConversationSource)
  (items : list DiscoveredConversation) (d : DiscoveredConversation) :
  countSource src (d :: items)
  = ((if ConversationSource_eqb (source d) src then 1 else 0) + countSource src items)%nat.
Proof.
  unfold countSource. simpl. by destruct (ConversationSource_eqb (source d) src).
Qed.

Lemma countSource_total (items : list DiscoveredConversation) :
  (countSource claude items + countSource codex items)%nat = length items.
Proof.
  induction items as [|d items IH]; [done |].
  rewrite !countSource_cons. simpl. destruct (source d); simpl; lia.
Qed.

Lemma pushExample_subset (target : list string) (value x : string) :
  x ∈ pushExample target value -> x ∈ target \/ x = value.
Proof.
  unfold pushExample. destruct (MAX_EXAMPLES <=? length target)%nat; [by left |].
  intros Hin. apply elem_of_app in Hin as [?|Hin]; [by left |].
  apply list_elem_of_singleton in Hin. by right.
Qed.

Lemma pushExample_length (target : list string) (value : string) :
  (length target <= MAX_EXAMPLES)%nat ->
  (length (pushExample target value) <= MAX_EXAMPLES)%nat.
Proof.
  unfold pushExample. intros Hlen.
  destruct (Nat.leb_spec MAX_EXAMPLES (length target)); [done |].
  rewrite length_app. simpl. lia.
Qed.

End CountingFacts.

(** ** The classification loop *)

Section ClassifyFacts.

Lemma fold_left_prefix_invariant {A B} (f : A -> B -> A) (P : list B -> A -> Prop)
  (l : list B) (a : A) :
  P [] a ->
  (forall seen a b, P seen a -> P (seen ++ [b]) (f a b)) ->
  P l (fold_left f l a).
Proof.
  intros Ha Hstep.
  assert (Hgen : forall rest seen a, P seen a -> P (seen ++ rest) (fold_left f rest a)).
  { induction rest as [|b rest IH]; intros seen a' Hseen; simpl.
    - by rewrite app_nil_r.
    - rewrite (cons_middle b), app_assoc. apply IH. by apply Hstep. }
  apply (Hgen l [] a Ha).
Qed.

Lemma fold_countDiscovered (items : list DiscoveredConversation) (r : BackfillReport) :
  let r' := fold_left countDiscovered items r in
  (forall src, discovered (stats r' src)
               = (discovered (stats r src) + countSource src items)%nat)
  /\ besidesDiscovered r' = besidesDiscovered r.
Proof.
  simpl.
  apply (fold_left_prefix_invariant countDiscovered
           (fun seen r' =>
              (forall src, discovered (stats r' src)
                           = (discovered (stats r src) + countSource src seen)%nat)
              /\ besidesDiscovered r' = besidesDiscovered r)).
  - split; [intros src; unfold countSource; simpl; lia | done].
  - intros seen r' d [Hcount Hrest]. split.
    + intros src. rewrite countSource_snoc. specialize (Hcount src).
      unfold countDiscovered. destruct src, (source d); simpl in *; lia.
    + rewrite <- Hrest. unfold countDiscovered. by destruct (source d).
Qed.

Lemma matchedOf_snoc (wds : list string) (items : list DiscoveredConversation)
  (item : DiscoveredConversation) :
  matchedOf wds (items ++ [item])
  = matchedOf wds items ++ match matchedItem wds item with
                           | Some m => [m]
                           | None => []
                           end.
Proof.
  unfold matchedOf. rewrite omap_app. simpl.
  by destruct (matchedItem wds item).
Qed.

Lemma existingOf_nil (E : gset string) : existingOf E [] = [].
Proof. done. Qed.

Lemma insertedOf_nil (E : gset string) : insertedOf E [] = [].
Proof. done. Qed.

End ClassifyFacts.

Section ProgressFacts.

Variables (agentId : string) (request : BackfillRequest).
Variables (activeSessionsSeen : nat) (workingDirectories : list string).
Variable discoveredAll : list DiscoveredConversation.
Variable existingFiles : gset string.

Abbreviation progress :=
  (Progress agentId request activeSessionsSeen workingDirectories
            discoveredAll existingFiles).

Lemma progress_start :
  progress [] []
    (withDiscovered (length discoveredAll)
       (numGt (numOfNat (length discoveredAll)) (requestMaxFiles request))
       (fold_left countDiscovered discoveredAll
          (initialReport agentId request activeSessionsSeen workingDirectories))).
Proof.
  destruct (fold_countDiscovered discoveredAll
              (initialReport agentId request activeSessionsSeen workingDirectories))
    as [Hcount Hrest].
  unfold besidesDiscovered in Hrest. simpl in Hrest.
  injection Hrest as Hsuccess Hagent Hmode Hcap _ Hwds Hseen _ Htm Htu Hte Hti
    Hue Hee Hie Hcl1 Hcl2 Hcl3 Hcl4 Hco1 Hco2 Hco3 Hco4.
  constructor; simpl; try done; try lia.
  all: intros src; specialize (Hcount src); destruct src; simpl in Hcount |- *;
    unfold countSource in *; simpl; lia.
Qed.

Lemma matchStep_progress (seen matchedItems : list DiscoveredConversation)
  (r : BackfillReport) (item : DiscoveredConversation) :
  progress seen [] r /\ matchedItems = matchedOf workingDirectories seen ->
  progress (seen ++ [item]) [] (fst (matchStep workingDirectories (r, matchedItems) item))
  /\ snd (matchStep workingDirectories (r, matchedItems) item)
     = matchedOf workingDirectories (seen ++ [item]).
Proof.
  intros [[Hs Ha Hm Hcap Htr Hd Hses Htd Htm Htu Hte Hti Hdisc Hsm Hsu Hse Hsi] ->].
  rewrite matchedOf_snoc. unfold matchStep, matchedItem.
  destruct (matchedCwd workingDirectories item) as [c|] eqn:Hc; simpl.
  all: split; [|by rewrite ?app_nil_r].
  all: constructor; simpl; try done.
  all: try intros src; rewrite ?matchedOf_snoc; unfold matchedItem; rewrite ?Hc;
    rewrite ?countSource_snoc, ?length_app, ?app_nil_r; simpl;
    try (specialize (Hdisc src); specialize (Hsm src); specialize (Hsu src);
         specialize (Hse src); specialize (Hsi src);
         unfold markMatched, markUnmapped;
         destruct src, (source item); simpl in *);
    lia.
Qed.

Lemma classify_progress :
  let result :=
    classify (requestMaxFiles request) discoveredAll
      (initialReport agentId request activeSessionsSeen workingDirectories) in
  progress (classified (requestMaxFiles request) discoveredAll) [] (fst result)
  /\ snd result
     = matchedOf workingDirectories (classified (requestMaxFiles request) discoveredAll).
Proof.
  simpl. unfold classify.
  pose proof progress_start as Hstart.
  set (r1 := withDiscovered _ _ _) in *.
  assert (Hwds : working_directories r1 = workingDirectories) by (by destruct Hstart).
  rewrite Hwds. fold (classified (requestMaxFiles request) discoveredAll).
  apply (fold_left_prefix_invariant (matchStep workingDirectories)
           (fun seen acc => progress seen [] (fst acc)
                            /\ snd acc = matchedOf workingDirectories seen)).
  - done.
  - intros seen [r matchedItems] item Hacc. by apply matchStep_progress.
Qed.

End ProgressFacts.

(** ** The lookup loop *)

Section InsertLoopFacts.

Context {S : Type}.
Variables (rt : Runtime) (ops : StoreOps S).
Variables (agentId : string) (request : BackfillRequest).
Variables (activeSessionsSeen : nat) (workingDirectories : list string).
Variable discoveredAll : list DiscoveredConversation.
Variable existingFiles : gset string.

Lemma mark_progress (items looked : list DiscoveredConversation)
  (r : BackfillReport) (item : DiscoveredConversation) :
  Progress agentId request activeSessionsSeen workingDirectories discoveredAll
           existingFiles items looked r ->
  Progress agentId request activeSessionsSeen workingDirectories discoveredAll
           existingFiles items (looked ++ [item])
           (if bool_decide (jsonlFile item ∈ existingFiles)
            then markExisting r item else markInserted r item).
Proof.
  intros [Hs Ha Hm Hcap Htr Hd Hses Htd Htm Htu Hte Hti Hdisc Hsm Hsu Hse Hsi].
  destruct (bool_decide (jsonlFile item ∈ existingFiles)) eqn:Hin.
  all: constructor; simpl; try done.
  all: try intros src; unfold existingOf, insertedOf;
    rewrite ?List.filter_app; simpl; rewrite ?Hin; simpl;
    rewrite ?app_nil_r; fold (existingOf existingFiles looked);
    fold (insertedOf existingFiles looked);
    rewrite ?countSource_snoc, ?length_app; simpl;
    try (specialize (Hdisc src); specialize (Hsm src); specialize (Hsu src);
         specialize (Hse src); specialize (Hsi src);
         unfold markExisting, markInserted;
         destruct src, (source item); simpl in *);
    lia.
Qed.

Lemma insertLoop_progress (dry : bool) (items rest looked : list DiscoveredConversation)
  (r r' : BackfillReport) (w w' : World S) :
  Progress agentId request activeSessionsSeen workingDirectories discoveredAll
           existingFiles items looked r ->
  insertLoop rt ops dry existingFiles rest r w = (Returned r', w') ->
  Progress agentId request activeSessionsSeen workingDirectories discoveredAll
           existingFiles items (looked ++ rest) r'.
Proof.
  revert looked r w. induction rest as [|item rest IH]; intros looked r w Hr; simpl.
  - intros [= <- <-]. by rewrite app_nil_r.
  - pose proof (mark_progress items looked r item Hr) as Hmark.
    rewrite (cons_middle item), app_assoc.
    destruct (bool_decide (jsonlFile item ∈ existingFiles)).
    + intros Hrun. by apply (IH _ _ w Hmark).
    + intros Hrun. apply bind_returned in Hrun as (_ & w1 & _ & Hrun).
      by apply (IH _ _ w1 Hmark).
Qed.

End InsertLoopFacts.

(** ** What a returned report says *)

Section EngineFacts.

Context {S : Type}.
Variables (rt : Runtime) (ops : StoreOps S).

(** A run that returns a report went through the four stages, and the
    report is determined by what they produced. *)
Lemma backfill_returned (fuel : nat) (agentId : string) (request : BackfillRequest)
  (w w' : World S) (r : BackfillReport) :
  backfillAgentMemory rt ops fuel agentId request w = (Returned r, w') ->
  exists n wds w1 discoveredAll existingFiles w2,
    fetchWorkingDirectoriesForAgent rt ops agentId (negb (requestDryRun request)) w
      = (Returned (n, wds), w1)
    /\ discoverConversations rt fuel (requestSources request) = Some discoveredAll
    /\ getExistingConversationFiles ops w1 = (Returned existingFiles, w2)
    /\ insertLoop rt ops (requestDryRun request) existingFiles
         (matchedOf wds (classified (requestMaxFiles request) discoveredAll))
         (fst (classify (requestMaxFiles request) discoveredAll
                 (initialReport agentId request n wds))) w2
       = (Returned r, w')
    /\ Describes agentId request n wds discoveredAll existingFiles r.
Proof.
  unfold backfillAgentMemory. intros Hrun.
  apply bind_returned in Hrun as ([n wds] & w1 & Hfetch & Hrun).
  destruct (discoverConversations rt fuel (requestSources request))
    as [discoveredAll|] eqn:Hdiscover; [|done].
  fold (initialReport agentId request n wds) in Hrun.
  destruct (classify_progress agentId request n wds discoveredAll ∅) as [_ Hmatched].
  destruct (classify (requestMaxFiles request) discoveredAll
              (initialReport agentId request n wds)) as [r0 matchedItems] eqn:Hclassify.
  simpl in Hmatched. subst matchedItems.
  apply bind_returned in Hrun as (existingFiles & w2 & Hexisting & Hrun).
  exists n, wds, w1, discoveredAll, existingFiles, w2.
  destruct (classify_progress agentId request n wds discoveredAll existingFiles)
    as [Hprogress _].
  rewrite Hclassify in Hprogress. simpl in Hprogress.
  split; [done |]. split; [done |]. split; [done |]. split; [by rewrite Hclassify |].
  unfold Describes.
  apply (insertLoop_progress rt ops agentId request n wds discoveredAll existingFiles
           (requestDryRun request) _ _ [] r0 r w2 w' Hprogress Hrun).
Qed.

End EngineFacts.

Section ReportArithmetic.

Lemma countSource_split (src : ConversationSource) (E : gset string)
  (items : list DiscoveredConversation) :
  (countSource src (existingOf E items) + countSource src (insertedOf E items))%nat
  = countSource src items.
Proof.
  induction items as [|d items IH]; [done |].
  unfold existingOf, insertedOf in *. simpl.
  destruct (bool_decide (jsonlFile d ∈ E)); simpl;
    rewrite !countSource_cons; lia.
Qed.

Lemma length_split (E : gset string) (items : list DiscoveredConversation) :
  (length (existingOf E items) + length (insertedOf E items))%nat = length items.
Proof.
  induction items as [|d items IH]; [done |].
  unfold existingOf, insertedOf in *. simpl.
  destruct (bool_decide (jsonlFile d ∈ E)); simpl; lia.
Qed.

Lemma numGt_spec (a b : QArith_base.Q) :
  numGt a b = true <-> QArith_base.Qlt b a.
Proof.
  unfold numGt. rewrite negb_true_iff. split.
  - intros H. apply QArith_base.Qnot_le_lt. intros Hle.
    apply QArith_base.Qle_bool_iff in Hle. congruence.
  - intros H. destruct (QArith_base.Qle_bool a b) eqn:E; [|done].
    apply QArith_base.Qle_bool_iff in E.
    exfalso. by apply (QArith_base.Qlt_not_le b a).
Qed.

(** A cap below the number of items cuts the list to its integer part. *)
Lemma sliceEnd_below (n : nat) (q : QArith_base.Q) :
  numGt (numOfNat n) q = true -> (sliceEnd q <= n)%nat /\ (sliceEnd q < n \/ n = 0)%nat.
Proof.
  intros H. apply numGt_spec in H. unfold numOfNat, sliceEnd in *.
  pose proof (Qround.Qfloor_le q) as Hfloor.
  assert (Hlt : (Qround.Qfloor q < Z.of_nat n)%Z).
  { rewrite QArith_base.Zlt_Qlt. eapply QArith_base.Qle_lt_trans; eauto. }
  lia.
Qed.

Lemma classified_length (q : QArith_base.Q) (items : list DiscoveredConversation) :
  (length (classified q items) <= length items)%nat
  /\ (numGt (numOfNat (length items)) q = false -> classified q items = items)
  /\ (numGt (numOfNat (length items)) q = true ->
      classified q items = take (sliceEnd q) items
      /\ length (classified q items) = sliceEnd q).
Proof.
  unfold classified.
  destruct (numGt (numOfNat (length items)) q) eqn:Hgt.
  - destruct (sliceEnd_below _ _ Hgt) as [Hle _].
    rewrite length_take. repeat split; try done; lia.
  - repeat split; try done.
Qed.

End ReportArithmetic.

(** C4.  For every invocation of [backfillAgentMemory] that returns a
    report, [matched = existing + inserted] holds for each source's counters
    and for the totals. *)
Theorem report_matched_existing_inserted {S : Type}
  (rt : Runtime) (ops : StoreOps S) (fuel : nat) (agentId : string)
  (request : BackfillRequest) (w w' : World S) (r : BackfillReport) :
  backfillAgentMemory rt ops fuel agentId request w = (Returned r, w') ->
  (forall src, matched (stats r src)
               = (existing (stats r src) + inserted (stats r src))%nat)
  /\ total_matched r = (total_existing r + total_inserted r)%nat.
Proof.
  intros Hrun.
  apply backfill_returned in Hrun as (n & wds & w1 & discoveredAll & E & w2 & _ & _ & _ & _ & Hd).
  destruct Hd as [_ _ _ _ _ _ _ _ Htm _ Hte Hti _ Hsm _ Hse Hsi].
  split.
  - intros src. rewrite Hsm, Hse, Hsi. symmetry. apply countSource_split.
  - rewrite Htm, Hte, Hti. symmetry. apply length_split.
Qed.

Lemma report_matched_existing_inserted_witness :
  let run := backfillAgentMemory World.host UpsertStore.ops 10 World.agent
               (World.request (Some false) None) (World.start World.seeded) in
  let r := World.reportOf run in
  total_matched r = 2%nat
  /\ (forall src, matched (stats r src)
                  = (existing (stats r src) + inserted (stats r src))%nat)
  /\ total_matched r = (total_existing r + total_inserted r)%nat.
Proof.
  intros run r. split; [vm_compute; reflexivity |].
  apply (report_matched_existing_inserted World.host UpsertStore.ops 10 World.agent
           (World.request (Some false) None) (World.start World.seeded) (snd run) r).
  vm_compute. reflexivity.
Defined.

(** C5.  For every invocation that returns a report: [total_discovered] is
    the number of conversations discovered before truncation and the sum of
    the per-source [discovered] counters; [truncated] says whether that
    number exceeds the cap; when it does, exactly the first items up to the
    cap (its integer part) are classified; so
    [total_matched + total_unmapped <= total_discovered], with equality
    when [truncated = false]. *)
Theorem report_discovered_and_truncation {S : Type}
  (rt : Runtime) (ops : StoreOps S) (fuel : nat) (agentId : string)
  (request : BackfillRequest) (w w' : World S) (r : BackfillReport) :
  backfillAgentMemory rt ops fuel agentId request w = (Returned r, w') ->
  exists discoveredAll,
    discoverConversations rt fuel (requestSources request) = Some discoveredAll
    /\ total_discovered r = length discoveredAll
    /\ total_discovered r
       = (discovered (stats r claude) + discovered (stats r codex))%nat
    /\ truncated r
       = numGt (numOfNat (length discoveredAll)) (requestMaxFiles request)
    /\ max_files_applied r = requestMaxFiles request
    /\ (total_matched r + total_unmapped r)%nat
       = length (classified (requestMaxFiles request) discoveredAll)
    /\ (forall src, (matched (stats r src) + unmapped (stats r src))%nat
                    = countSource src (classified (requestMaxFiles request) discoveredAll))
    /\ (truncated r = true ->
        classified (requestMaxFiles request) discoveredAll
          = take (sliceEnd (requestMaxFiles request)) discoveredAll
        /\ (total_matched r + total_unmapped r)%nat = sliceEnd (requestMaxFiles request))
    /\ (total_matched r + total_unmapped r <= total_discovered r)%nat
    /\ (truncated r = false ->
        (total_matched r + total_unmapped r)%nat = total_discovered r).
Proof.
  intros Hrun.
  apply backfill_returned in Hrun
    as (n & wds & w1 & discoveredAll & E & w2 & _ & Hdiscover & _ & _ & Hd).
  destruct Hd as [_ _ _ Hcap Htr _ _ Htd Htm Htu _ _ Hdisc Hsm Hsu _ _].
  destruct (classified_length (requestMaxFiles request) discoveredAll)
    as (Hle & Hfull & Hcut).
  exists discoveredAll.
  split; [done |]. split; [done |].
  split; [rewrite Htd, !Hdisc; symmetry; apply countSource_total |].
  split; [done |]. split; [done |].
  split; [lia |].
  split; [intros src; specialize (Hsm src); specialize (Hsu src); lia |].
  split; [intros Ht; rewrite Htr in Ht; destruct (Hcut Ht) as [Heq Hlen];
          split; [exact Heq | lia] |].
  split; [lia |].
  intros Hf. rewrite Htr in Hf. rewrite (Hfull Hf) in Htu, Htm. lia.
Qed.

Lemma report_discovered_and_truncation_witness :
  let run := backfillAgentMemory World.host UpsertStore.ops 10 World.agent
               (World.request (Some true) (Some (QArith_base.Qmake 5 2)))
               (World.start World.seeded) in
  let r := World.reportOf run in
  (total_discovered r, truncated r, total_matched r, total_unmapped r)
  = (3, true, 1, 1)%nat
  /\ exists discoveredAll,
       discoverConversations World.host 10 [claude; codex] = Some discoveredAll
       /\ total_discovered r = length discoveredAll
       /\ (total_matched r + total_unmapped r <= total_discovered r)%nat.
Proof.
  intros run r. split; [vm_compute; reflexivity |].
  destruct (report_discovered_and_truncation World.host UpsertStore.ops 10 World.agent
              (World.request (Some true) (Some (QArith_base.Qmake 5 2)))
              (World.start World.seeded) (snd run) r)
    as (discoveredAll & Hdiscover & Htotal & _ & _ & _ & _ & _ & _ & Hle & _).
  { vm_compute. reflexivity. }
  exists discoveredAll. split; [exact Hdiscover |]. split; [exact Htotal | exact Hle].
Defined.

(** C9.  The report, and everything else a run does, is the same whatever
    the request's [force] flag is: [true], [false] or omitted. *)
Theorem force_is_ignored {S : Type}
  (rt : Runtime) (ops : StoreOps S) (fuel : nat) (agentId : string)
  (srcs : option (list ConversationSource)) (dry : option bool)
  (cap : option QArith_base.Q) (force1 force2 : option bool) (w : World S) :
  backfillAgentMemory rt ops fuel agentId (mkRequest srcs dry cap force1) w
  = backfillAgentMemory rt ops fuel agentId (mkRequest srcs dry cap force2) w.
Proof. reflexivity. Qed.

(** ** Runs that only read *)

Section ReadsOnlyFacts.

Context {S : Type}.
Variables (rt : Runtime) (ops : StoreOps S).

Lemma readsOnly_ret {A} (a : A) : readsOnly (S:=S) (ret a).
Proof. intros w. split; [done |]. exists []. by rewrite app_nil_r. Qed.

Lemma readsOnly_hung {A} : readsOnly (S:=S) (A:=A) (fun w => (Hung, w)).
Proof. intros w. split; [done |]. exists []. by rewrite app_nil_r. Qed.

Lemma readsOnly_bind {A B} (m : M S A) (k : A -> M S B) :
  readsOnly m -> (forall a, readsOnly (k a)) -> readsOnly (bind m k).
Proof.
  intros Hm Hk w. unfold bind. destruct (Hm w) as (Hstore & calls & Hlog & Hreads).
  destruct (m w) as [[a|e|] w1]; simpl in *; [|by eauto | by eauto].
  destruct (Hk a w1) as (Hstore2 & calls2 & Hlog2 & Hreads2).
  split; [congruence |]. exists (calls ++ calls2).
  split; [by rewrite Hlog2, Hlog, app_assoc | by apply Forall_app].
Qed.

Lemma readsOnly_doRead {A} (c : StoreCall) (f : S -> Result A) :
  isWrite c = false -> readsOnly (doRead c f).
Proof.
  intros Hc w. unfold doRead.
  destruct (f (w_store w)); simpl; (split; [done |]);
    eexists; (split; [done |]); by repeat constructor.
Qed.

Lemma readsOnly_existingLoop (projects : list string) (acc : gset string) :
  readsOnly (existingLoop ops projects acc).
Proof.
  revert acc. induction projects as [|p projects IH]; intros acc; simpl.
  - apply readsOnly_ret.
  - apply readsOnly_bind; [by apply readsOnly_doRead | intros rows; apply IH].
Qed.

Lemma readsOnly_getExisting : readsOnly (getExistingConversationFiles ops).
Proof.
  apply readsOnly_bind; [by apply readsOnly_doRead |].
  intros projects. apply readsOnly_existingLoop.
Qed.

Lemma readsOnly_sessionLoop (agentId : string) (sessions : list json)
  (seen : nat) (wds : list string) :
  readsOnly (sessionLoop rt ops agentId false sessions seen wds).
Proof.
  revert seen wds. induction sessions as [|session sessions IH]; intros seen wds; simpl.
  - apply readsOnly_ret.
  - destruct session; try apply readsOnly_ret;
      repeat (case_match; try apply readsOnly_ret; try apply IH).
Qed.

Lemma readsOnly_fetch (agentId : string) :
  readsOnly (fetchWorkingDirectoriesForAgent rt ops agentId false).
Proof.
  unfold fetchWorkingDirectoriesForAgent.
  repeat (case_match; try apply readsOnly_ret; try apply readsOnly_sessionLoop).
Qed.

Lemma readsOnly_insertLoop (E : gset string) (items : list DiscoveredConversation)
  (r : BackfillReport) :
  readsOnly (insertLoop rt ops true E items r).
Proof.
  revert r. induction items as [|item items IH]; intros r; simpl.
  - apply readsOnly_ret.
  - case_match; [apply IH |].
    apply readsOnly_bind; [|intros _; apply IH].
    unfold persist. case_match; apply readsOnly_ret.
Qed.

Lemma readsOnly_backfill (fuel : nat) (agentId : string) (request : BackfillRequest) :
  dryRun request = Some true ->
  readsOnly (backfillAgentMemory rt ops fuel agentId request).
Proof.
  intros Hdry. unfold backfillAgentMemory.
  assert (Hreq : requestDryRun request = true) by (unfold requestDryRun; by rewrite Hdry).
  rewrite Hreq. simpl negb.
  apply readsOnly_bind; [apply readsOnly_fetch |].
  intros [n wds]. case_match; [|apply readsOnly_hung].
  case_match. apply readsOnly_bind; [apply readsOnly_getExisting |].
  intros E. apply readsOnly_insertLoop.
Qed.

Lemma readsOnly_newCalls {A} (m : M S A) (w : World S) :
  readsOnly m ->
  w_store (snd (m w)) = w_store w
  /\ Forall (fun e => isWrite (fst e) = false) (newCalls w (snd (m w))).
Proof.
  intros Hm. destruct (Hm w) as (Hstore & calls & Hlog & Hreads).
  split; [done |]. unfold newCalls. by rewrite Hlog, drop_app_length.
Qed.

End ReadsOnlyFacts.

(** C1 (as stated, refuted).  On the sample host, a request that omits
    [dryRun] is run in apply mode: the report says so, and the session, the
    project and the conversation are written. *)
Lemma omitted_dry_run_counterexample :
  let run := backfillAgentMemory World.host UpsertStore.ops 10 World.agent
               (mkRequest None None None None) (World.start World.seeded) in
  mode (World.reportOf run) = mode_apply
  /\ map isWrite (map fst (w_log (snd run))) = [true; false; false; true; true]
  /\ w_store (snd run) <> World.seeded.
Proof.
  vm_compute. split; [done |]. split; [done |]. discriminate.
Qed.

(** C1 (amended).  The engine runs as a dry run exactly when the request's
    [dryRun] is [true]; a request that omits it is run in apply mode.  The
    default is the backfill route's, which passes [body.dryRun !== false]:
    for every request body that does not set [dryRun] to [false], the run
    the route starts reports mode [dry-run] when it returns, calls no store
    write and leaves the store as it was. *)
Theorem dry_run_only_when_requested {S : Type}
  (rt : Runtime) (ops : StoreOps S) (fuel : nat) (agentId : string) (w : World S) :
  (forall request r w',
     backfillAgentMemory rt ops fuel agentId request w = (Returned r, w') ->
     (mode r = mode_dry_run <-> dryRun request = Some true)
     /\ (dryRun request = None -> mode r = mode_apply))
  /\ (forall body,
        body_dryRun body <> Some false ->
        let run := backfillAgentMemory rt ops fuel agentId (routeRequest body) w in
        (forall r, fst run = Returned r -> mode r = mode_dry_run)
        /\ w_store (snd run) = w_store w
        /\ Forall (fun e => isWrite (fst e) = false) (newCalls w (snd run))).
Proof.
  split.
  - intros request r w' Hrun.
    apply backfill_returned in Hrun as (n & wds & w1 & all & E & w2 & _ & _ & _ & _ & Hd).
    destruct Hd as [_ _ Hm _ _ _ _ _ _ _ _ _ _ _ _ _ _]. rewrite Hm.
    unfold requestDryRun. destruct (dryRun request) as [[|]|]; split; try done.
    all: split; intros; done.
  - intros body Hbody. simpl.
    assert (Hdry : dryRun (routeRequest body) = Some true).
    { unfold routeRequest. simpl. by destruct (body_dryRun body) as [[|]|]. }
    split.
    + intros r Hr.
      destruct (backfillAgentMemory rt ops fuel agentId (routeRequest body) w)
        as [out w'] eqn:Hrun.
      simpl in Hr. subst out.
      apply backfill_returned in Hrun
        as (n & wds & w1 & all & E & w2 & _ & _ & _ & _ & Hd).
      destruct Hd as [_ _ Hm _ _ _ _ _ _ _ _ _ _ _ _ _ _]. rewrite Hm.
      unfold requestDryRun. by rewrite Hdry.
    + by apply readsOnly_newCalls, readsOnly_backfill.
Qed.

Lemma dry_run_only_when_requested_witness :
  let omitted := mkBody None None None None in
  let run := backfillAgentMemory World.host UpsertStore.ops 10 World.agent
               (routeRequest omitted) (World.start World.seeded) in
  mode (World.reportOf run) = mode_dry_run
  /\ w_store (snd run) = World.seeded
  /\ mode (World.reportOf
             (backfillAgentMemory World.host UpsertStore.ops 10 World.agent
                (mkRequest None None None None) (World.start World.seeded)))
     = mode_apply.
Proof.
  intros omitted run.
  destruct (dry_run_only_when_requested World.host UpsertStore.ops 10 World.agent
              (World.start World.seeded)) as [Hmode Hroute].
  destruct (Hroute omitted) as (Hdry & Hstore & _); [discriminate |].
  split; [apply Hdry; vm_compute; reflexivity |].
  split; [exact Hstore |].
  set (direct := backfillAgentMemory _ _ _ _ (mkRequest None None None None) _).
  destruct (Hmode (mkRequest None None None None) (World.reportOf direct) (snd direct))
    as [_ Happly]; [vm_compute; reflexivity |].
  by apply Happly.
Defined.

(** ** Store failures *)

Section PropagationFacts.

Context {S : Type}.
Variables (rt : Runtime) (ops : StoreOps S).

Lemma propagates_ret {A} (a : A) : propagates (S:=S) (ret a).
Proof.
  intros w. exists []. split; [by rewrite app_nil_r |].
  intros c Hc. by apply elem_of_nil in Hc.
Qed.

Lemma propagates_hung {A} : propagates (S:=S) (A:=A) (fun w => (Hung, w)).
Proof.
  intros w. exists []. split; [by rewrite app_nil_r |].
  intros c Hc. by apply elem_of_nil in Hc.
Qed.

Lemma propagates_bind {A B} (m : M S A) (k : A -> M S B) :
  propagates m -> (forall a, propagates (k a)) -> propagates (bind m k).
Proof.
  intros Hm Hk w. unfold bind. destruct (Hm w) as (calls & Hlog & Hfail).
  destruct (m w) as [[a|e|] w1]; simpl in *.
  - destruct (Hk a w1) as (calls2 & Hlog2 & Hfail2).
    exists (calls ++ calls2). split; [by rewrite Hlog2, Hlog, app_assoc |].
    intros c Hc Hkind. apply elem_of_app in Hc as [Hc|Hc].
    + destruct (Hfail c Hc Hkind) as [e He]. discriminate He.
    + by apply (Hfail2 c).
  - exists calls. split; [done |]. eauto.
  - exists calls. split; [done |]. intros c Hc Hkind.
    destruct (Hfail c Hc Hkind) as [e He]. discriminate He.
Qed.

Lemma propagates_doRead {A} (c : StoreCall) (f : S -> Result A) :
  propagates (doRead c f).
Proof.
  intros w. unfold doRead. destruct (f (w_store w)) as [a|e]; simpl.
  - exists [(c, true)]. split; [done |]. intros c' Hc.
    apply list_elem_of_singleton in Hc. discriminate Hc.
  - exists [(c, false)]. split; [done |]. eauto.
Qed.

Lemma propagates_doWrite (c : StoreCall) (f : S -> S * option Err) :
  propagates (doWrite c f).
Proof.
  intros w. unfold doWrite. destruct (f (w_store w)) as [s' [e|]]; simpl.
  - exists [(c, false)]. split; [done |]. eauto.
  - exists [(c, true)]. split; [done |]. intros c' Hc.
    apply list_elem_of_singleton in Hc. discriminate Hc.
Qed.

Lemma sessionCallsOnly_propagates {A} (m : M S A) :
  sessionCallsOnly m -> propagates m.
Proof.
  intros Hm w. destruct (Hm w) as (_ & calls & Hlog & Hall).
  exists calls. split; [done |]. intros c Hc Hkind.
  rewrite Forall_forall in Hall. specialize (Hall _ Hc). simpl in Hall. congruence.
Qed.

Lemma sessionCallsOnly_ret {A} (a : A) : sessionCallsOnly (S:=S) (ret a).
Proof.
  intros w. split; [by exists a |]. exists []. by rewrite app_nil_r.
Qed.

(** The guarded [recordSession] call never throws, whatever the store does. *)
Lemma guarded_recordSession (a : SessionArgs) (w : World S) :
  exists ok,
    tryCatch (bind (callRecordSession ops a) (fun _ => ret true)) (ret false) w
    = (Returned ok,
       mkWorld (fst (recordSession ops (w_store w) a))
               (w_log w ++ [(CallRecordSession a, ok)]))
    /\ ok = bool_decide (snd (recordSession ops (w_store w) a) = None).
Proof.
  unfold tryCatch, bind, callRecordSession, doWrite, ret, logged.
  destruct (recordSession ops (w_store w) a) as [s' [e|]]; simpl; eauto.
Qed.

Lemma sessionCallsOnly_sessionLoop (agentId : string) (applyWrites : bool)
  (sessions : list json) (seen : nat) (wds : list string) :
  sessionCallsOnly (sessionLoop rt ops agentId applyWrites sessions seen wds).
Proof.
  revert seen wds. induction sessions as [|session sessions IH]; intros seen wds; simpl.
  - apply sessionCallsOnly_ret.
  - assert (Hstep : forall seen' wds',
      sessionCallsOnly
        (if applyWrites
         then bind (tryCatch (bind (callRecordSession ops (sessionArgs rt agentId session))
                                   (fun _ => ret true)) (ret false))
                   (fun recorded : bool =>
                      if recorded
                      then sessionLoop rt ops agentId applyWrites sessions seen' wds'
                      else ret (seen', wds'))
         else sessionLoop rt ops agentId applyWrites sessions seen' wds')).
    { intros seen' wds'. destruct applyWrites; [|apply IH].
      intros w.
      destruct (guarded_recordSession (sessionArgs rt agentId session) w)
        as (ok & Hguard & _).
      set (w1 := mkWorld _ _) in Hguard.
      set (k := fun recorded : bool =>
                  if recorded
                  then sessionLoop rt ops agentId true sessions seen' wds'
                  else ret (seen', wds')).
      assert (Hbind : bind (tryCatch (bind (callRecordSession ops
                                              (sessionArgs rt agentId session))
                                           (fun _ => ret true)) (ret false)) k w
                      = k ok w1)
        by (unfold bind at 1; by rewrite Hguard).
      rewrite Hbind. subst k w1. destruct ok; cbv beta iota.
      - destruct (IH seen' wds' (mkWorld (fst (recordSession ops (w_store w)
                    (sessionArgs rt agentId session)))
                    (w_log w ++ [(CallRecordSession (sessionArgs rt agentId session), true)])))
          as (Hret & calls & Hlog & Hall).
        split; [done |].
        exists ((CallRecordSession (sessionArgs rt agentId session), true) :: calls).
        split; [rewrite Hlog; simpl; by rewrite <- app_assoc |].
        by constructor.
      - split; [by eexists |].
        exists [(CallRecordSession (sessionArgs rt agentId session), false)].
        split; [done |]. by repeat constructor. }
    destruct session; try apply sessionCallsOnly_ret;
      repeat (case_match; try apply sessionCallsOnly_ret; try apply IH; try apply Hstep).
Qed.

Lemma sessionCallsOnly_fetch (agentId : string) (applyWrites : bool) :
  sessionCallsOnly (fetchWorkingDirectoriesForAgent rt ops agentId applyWrites).
Proof.
  unfold fetchWorkingDirectoriesForAgent.
  repeat (case_match; try apply sessionCallsOnly_ret;
          try apply sessionCallsOnly_sessionLoop).
Qed.

Lemma propagates_existingLoop (projects : list string) (acc : gset string) :
  propagates (existingLoop ops projects acc).
Proof.
  revert acc. induction projects as [|p projects IH]; intros acc; simpl.
  - apply propagates_ret.
  - apply propagates_bind; [apply propagates_doRead | intros rows; apply IH].
Qed.

Lemma propagates_insertLoop (dry : bool) (E : gset string)
  (items : list DiscoveredConversation) (r : BackfillReport) :
  propagates (insertLoop rt ops dry E items r).
Proof.
  revert r. induction items as [|item items IH]; intros r; simpl.
  - apply propagates_ret.
  - case_match; [apply IH |].
    apply propagates_bind; [|intros _; apply IH].
    unfold persist. repeat (case_match; try apply propagates_ret).
    apply propagates_bind; [apply propagates_doWrite |].
    intros _. apply propagates_doWrite.
Qed.

Lemma propagates_backfill (fuel : nat) (agentId : string) (request : BackfillRequest) :
  propagates (backfillAgentMemory rt ops fuel agentId request).
Proof.
  unfold backfillAgentMemory.
  apply propagates_bind; [apply sessionCallsOnly_propagates, sessionCallsOnly_fetch |].
  intros [n wds]. case_match; [|apply propagates_hung].
  case_match. apply propagates_bind.
  - apply propagates_bind; [apply propagates_doRead |].
    intros projects. apply propagates_existingLoop.
  - intros E. apply propagates_insertLoop.
Qed.

End PropagationFacts.

(** C6 (as stated, refuted).  [recordSession] is called inside the
    resolver's [try] block: when it throws, the error is swallowed and the
    engine goes on to return a report. *)
Lemma store_failure_counterexample :
  let run := backfillAgentMemory World.host UpsertStore.opsSessionsDown 10 World.agent
               (World.request (Some false) None) (World.start World.seeded) in
  (exists r, fst run = Returned r /\ success r = true /\ active_sessions_seen r = 1%nat)
  /\ map (fun e => (isRecordSession (fst e), snd e)) (w_log (snd run))
     = [(true, false); (false, true); (false, true); (false, true); (false, true)].
Proof.
  vm_compute. split; [|reflexivity]. eexists. split; [reflexivity |]. done.
Qed.

(** C6 (amended).  In every invocation, a failure of the existing-files
    lookup ([getProjects], [getConversations]) or of a write of the lookup
    loop ([recordProject], [recordConversation]) propagates out of the
    engine as a thrown error: whenever a call other than [recordSession]
    threw during the run, the run threw. *)
Theorem store_failures_propagate {S : Type}
  (rt : Runtime) (ops : StoreOps S) (fuel : nat) (agentId : string)
  (request : BackfillRequest) (w : World S) (c : StoreCall) :
  let run := backfillAgentMemory rt ops fuel agentId request w in
  (c, false) ∈ newCalls w (snd run) ->
  isRecordSession c = false ->
  exists e, fst run = Threw e.
Proof.
  simpl. intros Hc Hkind.
  destruct (propagates_backfill rt ops fuel agentId request w) as (calls & Hlog & Hfail).
  unfold newCalls in Hc. rewrite Hlog, drop_app_length in Hc.
  by apply (Hfail c).
Qed.

Lemma store_failures_propagate_witness :
  exists e,
    fst (backfillAgentMemory World.host UpsertStore.opsReadsDown 10 World.agent
           (World.request (Some true) None) (World.start World.seeded))
    = Threw e.
Proof.
  apply (store_failures_propagate World.host UpsertStore.opsReadsDown 10 World.agent
           (World.request (Some true) None) (World.start World.seeded) CallGetProjects).
  - assert (Hcalls :
      newCalls (World.start World.seeded)
        (snd (backfillAgentMemory World.host UpsertStore.opsReadsDown 10 World.agent
                (World.request (Some true) None) (World.start World.seeded)))
      = [(CallGetProjects, false)]) by (vm_compute; reflexivity).
    rewrite Hcalls. apply list_elem_of_singleton. reflexivity.
  - reflexivity.
Defined.

Example conversation_write_failure_throws :
  let run := backfillAgentMemory World.host UpsertStore.opsConversationsDown 10
               World.agent (World.request (Some false) None)
               (World.start World.seeded) in
  fst run = Threw "conversation relation unavailable"
  /\ map (fun e => (isWrite (fst e), snd e)) (w_log (snd run))
     = [(true, true); (false, true); (false, true); (true, true); (true, false)].
Proof. vm_compute. done. Qed.

(** ** Dry run and apply run *)

Section ModeFacts.

Context {S : Type}.
Variables (rt : Runtime) (ops : StoreOps S).










End ModeFacts.





(** ** Example lists *)

Section ExampleFacts.

Context {S : Type}.
Variables (rt : Runtime) (ops : StoreOps S).

Lemma elem_of_take_elem {A} (n : nat) (l : list A) (x : A) : x ∈ take n l -> x ∈ l.
Proof.
  intros Hin. rewrite <- (take_drop n l). apply elem_of_app. by left.
Qed.

Lemma classified_subset (q : QArith_base.Q) (items : list DiscoveredConversation)
  (d : DiscoveredConversation) :
  d ∈ classified q items -> d ∈ items.
Proof.
  unfold classified. case_match; [apply elem_of_take_elem | done].
Qed.

Lemma matchedOf_origin (wds : list string) (items : list DiscoveredConversation)
  (m : DiscoveredConversation) :
  m ∈ matchedOf wds items ->
  exists item c, item ∈ items /\ matchedCwd wds item = Some c /\ m = withCwd item c.
Proof.
  unfold matchedOf, matchedItem. intros Hin.
  apply list_elem_of_omap in Hin as (item & Hitem & Hm).
  destruct (matchedCwd wds item) as [c|] eqn:Hc; [|done].
  injection Hm as <-. eauto.
Qed.

Lemma fold_left_invariant_in {A B} (f : A -> B -> A) (P : A -> Prop)
  (l : list B) (a : A) :
  P a -> (forall a b, b ∈ l -> P a -> P (f a b)) -> P (fold_left f l a).
Proof.
  revert a. induction l as [|b l IH]; intros a Ha Hstep; simpl; [done |].
  apply IH.
  - apply Hstep; [by apply elem_of_cons; left | done].
  - intros a' b' Hb'. apply Hstep. by apply elem_of_cons; right.
Qed.

Lemma classify_examples (q : QArith_base.Q) (discoveredAll : list DiscoveredConversation)
  (r0 : BackfillReport) (f : string) :
  examples r0 = [] ->
  f ∈ examples (fst (classify q discoveredAll r0)) ->
  f ∈ map jsonlFile discoveredAll.
Proof.
  intros Hempty. unfold classify.
  destruct (fold_countDiscovered discoveredAll r0) as [_ Hrest].
  set (r1 := withDiscovered _ _ _).
  assert (Hr1 : examples r1 = []).
  { unfold examples, r1. simpl. unfold besidesDiscovered in Hrest.
    injection Hrest as _ _ _ _ _ _ _ _ _ _ _ _ -> -> -> _ _ _ _ _ _ _ _.
    exact Hempty. }
  fold (classified q discoveredAll).
  revert f.
  apply (fold_left_invariant_in (matchStep (working_directories r1))
           (fun acc => forall f, f ∈ examples (fst acc) -> f ∈ map jsonlFile discoveredAll)).
  - intros f. simpl. rewrite Hr1. intros Hin. by apply elem_of_nil in Hin.
  - intros [r matchedItems] item Hitem IH f. unfold matchStep.
    apply classified_subset in Hitem.
    destruct (matchedCwd (working_directories r1) item); simpl.
    + apply IH.
    + unfold examples, markUnmapped. simpl. rewrite !elem_of_app.
      intros [Hin|Hin]; [|apply IH; unfold examples; rewrite !elem_of_app; by right].
      apply pushExample_subset in Hin as [Hin| ->].
      * apply IH. unfold examples. rewrite !elem_of_app. by left.
      * by apply (list_elem_of_fmap_2 jsonlFile).
Qed.

Lemma insertLoop_examples (dry : bool) (E : gset string) (files : list string)
  (items : list DiscoveredConversation) (r r' : BackfillReport) (w w' : World S) :
  (forall d, d ∈ items -> jsonlFile d ∈ files) ->
  (forall f, f ∈ examples r -> f ∈ files) ->
  insertLoop rt ops dry E items r w = (Returned r', w') ->
  forall f, f ∈ examples r' -> f ∈ files.
Proof.
  revert r w. induction items as [|item items IH]; intros r w Hitems Hr; simpl.
  - by intros [= <- <-].
  - assert (Hitem : jsonlFile item ∈ files) by (apply Hitems, elem_of_cons; by left).
    assert (Hrest : forall d, d ∈ items -> jsonlFile d ∈ files)
      by (intros d Hd; apply Hitems, elem_of_cons; by right).
    assert (Hmark : forall f,
      f ∈ examples (markExisting r item) \/ f ∈ examples (markInserted r item) ->
      f ∈ files).
    { intros f. unfold examples, markExisting, markInserted. simpl.
      rewrite !elem_of_app. intros Hin.
      assert (Hpush : forall l, f ∈ pushExample l (jsonlFile item) ->
                                f ∈ l \/ f ∈ files).
      { intros l Hl. apply pushExample_subset in Hl as [?| ->]; eauto. }
      destruct Hin as [[?|[Hin|?]]|[?|[?|Hin]]];
        try (apply Hr; unfold examples; rewrite !elem_of_app; by eauto).
      all: destruct (Hpush _ Hin) as [?|?]; [|done];
        apply Hr; unfold examples; rewrite !elem_of_app; by eauto. }
    case_match.
    + apply IH; [done | intros f Hf; apply Hmark; by left].
    + intros Hrun. apply bind_returned in Hrun as (_ & w1 & _ & Hrun).
      revert Hrun. apply IH; [done | intros f Hf; apply Hmark; by right].
Qed.

(** The paths sampled into a returned report are paths of discovered
    conversations. *)
Lemma backfill_examples (fuel : nat) (agentId : string) (request : BackfillRequest)
  (w w' : World S) (r : BackfillReport) (discoveredAll : list DiscoveredConversation) :
  backfillAgentMemory rt ops fuel agentId request w = (Returned r, w') ->
  discoverConversations rt fuel (requestSources request) = Some discoveredAll ->
  forall f, f ∈ examples r -> f ∈ map jsonlFile discoveredAll.
Proof.
  intros Hrun Hdiscover.
  apply backfill_returned in Hrun
    as (n & wds & w1 & all & E & w2 & _ & Hall & _ & Hloop & _).
  rewrite Hdiscover in Hall. injection Hall as <-.
  revert Hloop. apply insertLoop_examples.
  - intros d Hd. apply matchedOf_origin in Hd as (item & c & Hitem & _ & ->).
    simpl. apply (list_elem_of_fmap_2 jsonlFile). by apply classified_subset in Hitem.
  - intros f. by apply classify_examples.
Qed.

End ExampleFacts.

(** C10.  A transcript file that reads as zero non-empty lines (no line
    with [line.trim().length > 0]) is left out of discovery: the discovered
    list is the one obtained without the file, so it enters no counter and
    no example list; and every conversation the engine processes has
    [messageCount >= 1], equal to the number of non-empty lines of its
    file. *)
Theorem blank_transcripts_are_skipped {S : Type} (rt : Runtime) (ops : StoreOps S) :
  (forall before after file raw src,
     fs_readFileSync rt file = Some raw ->
     nonEmptyLines raw = [] ->
     discoverConversationsFromFiles rt (before ++ file :: after) src
     = discoverConversationsFromFiles rt (before ++ after) src)
  /\ (forall fuel agentId request (w w' : World S) r,
        backfillAgentMemory rt ops fuel agentId request w = (Returned r, w') ->
        exists discoveredAll,
          discoverConversations rt fuel (requestSources request) = Some discoveredAll
          /\ total_discovered r = length discoveredAll
          /\ (forall src, discovered (stats r src) = countSource src discoveredAll)
          /\ (forall d, d ∈ discoveredAll ->
                (1 <= messageCount d)%nat
                /\ exists raw, fs_readFileSync rt (jsonlFile d) = Some raw
                               /\ messageCount d = length (nonEmptyLines raw))
          /\ (forall f, f ∈ examples r ->
                exists d, d ∈ discoveredAll /\ jsonlFile d = f)).
Proof.
  split.
  - intros before after file raw src. apply discover_skip_blank.
  - intros fuel agentId request w w' r Hrun.
    pose proof Hrun as Hrun'.
    apply backfill_returned in Hrun
      as (n & wds & w1 & discoveredAll & E & w2 & _ & Hdiscover & _ & _ & Hd).
    exists discoveredAll.
    split; [done |]. split; [by destruct Hd |]. split; [by destruct Hd |]. split.
    + intros d Hin.
      destruct (discoverConversations_inv rt fuel _ _ d Hdiscover Hin)
        as (files & root & _ & Hfrom).
      destruct (discover_from_files_counts rt _ _ _ Hfrom)
        as (_ & _ & raw & Hread & Hcount & Hpos).
      split; [done |]. by exists raw.
    + intros f Hf.
      pose proof (backfill_examples rt ops fuel agentId request w w' r discoveredAll
                    Hrun' Hdiscover f Hf) as Hin.
      apply list_elem_of_fmap in Hin as (d & -> & Hd'). by exists d.
Qed.

Lemma blank_transcripts_are_skipped_witness :
  discoverConversationsFromFiles World.host
    ([World.fileA] ++ World.fileBlank :: [World.fileB]) claude
  = discoverConversationsFromFiles World.host ([World.fileA] ++ [World.fileB]) claude
  /\ exists discoveredAll,
       discoverConversations World.host 10 [claude; codex] = Some discoveredAll
       /\ forall d, d ∈ discoveredAll -> (1 <= messageCount d)%nat.
Proof.
  destruct (blank_transcripts_are_skipped World.host UpsertStore.ops) as [Hskip Hrun].
  split.
  - apply (Hskip [World.fileA] [World.fileB] World.fileBlank
             (World.unlines [EmptyString; "   "; EmptyString]) claude);
      vm_compute; reflexivity.
  - set (run := backfillAgentMemory World.host UpsertStore.ops 10 World.agent
                  (World.request (Some true) None) (World.start World.seeded)).
    destruct (Hrun 10%nat World.agent (World.request (Some true) None)
                (World.start World.seeded) (snd run) (World.reportOf run))
      as (discoveredAll & Hdiscover & _ & _ & Hcount & _).
    { vm_compute. reflexivity. }
    exists discoveredAll. split; [exact Hdiscover |].
    intros d Hd. by destruct (Hcount d Hd).
Defined.

(** ** Transcript paths are never empty *)

Section ScannerFacts.

Variable rt : Runtime.

Lemma normalizeChars_nonempty (p : chars) : Path.normalizeChars p <> [].
Proof.
  unfold Path.normalizeChars. destruct p as [|c p]; [done |].
  cbv zeta.
  destruct (Path.normalizeString (c :: p) (negb (Ascii.eqb c Path.slash)))
    as [|x core].
  - destruct (Ascii.eqb c Path.slash); [done |].
    by destruct (endsWith (c :: p) Path.slash).
  - by destruct (Ascii.eqb c Path.slash).
Qed.

Lemma toString_nonempty (l : chars) : l <> [] -> toString l <> EmptyString.
Proof. by destruct l. Qed.

Lemma path_join_nonempty (parts : list string) : Path.join parts <> EmptyString.
Proof.
  unfold Path.join. case_match; [done |].
  apply toString_nonempty, normalizeChars_nonempty.
Qed.

Lemma scanItems_files (current : string) (items stack files : list string) :
  Forall (fun f => f <> EmptyString) files ->
  Forall (fun f => f <> EmptyString) (snd (scanItems rt current items stack files)).
Proof.
  revert stack files. induction items as [|item items IH]; intros stack files Hfiles;
    simpl; [done |].
  repeat case_match; try by apply IH.
  apply IH. apply Forall_app. split; [done |].
  constructor; [apply path_join_nonempty | done].
Qed.

Lemma walk_files (fuel : nat) (stack files result : list string) :
  Forall (fun f => f <> EmptyString) files ->
  walk rt fuel stack files = Some result ->
  Forall (fun f => f <> EmptyString) result.
Proof.
  revert stack files. induction fuel as [|fuel IH]; intros stack files Hfiles.
  - destruct stack; simpl; [by intros [= <-] | done].
  - destruct stack as [|current stack]; simpl; [by intros [= <-] |].
    destruct (fs_readdirSync rt current) as [items|]; [|by apply IH].
    pose proof (scanItems_files current items stack files Hfiles) as Hscan.
    destruct (scanItems rt current items stack files) as [stack' files'].
    by apply IH.
Qed.

Lemma findJsonlFiles_nonempty (fuel : nat) (root : string) (files : list string) :
  findJsonlFiles rt fuel root = Some files ->
  Forall (fun f => f <> EmptyString) files.
Proof.
  unfold findJsonlFiles. case_match; [by intros [= <-] |].
  by apply walk_files.
Qed.

(** Every discovered conversation has a non-empty transcript path. *)
Lemma discovered_path_nonempty (fuel : nat) (srcs : list ConversationSource)
  (discoveredAll : list DiscoveredConversation) (d : DiscoveredConversation) :
  discoverConversations rt fuel srcs = Some discoveredAll ->
  d ∈ discoveredAll -> jsonlFile d <> EmptyString.
Proof.
  intros Hdiscover Hin.
  destruct (discoverConversations_inv rt fuel srcs _ d Hdiscover Hin)
    as (files & root & Hfiles & Hfrom).
  destruct (discover_from_files_counts rt _ _ _ Hfrom) as (_ & Hfile & _).
  apply findJsonlFiles_nonempty in Hfiles. rewrite Forall_forall in Hfiles.
  by apply Hfiles.
Qed.

Lemma matchedCwd_nonempty (wds : list string) (item : DiscoveredConversation) (c : string) :
  matchedCwd wds item = Some c -> c <> EmptyString /\ c ∈ wds.
Proof.
  unfold matchedCwd. destruct (cwd item) as [raw|]; [|done].
  destruct (truthyStr (Some raw)); [|done].
  destruct (String.eqb_spec (normalizePathForMatch raw) EmptyString) as [|Hne];
    simpl; [done |].
  case_bool_decide; [|done]. by intros [= <-].
Qed.

End ScannerFacts.

(** ** The upsert store *)

#[local] Set Warnings "-clear-no-such-hyp".

Section UpsertFacts.

Import UpsertStore.

Variable rt : Runtime.

Lemma bind_eq {S A B} (m : M S A) (k : A -> M S B) (w w1 : World S) (a : A) :
  m w = (Returned a, w1) -> bind m k w = k a w1.
Proof. unfold bind. by intros ->. Qed.

Lemma listProjects_spec (s : Store) (p : string) :
  p ∈ listProjects s <-> is_Some (projectRows s !! p).
Proof.
  unfold listProjects. rewrite list_elem_of_fmap. split.
  - intros ([k v] & -> & Hin). apply elem_of_map_to_list in Hin. by exists v.
  - intros [v Hv]. exists (p, v). split; [done | by apply elem_of_map_to_list].
Qed.

Lemma listConversations_spec (s : Store) (p k : string) :
  k ∈ listConversations s p
  <-> exists c, conversationRows s !! k = Some c /\ ca_project_path c = p.
Proof.
  unfold listConversations. rewrite list_elem_of_fmap. split.
  - intros ([k' c] & -> & Hin). apply list_elem_of_In, List.filter_In in Hin as [Hin Hp].
    apply list_elem_of_In, elem_of_map_to_list in Hin. simpl in *.
    apply String.eqb_eq in Hp. by exists c.
  - intros (c & Hc & Hp). exists (k, c). split; [done |].
    apply list_elem_of_In, List.filter_In. split.
    + by apply list_elem_of_In, elem_of_map_to_list.
    + simpl. by apply String.eqb_eq.
Qed.

Lemma addRows_spec (acc : gset string) (rows : list string) (k : string) :
  k ∈ addRows acc rows <-> k ∈ acc \/ (k ∈ rows /\ k <> EmptyString).
Proof.
  unfold addRows. revert acc. induction rows as [|row rows IH]; intros acc; simpl.
  - split; [by left | intros [?|[Hin _]]; [done | by apply elem_of_nil in Hin]].
  - rewrite IH. destruct (String.eqb_spec row EmptyString) as [->|Hrow].
    + rewrite elem_of_cons. naive_solver.
    + rewrite elem_of_union, elem_of_singleton, elem_of_cons. naive_solver.
Qed.

Lemma existingLoop_upsert (projects : list string) (acc : gset string)
  (w : World Store) :
  exists E w',
    existingLoop ops projects acc w = (Returned E, w')
    /\ w_store w' = w_store w
    /\ forall k, k ∈ E <->
         k ∈ acc \/ (k <> EmptyString /\ exists p, p ∈ projects
                                                /\ k ∈ listConversations (w_store w) p).
Proof.
  revert acc w. induction projects as [|p projects IH]; intros acc w; simpl.
  - exists acc, w. split; [done |]. split; [done |].
    intros k. split; [by left |]. intros [?|(_ & p & Hp & _)]; [done |].
    by apply elem_of_nil in Hp.
  - set (w1 := logged w (w_store w) (CallGetConversations p) true).
    destruct (IH (addRows acc (listConversations (w_store w) p)) w1)
      as (E & w' & Hrun & Hstore & HE).
    exists E, w'. split; [|split; [done |]].
    + erewrite bind_eq; [exact Hrun | done].
    + intros k. rewrite HE, addRows_spec. simpl.
      setoid_rewrite elem_of_cons. naive_solver.
Qed.

(** On the upsert store the lookup returns exactly the listed transcripts
    and changes nothing. *)
Lemma getExisting_upsert (w : World Store) :
  exists E w',
    getExistingConversationFiles ops w = (Returned E, w')
    /\ w_store w' = w_store w
    /\ forall k, k ∈ E <-> listed (w_store w) k.
Proof.
  unfold getExistingConversationFiles.
  set (w1 := logged w (w_store w) CallGetProjects true).
  destruct (existingLoop_upsert (listProjects (w_store w)) ∅ w1)
    as (E & w' & Hrun & Hstore & HE).
  exists E, w'. split; [|split; [done |]].
  - erewrite bind_eq; [exact Hrun | done].
  - intros k. rewrite HE. unfold listed. simpl. split.
    + intros [Hin|(Hk & p & Hp & Hconv)]; [by apply not_elem_of_empty in Hin |].
      apply listProjects_spec in Hp.
      apply listConversations_spec in Hconv as (c & Hc & <-). eauto.
    + intros (Hk & c & Hc & Hp). right. split; [done |].
      exists (ca_project_path c). split; [by apply listProjects_spec |].
      apply listConversations_spec. eauto.
Qed.

End UpsertFacts.

Section UpsertRunFacts.

Import UpsertStore.

Variable rt : Runtime.

Lemma keepsRows_ret {A} (a : A) : keepsRows (ret a).
Proof. exists a. intros w. by exists w. Qed.

Lemma sessionLoop_upsert (agentId : string) (applyWrites : bool)
  (sessions : list json) (seen : nat) (wds : list string) :
  keepsRows (sessionLoop rt ops agentId applyWrites sessions seen wds).
Proof.
  revert seen wds. induction sessions as [|session sessions IH]; intros seen wds; simpl.
  - apply keepsRows_ret.
  - assert (Hstep : forall seen' wds',
      keepsRows
        (if applyWrites
         then bind (tryCatch (bind (callRecordSession ops (sessionArgs rt agentId session))
                                   (fun _ => ret true)) (ret false))
                   (fun recorded : bool =>
                      if recorded
                      then sessionLoop rt ops agentId applyWrites sessions seen' wds'
                      else ret (seen', wds'))
         else sessionLoop rt ops agentId applyWrites sessions seen' wds')).
    { intros seen' wds'. destruct (IH seen' wds') as [res Hres].
      exists res. intros w. destruct applyWrites; [|apply Hres].
      destruct (guarded_recordSession ops (sessionArgs rt agentId session) w)
        as (ok & Hguard & Hok).
      simpl in Hok. subst ok. erewrite bind_eq by exact Hguard.
      destruct (Hres (mkWorld (fst (recordSession ops (w_store w)
                                      (sessionArgs rt agentId session)))
                        (w_log w ++ [(CallRecordSession (sessionArgs rt agentId session),
                                      true)])))
        as (w' & Hrun & Hp & Hc).
      exists w'. by split. }
    destruct session; try apply keepsRows_ret;
      repeat (case_match; try apply keepsRows_ret; try apply IH; try apply Hstep).
Qed.

Lemma fetch_upsert (agentId : string) (applyWrites : bool) :
  keepsRows (fetchWorkingDirectoriesForAgent rt ops agentId applyWrites).
Proof.
  unfold fetchWorkingDirectoriesForAgent.
  repeat (case_match; try apply keepsRows_ret; try apply sessionLoop_upsert).
Qed.

Lemma listed_rows (s s' : Store) (k : string) :
  projectRows s' = projectRows s -> conversationRows s' = conversationRows s ->
  listed s' k <-> listed s k.
Proof. unfold listed. by intros -> ->. Qed.

(** Writing the project and then the conversation of a matched item lists
    its transcript and unlists nothing. *)
Lemma persist_upsert (item : DiscoveredConversation) (c : string) (w : World Store) :
  cwd item = Some c -> c <> EmptyString -> jsonlFile item <> EmptyString ->
  exists w',
    persist rt ops false item w = (Returned tt, w')
    /\ listed (w_store w') (jsonlFile item)
    /\ forall k, listed (w_store w) k -> listed (w_store w') k.
Proof.
  intros Hcwd Hc Hfile. unfold persist. rewrite Hcwd. simpl.
  destruct (String.eqb_spec c EmptyString) as [|_]; [done |]. simpl.
  eexists. split; [reflexivity |]. simpl. split.
  - split; [done |]. exists (conversationArgs c item). simpl.
    split; [apply lookup_insert_eq |]. eexists. apply lookup_insert_eq.
  - intros k (Hk & conv & Hconv & Hproj). split; [done |].
    destruct (decide (k = jsonlFile item)) as [->|Hne].
    + exists (conversationArgs c item). simpl.
      split; [apply lookup_insert_eq |]. eexists. apply lookup_insert_eq.
    + exists conv. split; [by apply lookup_insert_Some; right |].
      destruct Hproj as [proj Hproj].
      destruct (decide (c = ca_project_path conv)) as [<-|Hp].
      * eexists. apply lookup_insert_eq.
      * exists proj. by apply lookup_insert_Some; right.
Qed.

Lemma insertLoop_upsert (E : gset string) (items : list DiscoveredConversation)
  (r : BackfillReport) (w : World Store) :
  (forall d, d ∈ items ->
     jsonlFile d <> EmptyString /\ exists c, cwd d = Some c /\ c <> EmptyString) ->
  exists r' w',
    insertLoop rt ops false E items r w = (Returned r', w')
    /\ (forall k, listed (w_store w) k -> listed (w_store w') k)
    /\ (forall d, d ∈ items -> jsonlFile d ∉ E -> listed (w_store w') (jsonlFile d)).
Proof.
  revert r w. induction items as [|item items IH]; intros r w Hitems; simpl.
  - exists r, w. split; [done |]. split; [done |].
    intros d Hd. by apply elem_of_nil in Hd.
  - destruct (Hitems item) as (Hfile & c & Hcwd & Hc); [by apply elem_of_cons; left |].
    assert (Hrest : forall d, d ∈ items ->
              jsonlFile d <> EmptyString /\ exists c, cwd d = Some c /\ c <> EmptyString)
      by (intros d Hd; apply Hitems, elem_of_cons; by right).
    case_bool_decide as Hin.
    + destruct (IH (markExisting r item) w Hrest) as (r' & w' & Hrun & Hkeep & Hnew).
      exists r', w'. split; [done |]. split; [done |].
      intros d Hd Hd'. apply elem_of_cons in Hd as [->|Hd]; [done | by apply Hnew].
    + destruct (persist_upsert item c w Hcwd Hc Hfile) as (w1 & Hpersist & Hitem & Hkeep1).
      destruct (IH (markInserted r item) w1 Hrest) as (r' & w' & Hrun & Hkeep & Hnew).
      exists r', w'. split; [by erewrite bind_eq by exact Hpersist |].
      split; [intros k Hk; by apply Hkeep, Hkeep1 |].
      intros d Hd Hd'. apply elem_of_cons in Hd as [->|Hd]; [by apply Hkeep | by apply Hnew].
Qed.

(** When every matched transcript is already in the store, the loop writes
    nothing and inserts nothing. *)
Lemma insertLoop_all_existing (dry : bool) (E : gset string)
  (items : list DiscoveredConversation) (r : BackfillReport) (w : World Store) :
  (forall d, d ∈ items -> jsonlFile d ∈ E) ->
  insertLoop rt ops dry E items r w = (Returned (fold_left markExisting items r), w).
Proof.
  revert r. induction items as [|item items IH]; intros r Hitems; simpl; [done |].
  rewrite bool_decide_eq_true_2 by (apply Hitems, elem_of_cons; by left).
  apply IH. intros d Hd. apply Hitems, elem_of_cons. by right.
Qed.

End UpsertRunFacts.

Section FrameFacts.

Context {S : Type}.
Variables (rt : Runtime) (ops : StoreOps S).

(** The lookup loop leaves the classification part of the report alone. *)
Lemma insertLoop_classification (dry : bool) (E : gset string)
  (items : list DiscoveredConversation) (r r' : BackfillReport) (w w' : World S) :
  insertLoop rt ops dry E items r w = (Returned r', w') ->
  classification r' = classification r.
Proof.
  revert r w. induction items as [|item items IH]; intros r w; simpl.
  - by intros [= <- <-].
  - case_match.
    + intros Hrun. rewrite (IH _ _ Hrun). unfold markExisting.
      by destruct (source item).
    + intros Hrun. apply bind_returned in Hrun as (_ & w1 & _ & Hrun).
      rewrite (IH _ _ Hrun). unfold markInserted. by destruct (source item).
Qed.

End FrameFacts.

Section Idempotence.

Import UpsertStore.

Variable rt : Runtime.

Lemma all_existing (E : gset string) (items : list DiscoveredConversation) :
  (forall d, d ∈ items -> jsonlFile d ∈ E) ->
  insertedOf E items = [] /\ existingOf E items = items.
Proof.
  unfold insertedOf, existingOf.
  induction items as [|item items IH]; intros Hitems; simpl; [done |].
  rewrite bool_decide_eq_true_2 by (apply Hitems, elem_of_cons; by left). simpl.
  destruct IH as [-> ->]; [|done].
  intros d Hd. apply Hitems, elem_of_cons. by right.
Qed.

(** The matched items of a run can be persisted: they have a transcript
    path and a working directory. *)
Lemma matched_items_persistable (fuel : nat) (srcs : list ConversationSource)
  (q : QArith_base.Q) (wds : list string)
  (discoveredAll : list DiscoveredConversation) (d : DiscoveredConversation) :
  discoverConversations rt fuel srcs = Some discoveredAll ->
  d ∈ matchedOf wds (classified q discoveredAll) ->
  jsonlFile d <> EmptyString /\ exists c, cwd d = Some c /\ c <> EmptyString.
Proof.
  intros Hdiscover Hd.
  apply matchedOf_origin in Hd as (item & c & Hitem & Hc & ->). simpl.
  apply classified_subset in Hitem. split.
  - by apply (discovered_path_nonempty rt fuel srcs discoveredAll).
  - exists c. split; [done |]. by apply (matchedCwd_nonempty wds item).
Qed.

End Idempotence.

(** C3.  On the upsert-by-key store, with the filesystem, the registry and
    the live sessions unchanged, a second invocation with [dryRun = false]
    right after a first one that returned a report returns a report with no
    insert, in which every transcript the first run counted as existing or
    as inserted is counted as existing; it leaves the project and the
    conversation rows untouched. *)
Theorem second_run_inserts_nothing
  (rt : Runtime) (fuel : nat) (agentId : string) (request : BackfillRequest)
  (w0 w1 : World UpsertStore.Store) (r1 : BackfillReport) :
  dryRun request = Some false ->
  backfillAgentMemory rt UpsertStore.ops fuel agentId request w0 = (Returned r1, w1) ->
  exists r2 w2,
    backfillAgentMemory rt UpsertStore.ops fuel agentId request w1 = (Returned r2, w2)
    /\ total_inserted r2 = 0%nat
    /\ (forall src, inserted (stats r2 src) = 0%nat)
    /\ total_existing r2 = (total_existing r1 + total_inserted r1)%nat
    /\ (forall src, existing (stats r2 src)
                    = (existing (stats r1 src) + inserted (stats r1 src))%nat)
    /\ classification r2 = classification r1
    /\ UpsertStore.projectRows (w_store w2) = UpsertStore.projectRows (w_store w1)
    /\ UpsertStore.conversationRows (w_store w2)
       = UpsertStore.conversationRows (w_store w1).
Proof.
  intros Hdry Hrun1.
  assert (Hreq : requestDryRun request = false)
    by (unfold requestDryRun; by rewrite Hdry).
  apply backfill_returned in Hrun1
    as (n & wds & w1a & discoveredAll & E1 & w1b & Hfetch1 & Hdiscover & Hex1 & Hloop1 & Hd1).
  rewrite Hreq in Hfetch1, Hloop1. simpl in Hfetch1.
  set (M := matchedOf wds (classified (requestMaxFiles request) discoveredAll)) in *.
  assert (HM : forall d, d ∈ M ->
            jsonlFile d <> EmptyString /\ exists c, cwd d = Some c /\ c <> EmptyString).
  { intros d. by apply (matched_items_persistable rt fuel (requestSources request)). }
  (* the first run lists every matched transcript *)
  destruct (getExisting_upsert w1a) as (E1' & w1b' & Hex1' & Hstore1 & HE1).
  rewrite Hex1 in Hex1'. injection Hex1' as <- <-.
  destruct (insertLoop_upsert rt E1 M
              (fst (classify (requestMaxFiles request) discoveredAll
                      (initialReport agentId request n wds))) w1b HM)
    as (r1' & w1' & Hloop1' & Hkeep & Hnew).
  rewrite Hloop1 in Hloop1'. injection Hloop1' as <- <-.
  assert (Hlisted : forall d, d ∈ M -> UpsertStore.listed (w_store w1) (jsonlFile d)).
  { intros d Hd. destruct (decide (jsonlFile d ∈ E1)) as [Hin|Hout].
    - apply Hkeep. rewrite Hstore1. by apply HE1.
    - by apply Hnew. }
  (* the second run *)
  destruct (fetch_upsert rt agentId true) as (res & Hfetch).
  destruct (Hfetch w0) as (w1a' & Hfetch0 & _).
  rewrite Hfetch1 in Hfetch0. injection Hfetch0 as <- _.
  destruct (Hfetch w1) as (w2a & Hfetch2 & Hproj2 & Hconv2).
  destruct (getExisting_upsert w2a) as (E2 & w2b & Hex2 & Hstore2 & HE2).
  assert (Hall : forall d, d ∈ M -> jsonlFile d ∈ E2).
  { intros d Hd. apply HE2. apply (listed_rows (w_store w1)); [done | done |].
    by apply Hlisted. }
  destruct (classify_progress agentId request n wds discoveredAll E2) as [_ Hmatched].
  simpl in Hmatched. fold M in Hmatched.
  assert (Hrun2 :
    backfillAgentMemory rt UpsertStore.ops fuel agentId request w1
    = (Returned (fold_left markExisting M
                   (fst (classify (requestMaxFiles request) discoveredAll
                           (initialReport agentId request n wds)))), w2b)).
  { unfold backfillAgentMemory. cbv zeta.
    replace (negb (requestDryRun request)) with true by (by rewrite Hreq).
    erewrite bind_eq by exact Hfetch2. cbv beta iota. rewrite Hdiscover.
    fold (initialReport agentId request n wds).
    destruct (classify (requestMaxFiles request) discoveredAll
                (initialReport agentId request n wds)) as [r0 M'].
    simpl in Hmatched. subst M'. rewrite Hreq.
    erewrite bind_eq by exact Hex2. simpl.
    by apply insertLoop_all_existing. }
  eexists _, w2b. split; [exact Hrun2 |].
  pose proof Hrun2 as Hrun2'.
  apply backfill_returned in Hrun2'
    as (n' & wds' & w2a' & all' & E2' & w2b' & Hf & Hdisc' & Hex' & _ & Hd2).
  rewrite Hreq in Hf. simpl in Hf. rewrite Hfetch2 in Hf. injection Hf as <- <- <-.
  rewrite Hdiscover in Hdisc'. injection Hdisc' as <-.
  rewrite Hex2 in Hex'. injection Hex' as <- <-.
  unfold Describes in Hd1, Hd2. fold M in Hd1, Hd2.
  destruct (all_existing E2 M Hall) as [Hins Hexi].
  destruct Hd1 as [Hs1 Ha1 Hm1 Hcap1 Htr1 Hwd1 Hses1 Htd1 Htm1 Htu1 Hte1 Hti1
                   Hdisc1 Hsm1 Hsu1 Hse1 Hsi1].
  destruct Hd2 as [Hs2 Ha2 Hm2 Hcap2 Htr2 Hwd2 Hses2 Htd2 Htm2 Htu2 Hte2 Hti2
                   Hdisc2 Hsm2 Hsu2 Hse2 Hsi2].
  rewrite Hins in Hti2, Hsi2. rewrite Hexi in Hte2, Hse2.
  split; [done |]. split; [done |].
  split; [rewrite Hte2, Hte1, Hti1; symmetry; apply length_split |].
  split; [intros src; rewrite Hse2, Hse1, Hsi1; symmetry; apply countSource_split |].
  split; [|split; [by rewrite Hstore2 | by rewrite Hstore2]].
  rewrite (insertLoop_classification rt UpsertStore.ops _ _ _ _ _ _ _ Hloop1).
  apply (insertLoop_classification rt UpsertStore.ops false E2 M _ _ w2b w2b).
  by apply insertLoop_all_existing.
Qed.

Lemma second_run_inserts_nothing_witness :
  let request := World.request (Some false) None in
  let run1 := backfillAgentMemory World.host UpsertStore.ops 10 World.agent request
                (World.start World.seeded) in
  total_inserted (World.reportOf run1) = 1%nat
  /\ exists r2 w2,
       backfillAgentMemory World.host UpsertStore.ops 10 World.agent request (snd run1)
       = (Returned r2, w2)
       /\ total_inserted r2 = 0%nat
       /\ total_existing r2
          = (total_existing (World.reportOf run1)
             + total_inserted (World.reportOf run1))%nat.
Proof.
  intros request run1. split; [vm_compute; reflexivity |].
  destruct (second_run_inserts_nothing World.host 10 World.agent request
              (World.start World.seeded) (snd run1) (World.reportOf run1))
    as (r2 & w2 & Hrun2 & Hinserted & _ & Hexisting & _).
  { reflexivity. }
  { vm_compute. reflexivity. }
  exists r2, w2. split; [exact Hrun2 |]. split; [exact Hinserted | exact Hexisting].
Defined.

Example two_apply_runs :
  let request := World.request (Some false) None in
  let run1 := backfillAgentMemory World.host UpsertStore.ops 10 World.agent request
                (World.start World.seeded) in
  let run2 := backfillAgentMemory World.host UpsertStore.ops 10 World.agent request
                (snd run1) in
  World.summary (World.reportOf run1)
  = (mode_apply, false, (3, 2, 1, 1, 1)%nat, [(2, 1, 1, 1, 0)%nat; (1, 1, 0, 0, 1)%nat])
  /\ World.summary (World.reportOf run2)
  = (mode_apply, false, (3, 2, 1, 2, 0)%nat, [(2, 1, 1, 1, 0)%nat; (1, 1, 0, 1, 0)%nat]).
Proof. vm_compute. done. Qed.

(* ===================================================================== *)
(** * Further properties of the code *)
(* ===================================================================== *)

(** ** Path normalizer: shape of the normal form *)

Section NormalFormFacts.

Lemma letter_lowerChar (d : ascii) :
  isUpper d || isLower d = true ->
  isUpper (lowerChar d) = false /\ lowerChar d <> Path.backslash
  /\ isLower (lowerChar d) = true.
Proof.
  destruct d as [[] [] [] [] [] [] [] []]; vm_compute; intros H;
    try discriminate H; repeat split; discriminate.
Qed.

Lemma elem_of_removelast {A} (l : list A) (x : A) : x ∈ removelast l -> x ∈ l.
Proof.
  destruct (last l) as [y|] eqn:Hlast.
  - apply last_Some in Hlast as [l' ->]. rewrite removelast_last.
    intros Hin. apply elem_of_app. by left.
  - apply last_None in Hlast. by subst.
Qed.

Lemma elem_of_stripTrailing (c x : ascii) (l : chars) :
  x ∈ stripTrailing c l -> x ∈ l.
Proof.
  unfold stripTrailing, dropLast. case_match; [apply elem_of_removelast | done].
Qed.

Lemma stripTrailing_nonempty (c : ascii) (l : chars) :
  l <> [] -> stripTrailing c l <> [].
Proof.
  unfold stripTrailing, dropLast. intros Hl.
  destruct ((1 <? length l)%nat && endsWith l c) eqn:Hcond; [|done].
  apply andb_true_iff in Hcond as [Hlen _]. apply Nat.ltb_lt in Hlen.
  destruct l as [|a [|b l]]; [done | simpl in Hlen; lia | discriminate].
Qed.

Lemma lowerDrive_elem (l : chars) (x : ascii) :
  x ∈ lowerDrive l ->
  x ∈ l \/ exists d, isUpper d || isLower d = true /\ x = lowerChar d.
Proof.
  unfold lowerDrive. destruct l as [|d [|c [|s rest]]]; try by left.
  destruct ((isUpper d || isLower d) && Ascii.eqb c ":"%char && Ascii.eqb s Path.slash)
    eqn:Hcond; [|by left].
  apply andb_true_iff in Hcond as [Hcond _]. apply andb_true_iff in Hcond as [Hd Hc].
  apply Ascii.eqb_eq in Hc as ->.
  rewrite !elem_of_cons. intros [->|Hin]; [right; eauto | left; by right].
Qed.

(** X1.  The normal form uses forward slashes only. *)
Theorem normalizePathForMatch_no_backslash (p : string) :
  Path.backslash ∉ ofString (normalizePathForMatch p).
Proof.
  unfold normalizePathForMatch. rewrite ofString_toString. unfold normalizePathChars.
  intros Hin. apply lowerDrive_elem in Hin as [Hin|(d & Hd & Heq)].
  - apply elem_of_stripTrailing in Hin. unfold replaceAll in Hin.
    apply list_elem_of_fmap in Hin as (y & Hy & _).
    destruct (Ascii.eqb y Path.backslash) eqn:E; [discriminate Hy |].
    rewrite <- Hy in E. by rewrite Ascii.eqb_refl in E.
  - destruct (letter_lowerChar d Hd) as (_ & Hne & _). congruence.
Qed.

Lemma normalizePath_nonempty (p : string) :
  normalizePathForMatch p <> EmptyString.
Proof.
  unfold normalizePathForMatch. apply toString_nonempty. unfold normalizePathChars.
  assert (Hl : stripTrailing Path.slash
                 (replaceAll Path.backslash Path.slash
                    (stripTrailing Path.sep (Path.normalizeChars (trim (ofString p)))))
               <> []).
  { apply stripTrailing_nonempty. unfold replaceAll. intros Hmap.
    apply fmap_nil_inv in Hmap.
    revert Hmap. apply stripTrailing_nonempty, normalizeChars_nonempty. }
  unfold lowerDrive. repeat case_match; try done; by subst.
Qed.

(** X2.  The normal form is never the empty string; in particular a
    working directory in normal form is never empty. *)
Theorem normalizePathForMatch_nonempty (p : string) :
  normalizePathForMatch p <> EmptyString
  /\ ofString (normalizePathForMatch p) <> [].
Proof.
  split; [apply normalizePath_nonempty |].
  intros Hnil. apply ofString_nil in Hnil. by apply (normalizePath_nonempty p).
Qed.

(** X3.  A drive prefix of the normal form is in lower case: the normal
    form never starts with an upper-case letter followed by ":/". *)
Theorem normalizePathForMatch_drive_lower (p : string) (d : ascii) (rest : chars) :
  ofString (normalizePathForMatch p) = d :: ":"%char :: Path.slash :: rest ->
  isUpper d = false.
Proof.
  unfold normalizePathForMatch. rewrite ofString_toString. unfold normalizePathChars.
  set (l := stripTrailing Path.slash _). unfold lowerDrive.
  destruct l as [|d0 [|c [|s rest0]]]; try discriminate.
  destruct (isUpper d0 || isLower d0) eqn:Hletter; simpl.
  - destruct (Ascii.eqb c ":"%char && Ascii.eqb s Path.slash) eqn:Hcond.
    + intros [= <- _ _]. by destruct (letter_lowerChar d0 Hletter).
    + intros [= -> -> -> _]. discriminate Hcond.
  - intros [= <- _ _ _]. by apply orb_false_iff in Hletter as [? _].
Qed.

Lemma normalizePathForMatch_drive_lower_witness :
  isUpper "c"%char = false.
Proof.
  apply (normalizePathForMatch_drive_lower "C:\Users\test\repo\" "c"%char
           (ofString "Users/test/repo")).
  reflexivity.
Defined.

End NormalFormFacts.

(** ** Previews and model labels *)

Section PreviewFacts.

Lemma collapseBreaks_clean (inRun : bool) (l : chars) :
  Forall (fun c => isBreak c = false) (collapseBreaks inRun l).
Proof.
  revert inRun. induction l as [|c l IH]; intros inRun; simpl; [constructor |].
  destruct (isBreak c) eqn:Hc.
  - destruct inRun; [apply IH | constructor; [done | apply IH]].
  - constructor; [done | apply IH].
Qed.

Lemma trimStart_suffix (l : chars) : exists pre, l = pre ++ trimStart l.
Proof.
  induction l as [|c l [pre IH]]; simpl; [by exists [] |].
  destruct (isWhitespace c); [|by exists []].
  exists (c :: pre). simpl. by rewrite <- IH.
Qed.

Lemma Forall_trim (P : ascii -> Prop) (l : chars) : Forall P l -> Forall P (trim l).
Proof.
  intros Hl. unfold trim, trimEnd.
  assert (Hstart : forall l', Forall P l' -> Forall P (trimStart l')).
  { intros l' Hl'. destruct (trimStart_suffix l') as [pre Hpre].
    rewrite Hpre in Hl'. by apply Forall_app in Hl' as [_ ?]. }
  apply Forall_rev, Hstart, Forall_rev, Hstart, Hl.
Qed.

Lemma trimStart_head (l : chars) (c : ascii) (rest : chars) :
  trimStart l = c :: rest -> isWhitespace c = false.
Proof.
  induction l as [|d l IH]; simpl; [done |].
  destruct (isWhitespace d) eqn:Hd; [exact IH | by intros [= <- _]].
Qed.

Lemma truncateText_shape (raw : option string) (maxLength : nat) (s : string) :
  truncateText raw maxLength = Some s ->
  (length (ofString s) <= maxLength)%nat
  /\ Forall (fun c => isBreak c = false) (ofString s)
  /\ ((0 < maxLength)%nat ->
      exists c rest, ofString s = c :: rest /\ isWhitespace c = false).
Proof.
  unfold truncateText. destruct raw as [r|]; [|done].
  destruct (String.eqb r EmptyString); [done |].
  pose proof (Forall_trim _ _ (collapseBreaks_clean false (ofString r))) as Hclean.
  destruct (trim (collapseBreaks false (ofString r))) as [|c normalized] eqn:Hnorm; [done |].
  assert (Hhead : isWhitespace c = false).
  { unfold trim, trimEnd in Hnorm.
    destruct (trimStart_suffix (rev (trimStart (collapseBreaks false (ofString r)))))
      as [pre Hpre].
    apply (f_equal (@rev ascii)) in Hpre. rewrite rev_involutive, rev_app_distr in Hpre.
    rewrite Hnorm in Hpre. apply (trimStart_head (collapseBreaks false (ofString r)) c
                                    (normalized ++ rev pre)).
    by rewrite Hpre. }
  destruct (maxLength <? length (c :: normalized))%nat eqn:Hlt;
    intros [= <-].
  - rewrite ofString_toString. apply Nat.ltb_lt in Hlt.
    split; [rewrite length_take; lia |]. split; [by apply Forall_take |].
    intros Hpos. destruct maxLength as [|m]; [lia |]. simpl. eauto.
  - change (String c (toString normalized)) with (toString (c :: normalized)).
    rewrite ofString_toString. apply Nat.ltb_ge in Hlt.
    split; [done |]. split; [done |]. eauto.
Qed.

(** X4.  A preview returned by [truncateText] has at most [maxLength] code
    units, contains no LF, CR or TAB, and for a positive [maxLength] is not
    empty and does not start with white space. *)
Theorem truncateText_bounded (raw : option string) (maxLength : nat) (s : string) :
  truncateText raw maxLength = Some s ->
  (length (ofString s) <= maxLength)%nat
  /\ Forall (fun c => isBreak c = false) (ofString s)
  /\ ((0 < maxLength)%nat ->
      exists c rest, ofString s = c :: rest /\ isWhitespace c = false).
Proof. apply truncateText_shape. Qed.

Lemma truncateText_bounded_witness :
  (length (ofString "Plan the migration now") <= 100)%nat.
Proof.
  apply (truncateText_bounded
           (Some (String (ascii_of_nat 10) "  Plan the migration" ++
                  String (ascii_of_nat 13) (String (ascii_of_nat 10) "now  "))%string)
           100 "Plan the migration now").
  reflexivity.
Defined.

(** X5.  [toDisplayModel] maps a model name to one of the three labels or
    leaves it as it is, and mapping a second time changes nothing. *)
Theorem toDisplayModel_idempotent (model : string) :
  (toDisplayModel model = "Sonnet 4.5" \/ toDisplayModel model = "Haiku 4.5"
   \/ toDisplayModel model = "Opus 4.5" \/ toDisplayModel model = model)
  /\ toDisplayModel (toDisplayModel model) = toDisplayModel model.
Proof.
  unfold toDisplayModel.
  destruct (includes (toLowerCase (ofString model)) (ofString "sonnet")) eqn:Hs;
    [split; [by left | reflexivity] |].
  destruct (includes (toLowerCase (ofString model)) (ofString "haiku")) eqn:Hh;
    [split; [by right; left | reflexivity] |].
  destruct (includes (toLowerCase (ofString model)) (ofString "opus")) eqn:Ho;
    [split; [by right; right; left | reflexivity] |].
  split; [by right; right; right |].
  by rewrite Hs, Hh, Ho.
Qed.

End PreviewFacts.

(** ** Extractors: previews, windows, tolerance *)

Section ExtractorExtras.

Variable JSON_parse : string -> option json.
Variable Date_getTime : option json -> option Z.

Lemma truncateText_preview (raw : option string) :
  previewWithin 100 (truncateText raw 100).
Proof.
  intros s Hs. destruct (truncateText_shape raw 100 s Hs) as (Hlen & Hclean & _).
  by split.
Qed.

Lemma previewWithin_none : previewWithin 100 None.
Proof. by intros s. Qed.

Local Opaque truncateText.

Lemma parseUserContent_preview (payload : option json) :
  previewWithin 100 (parseUserContent payload).
Proof.
  unfold parseUserContent.
  repeat (case_match; try apply previewWithin_none; try apply truncateText_preview).
Qed.

Lemma claudeMetaStep_preview (st : Extract) (line : string) :
  previewWithin 100 (x_firstUserMessage st) ->
  previewWithin 100 (x_firstUserMessage (claudeMetaStep JSON_parse Date_getTime st line)).
Proof.
  intros Hst. unfold claudeMetaStep.
  destruct (decodeLine JSON_parse line) as [message|]; [|done]. simpl.
  repeat (case_match; try done; try apply truncateText_preview).
Qed.

Lemma codexStep_preview (st : Extract) (line : string) :
  previewWithin 100 (x_firstUserMessage st) ->
  previewWithin 100 (x_firstUserMessage (codexStep JSON_parse Date_getTime st line)).
Proof.
  intros Hst. unfold codexStep.
  destruct (decodeLine JSON_parse line) as [event|]; [|done].
  repeat (case_match; simpl; try done; try apply truncateText_preview;
          try apply parseUserContent_preview).
Qed.

Local Transparent truncateText.

(** X6.  The message preview of an extracted conversation, from either
    extractor, has at most 100 code units and contains no LF, CR or TAB. *)
Theorem extractor_preview_bounded (lines : list string) (file : string) :
  previewWithin 100
    (firstUserMessage (extractConversationFromClaudeLines JSON_parse Date_getTime lines file))
  /\ previewWithin 100
       (firstUserMessage (extractConversationFromCodexLines JSON_parse Date_getTime lines file)).
Proof.
  split; simpl.
  - apply (fold_left_invariant (claudeMetaStep JSON_parse Date_getTime)
             (fun st => previewWithin 100 (x_firstUserMessage st))).
    + apply previewWithin_none.
    + intros st line. apply claudeMetaStep_preview.
  - apply (fold_left_invariant (codexStep JSON_parse Date_getTime)
             (fun st => previewWithin 100 (x_firstUserMessage st))).
    + apply previewWithin_none.
    + intros st line. apply codexStep_preview.
Qed.

End ExtractorExtras.

Section ExtractorWindows.

Variable JSON_parse : string -> option json.
Variable Date_getTime : option json -> option Z.

Abbreviation claudeOf := (extractConversationFromClaudeLines JSON_parse Date_getTime).
Abbreviation codexOf := (extractConversationFromCodexLines JSON_parse Date_getTime).

(** X7.  The Claude extractor reads its metadata from the first 80 lines
    only and [lastMessageAt] from the last 50 lines only: lines appended
    after the first 80 change none of the head fields, and lines put in
    front of the last 50 do not change [lastMessageAt]. *)
Theorem claude_bounded_windows (lines more : list string) (file : string) :
  ((80 <= length lines)%nat ->
   headFields (claudeOf (lines ++ more) file) = headFields (claudeOf lines file))
  /\ ((50 <= length lines)%nat ->
      lastMessageAt (claudeOf (more ++ lines) file) = lastMessageAt (claudeOf lines file)).
Proof.
  split; intros Hlen.
  - unfold headFields, extractConversationFromClaudeLines. simpl.
    by rewrite take_app_le.
  - unfold extractConversationFromClaudeLines, lastLinesBackward. simpl.
    rewrite rev_app_distr, take_app_le; [done |]. by rewrite length_rev.
Qed.

Lemma firstString_keeps (cur : option string) (v : option json) :
  truthyStr cur = true -> firstString cur v = cur.
Proof. unfold firstString. by intros ->. Qed.

Lemma claudeMetaStep_scalars (st : Extract) (line : string) :
  let st' := claudeMetaStep JSON_parse Date_getTime st line in
  (truthyStr (x_sessionId st) = true -> x_sessionId st' = x_sessionId st)
  /\ (truthyStr (x_cwd st) = true -> x_cwd st' = x_cwd st)
  /\ (truthyStr (x_gitBranch st) = true -> x_gitBranch st' = x_gitBranch st)
  /\ (truthyStr (x_cliVersion st) = true -> x_cliVersion st' = x_cliVersion st).
Proof.
  unfold claudeMetaStep. destruct (decodeLine JSON_parse line); [|done]. simpl.
  repeat split; apply firstString_keeps.
Qed.

Lemma codexStep_scalars (st : Extract) (line : string) :
  let st' := codexStep JSON_parse Date_getTime st line in
  (truthyStr (x_sessionId st) = true -> x_sessionId st' = x_sessionId st)
  /\ (truthyStr (x_cwd st) = true -> x_cwd st' = x_cwd st)
  /\ (truthyStr (x_gitBranch st) = true -> x_gitBranch st' = x_gitBranch st)
  /\ (truthyStr (x_cliVersion st) = true -> x_cliVersion st' = x_cliVersion st).
Proof.
  unfold codexStep. destruct (decodeLine JSON_parse line); [|done].
  repeat (case_match; simpl); repeat split; try done; apply firstString_keeps.
Qed.

(** Once a scalar field holds a non-empty string, no later line changes it. *)
Lemma fold_scalars (step : Extract -> string -> Extract) (get : Extract -> option string) :
  (forall st line, truthyStr (get st) = true -> get (step st line) = get st) ->
  forall lines st, truthyStr (get st) = true -> get (fold_left step lines st) = get st.
Proof.
  intros Hstep. induction lines as [|line lines IH]; intros st Hst; simpl; [done |].
  rewrite IH; [by apply Hstep | by rewrite Hstep].
Qed.

(** X8.  First seen wins: a session id, working directory, branch or tool
    version that an extractor has found in a file (as a non-empty string)
    is not changed by any line that follows. *)
Theorem extractor_first_seen_wins (lines more : list string) (file : string) :
  (forall i f,
     scalarFields (codexOf lines file) !! i = Some f -> truthyStr f = true ->
     scalarFields (codexOf (lines ++ more) file) !! i = Some f)
  /\ (forall i f,
        scalarFields (claudeOf lines file) !! i = Some f -> truthyStr f = true ->
        scalarFields (claudeOf (lines ++ more) file) !! i = Some f).
Proof.
  split; intros i f Hi Hf.
  - unfold scalarFields, extractConversationFromCodexLines in *. simpl in *.
    rewrite fold_left_app.
    set (st := fold_left (codexStep JSON_parse Date_getTime) lines emptyExtract) in *.
    destruct i as [|[|[|[|i]]]]; simpl in *; try done; injection Hi as <-; f_equal.
    + apply (fold_scalars _ x_sessionId); [|done].
      intros st' line. apply codexStep_scalars.
    + apply (fold_scalars _ x_cwd); [|done].
      intros st' line. apply codexStep_scalars.
    + apply (fold_scalars _ x_gitBranch); [|done].
      intros st' line. apply codexStep_scalars.
    + apply (fold_scalars _ x_cliVersion); [|done].
      intros st' line. apply codexStep_scalars.
  - unfold scalarFields, extractConversationFromClaudeLines in *. simpl in *.
    rewrite take_app, fold_left_app.
    set (st := fold_left (claudeMetaStep JSON_parse Date_getTime) (take 80 lines)
                         emptyExtract) in *.
    destruct i as [|[|[|[|i]]]]; simpl in *; try done; injection Hi as <-; f_equal.
    + apply (fold_scalars _ x_sessionId); [|done].
      intros st' line. apply claudeMetaStep_scalars.
    + apply (fold_scalars _ x_cwd); [|done].
      intros st' line. apply claudeMetaStep_scalars.
    + apply (fold_scalars _ x_gitBranch); [|done].
      intros st' line. apply claudeMetaStep_scalars.
    + apply (fold_scalars _ x_cliVersion); [|done].
      intros st' line. apply claudeMetaStep_scalars.
Qed.

End ExtractorWindows.

Lemma claude_bounded_windows_witness :
  headFields (extractConversationFromClaudeLines Sample.stampedParse Sample.sampleDate
                (replicate 80 Sample.lineAt100 ++ [Sample.lineAt050]) "/tmp/s.jsonl")
  = headFields (extractConversationFromClaudeLines Sample.stampedParse Sample.sampleDate
                  (replicate 80 Sample.lineAt100) "/tmp/s.jsonl").
Proof.
  apply (claude_bounded_windows Sample.stampedParse Sample.sampleDate).
  rewrite length_replicate. lia.
Defined.

Lemma extractor_first_seen_wins_witness :
  scalarFields
    (extractConversationFromCodexLines World.parse Sample.sampleDate
       ([World.render World.codexMeta] ++ [World.render World.claudeElsewhere])
       World.fileC) !! 1%nat
  = Some (Some "/home/u/side").
Proof.
  apply (extractor_first_seen_wins World.parse Sample.sampleDate
           [World.render World.codexMeta] [World.render World.claudeElsewhere]
           World.fileC); reflexivity.
Defined.

Lemma extractor_preview_bounded_witness :
  (length (ofString "Plan the migration") <= 100)%nat.
Proof.
  destruct (extractor_preview_bounded World.parse Sample.sampleDate
              [World.render World.claudeUser] World.fileA) as [Hclaude _].
  destruct (Hclaude "Plan the migration") as [Hlen _]; [reflexivity | exact Hlen].
Defined.

Section ExtractorTolerance.

Variable JSON_parse : string -> option json.
Variable Date_getTime : option json -> option Z.

Lemma firstTimestamp_skip (before after : list string) (bad : string) :
  decodeLine JSON_parse bad = None ->
  firstTimestamp JSON_parse Date_getTime (before ++ bad :: after)
  = firstTimestamp JSON_parse Date_getTime (before ++ after).
Proof.
  intros Hbad. induction before as [|line before IH]; simpl.
  - unfold lineTimestamp. by rewrite Hbad.
  - by rewrite IH.
Qed.

(** X9.  Tolerant parsing: a line that does not decode (it is not JSON, or
    it is the JSON value [null]) changes nothing in what the Codex
    extractor returns but the message count, wherever it stands in the
    file; the same holds for the Claude extractor on files of at most 50
    lines, which both of its windows cover. *)
Theorem undecodable_line_only_counts (before after : list string) (bad file : string) :
  decodeLine JSON_parse bad = None ->
  (besidesCount (extractConversationFromCodexLines JSON_parse Date_getTime
                   (before ++ bad :: after) file)
   = besidesCount (extractConversationFromCodexLines JSON_parse Date_getTime
                     (before ++ after) file)
   /\ messageCount (extractConversationFromCodexLines JSON_parse Date_getTime
                      (before ++ bad :: after) file)
      = Datatypes.S (length (before ++ after)))
  /\ ((length (before ++ bad :: after) <= 50)%nat ->
      besidesCount (extractConversationFromClaudeLines JSON_parse Date_getTime
                      (before ++ bad :: after) file)
      = besidesCount (extractConversationFromClaudeLines JSON_parse Date_getTime
                        (before ++ after) file)).
Proof.
  intros Hbad. split.
  - unfold besidesCount, headFields, extractConversationFromCodexLines. simpl.
    rewrite !fold_left_app. simpl.
    assert (Hstep : forall st, codexStep JSON_parse Date_getTime st bad = st)
      by (intros st; unfold codexStep; by rewrite Hbad).
    rewrite Hstep. split; [done |]. rewrite !length_app. simpl. lia.
  - intros Hlen.
    assert (Hlen' : (length (before ++ after) <= 50)%nat)
      by (rewrite length_app in *; simpl in Hlen; lia).
    unfold besidesCount, headFields, extractConversationFromClaudeLines, lastLinesBackward.
    simpl.
    rewrite !take_ge by (rewrite ?length_rev; lia).
    rewrite !fold_left_app. simpl.
    assert (Hstep : forall st, claudeMetaStep JSON_parse Date_getTime st bad = st)
      by (intros st; unfold claudeMetaStep; by rewrite Hbad).
    rewrite Hstep.
    rewrite !rev_app_distr. simpl. rewrite <- app_assoc. simpl.
    by rewrite firstTimestamp_skip.
Qed.

Lemma keepMax_ge (cur ts : option Z) :
  (forall c, cur = Some c -> exists m, keepMax cur ts = Some m /\ (c <= m)%Z)
  /\ (forall t, ts = Some t -> exists m, keepMax cur ts = Some m /\ (t <= m)%Z).
Proof.
  destruct cur as [c|], ts as [t|]; simpl; split; intros ? [= <-];
    try destruct (Z.ltb_spec c t); eexists; split; try reflexivity; lia.
Qed.

Lemma keepMin_le' (cur ts : option Z) :
  (forall c, cur = Some c -> exists m, keepMin cur ts = Some m /\ (m <= c)%Z)
  /\ (forall t, ts = Some t -> exists m, keepMin cur ts = Some m /\ (m <= t)%Z).
Proof.
  destruct cur as [c|], ts as [t|]; simpl; split; intros ? [= <-];
    try destruct (Z.ltb_spec t c); eexists; split; try reflexivity; lia.
Qed.

Lemma fold_codexStep_cover (lines : list string) (st : Extract) :
  let st' := fold_left (codexStep JSON_parse Date_getTime) lines st in
  (forall f0, x_firstMessageAt st = Some f0 ->
     exists f, x_firstMessageAt st' = Some f /\ (f <= f0)%Z)
  /\ (forall l0, x_lastMessageAt st = Some l0 ->
        exists l, x_lastMessageAt st' = Some l /\ (l0 <= l)%Z)
  /\ (forall t, t ∈ timestampsOf JSON_parse Date_getTime lines ->
        exists f l, x_firstMessageAt st' = Some f /\ x_lastMessageAt st' = Some l
                    /\ (f <= t <= l)%Z).
Proof.
  revert st. induction lines as [|line lines IH]; intros st; simpl.
  - split; [eauto with lia |]. split; [eauto with lia |].
    intros t Ht. by apply elem_of_nil in Ht.
  - destruct (IH (codexStep JSON_parse Date_getTime st line)) as (Hf & Hl & Hcover).
    destruct (codexStep_bounds JSON_parse Date_getTime st line) as [Hfirst Hlast].
    destruct (keepMin_le' (x_firstMessageAt st)
                (lineTimestamp JSON_parse Date_getTime line)) as [Hmin1 Hmin2].
    destruct (keepMax_ge (x_lastMessageAt st)
                (lineTimestamp JSON_parse Date_getTime line)) as [Hmax1 Hmax2].
    split; [|split].
    + intros f0 Hf0. destruct (Hmin1 f0 Hf0) as (m & Hm & Hle).
      rewrite <- Hfirst in Hm. destruct (Hf m Hm) as (f & Hf' & Hle').
      exists f. split; [done | lia].
    + intros l0 Hl0. destruct (Hmax1 l0 Hl0) as (m & Hm & Hle).
      rewrite <- Hlast in Hm. destruct (Hl m Hm) as (l & Hl' & Hle').
      exists l. split; [done | lia].
    + intros t Ht. unfold timestampsOf in Ht. simpl in Ht.
      destruct (lineTimestamp JSON_parse Date_getTime line) as [ts|] eqn:Hts;
        [|by apply Hcover].
      apply elem_of_cons in Ht as [->|Ht]; [|by apply Hcover].
      destruct (Hmin2 ts eq_refl) as (m1 & Hm1 & Hle1).
      destruct (Hmax2 ts eq_refl) as (m2 & Hm2 & Hle2).
      rewrite <- Hfirst in Hm1. rewrite <- Hlast in Hm2.
      destruct (Hf m1 Hm1) as (f & Hf' & ?). destruct (Hl m2 Hm2) as (l & Hl' & ?).
      exists f, l. repeat split; try done; lia.
Qed.

(** X10.  The Codex extractor's bounds cover the file: the timestamp of
    every line that carries one lies between [firstMessageAt] and
    [lastMessageAt], which are then both present. *)
Theorem codex_bounds_cover (lines : list string) (file : string) (t : Z) :
  t ∈ timestampsOf JSON_parse Date_getTime lines ->
  exists f l,
    firstMessageAt (extractConversationFromCodexLines JSON_parse Date_getTime lines file)
      = Some f
    /\ lastMessageAt (extractConversationFromCodexLines JSON_parse Date_getTime lines file)
       = Some l
    /\ (f <= t <= l)%Z.
Proof.
  intros Ht. unfold extractConversationFromCodexLines. simpl.
  by apply (fold_codexStep_cover lines emptyExtract).
Qed.

End ExtractorTolerance.

Lemma undecodable_line_only_counts_witness :
  besidesCount (extractConversationFromCodexLines World.parse Sample.sampleDate
                  ([World.render World.codexMeta] ++ "not json" :: []) World.fileC)
  = besidesCount (extractConversationFromCodexLines World.parse Sample.sampleDate
                    ([World.render World.codexMeta] ++ []) World.fileC).
Proof.
  apply (undecodable_line_only_counts World.parse Sample.sampleDate
           [World.render World.codexMeta] [] "not json" World.fileC).
  reflexivity.
Defined.

Lemma codex_bounds_cover_witness :
  exists f l,
    firstMessageAt (extractConversationFromCodexLines Sample.stampedParse Sample.sampleDate
                      SampleLines.shuffledLines "/tmp/s.jsonl") = Some f
    /\ lastMessageAt (extractConversationFromCodexLines Sample.stampedParse
                        Sample.sampleDate SampleLines.shuffledLines "/tmp/s.jsonl")
       = Some l
    /\ (f <= 100 <= l)%Z.
Proof.
  apply (codex_bounds_cover Sample.stampedParse Sample.sampleDate).
  assert (Hts : timestampsOf Sample.stampedParse Sample.sampleDate SampleLines.shuffledLines
                = [100; 50; 200]%Z) by reflexivity.
  rewrite Hts. apply elem_of_cons. by left.
Defined.

(** ** Discovery: skipped files, order, sources, fuel *)

Section DiscoveryExtras.

Variable rt : Runtime.

Lemma discover_app (files1 files2 : list string) (src : ConversationSource) :
  discoverConversationsFromFiles rt (files1 ++ files2) src
  = discoverConversationsFromFiles rt files1 src
    ++ discoverConversationsFromFiles rt files2 src.
Proof.
  induction files1 as [|file files1 IH]; simpl; [done |].
  repeat case_match; try done; by rewrite IH.
Qed.

(** X11.  A file that cannot be read is skipped like a blank one, the scan
    of a list of files is the concatenation of the scans of its parts, and
    the discovered conversations keep the order of the files they come
    from: their paths form a sublist of the file list. *)
Theorem discovery_skips_and_keeps_order (files : list string) (src : ConversationSource) :
  (forall before after file,
     files = before ++ file :: after ->
     fs_readFileSync rt file = None ->
     discoverConversationsFromFiles rt files src
     = discoverConversationsFromFiles rt (before ++ after) src)
  /\ (forall files', discoverConversationsFromFiles rt (files ++ files') src
                     = discoverConversationsFromFiles rt files src
                       ++ discoverConversationsFromFiles rt files' src)
  /\ sublist (map jsonlFile (discoverConversationsFromFiles rt files src)) files.
Proof.
  split; [|split].
  - intros before after file -> Hread. rewrite !discover_app. simpl. by rewrite Hread.
  - intros files'. apply discover_app.
  - induction files as [|file rest IH]; simpl; [constructor |].
    destruct (fs_readFileSync rt file) as [raw|]; [|by apply sublist_cons].
    destruct (nonEmptyLines raw) as [|line lines]; [by apply sublist_cons |].
    simpl. destruct (extractFor_fields rt src (line :: lines) file) as (_ & -> & _).
    by apply sublist_skip.
Qed.

Lemma hasSource_spec (srcs : list ConversationSource) (s : ConversationSource) :
  hasSource srcs s = true <-> s ∈ srcs.
Proof.
  unfold hasSource. rewrite existsb_exists. split.
  - intros (x & Hin & Heq). apply list_elem_of_In in Hin.
    by destruct s, x.
  - intros Hin. exists s. split; [by apply list_elem_of_In | by destruct s].
Qed.

(** Only the requested sources are scanned. *)
Lemma discovered_sources (fuel : nat) (srcs : list ConversationSource)
  (discoveredAll : list DiscoveredConversation) (d : DiscoveredConversation) :
  discoverConversations rt fuel srcs = Some discoveredAll ->
  d ∈ discoveredAll -> source d ∈ srcs.
Proof.
  unfold discoverConversations.
  destruct (hasSource srcs claude) eqn:Hclaude;
    destruct (hasSource srcs codex) eqn:Hcodex.
  - destruct (findJsonlFiles rt fuel _) as [claudeFiles|]; [|done].
    destruct (findJsonlFiles rt fuel _) as [codexFiles|]; [|done].
    intros [= <-] Hin.
    apply elem_of_app in Hin as [Hin|Hin];
      apply discover_from_files_counts in Hin as (-> & _); by apply hasSource_spec.
  - destruct (findJsonlFiles rt fuel _) as [claudeFiles|]; [|done].
    intros [= <-] Hin.
    apply discover_from_files_counts in Hin as (-> & _). by apply hasSource_spec.
  - destruct (findJsonlFiles rt fuel _) as [codexFiles|]; [|done].
    intros [= <-] Hin. simpl in Hin.
    apply discover_from_files_counts in Hin as (-> & _). by apply hasSource_spec.
  - intros [= <-] Hin. by apply elem_of_nil in Hin.
Qed.

Lemma walk_more_fuel (fuel extra : nat) (stack files result : list string) :
  walk rt fuel stack files = Some result ->
  walk rt (fuel + extra) stack files = Some result.
Proof.
  revert stack files. induction fuel as [|fuel IH]; intros stack files.
  - destruct stack; simpl; [|done]. intros [= <-]. by destruct extra.
  - destruct stack as [|current stack]; simpl; [done |].
    destruct (fs_readdirSync rt current) as [items|]; [|apply IH].
    destruct (scanItems rt current items stack files). apply IH.
Qed.

(** The bound on directory visits is only a bound: a scan that finishes
    within it gives the same conversations under every larger one. *)
Theorem discovery_fuel_monotone (fuel extra : nat) (srcs : list ConversationSource)
  (discoveredAll : list DiscoveredConversation) :
  discoverConversations rt fuel srcs = Some discoveredAll ->
  discoverConversations rt (fuel + extra) srcs = Some discoveredAll.
Proof.
  assert (Hfind : forall root files,
    findJsonlFiles rt fuel root = Some files ->
    findJsonlFiles rt (fuel + extra) root = Some files).
  { intros root files. unfold findJsonlFiles. case_match; [done |].
    apply walk_more_fuel. }
  unfold discoverConversations.
  destruct (hasSource srcs claude), (hasSource srcs codex).
  - destruct (findJsonlFiles rt fuel _) as [claudeFiles|] eqn:Hc; [|done].
    rewrite (Hfind _ _ Hc).
    destruct (findJsonlFiles rt fuel (Path.join [os_homedir rt; ".codex"; "sessions"]))
      as [codexFiles|] eqn:Hx; [|done].
    by rewrite (Hfind _ _ Hx).
  - destruct (findJsonlFiles rt fuel _) as [claudeFiles|] eqn:Hc; [|done].
    by rewrite (Hfind _ _ Hc).
  - destruct (findJsonlFiles rt fuel _) as [codexFiles|] eqn:Hx; [|done].
    by rewrite (Hfind _ _ Hx).
  - done.
Qed.

End DiscoveryExtras.

Lemma discovery_skips_and_keeps_order_witness :
  discoverConversationsFromFiles World.host
    [World.fileA; "/home/u/.claude/projects/proj/gone.jsonl"; World.fileB] claude
  = discoverConversationsFromFiles World.host ([World.fileA] ++ [World.fileB]) claude.
Proof.
  destruct (discovery_skips_and_keeps_order World.host
              [World.fileA; "/home/u/.claude/projects/proj/gone.jsonl"; World.fileB]
              claude) as [Hskip _].
  apply (Hskip [World.fileA] [World.fileB] "/home/u/.claude/projects/proj/gone.jsonl");
    reflexivity.
Defined.

Lemma discovery_fuel_monotone_witness :
  exists discoveredAll,
    discoverConversations World.host (4 + 6) [claude; codex] = Some discoveredAll
    /\ length discoveredAll = 3%nat.
Proof.
  eexists. split.
  - apply (discovery_fuel_monotone World.host 4 6 [claude; codex]). vm_compute. reflexivity.
  - reflexivity.
Defined.

(** ** Sources of a report *)

Section SourceFacts.

Context {S : Type}.
Variables (rt : Runtime) (ops : StoreOps S).

Lemma countSource_none (src : ConversationSource) (items : list DiscoveredConversation) :
  (forall d, d ∈ items -> source d <> src) -> countSource src items = 0%nat.
Proof.
  induction items as [|d items IH]; intros Hitems; [done |].
  rewrite countSource_cons, IH by (intros d' Hd'; apply Hitems, elem_of_cons; by right).
  assert (Hd : source d <> src) by (apply Hitems, elem_of_cons; by left).
  by destruct (source d), src.
Qed.

Lemma elem_of_existingOf (E : gset string) (items : list DiscoveredConversation)
  (d : DiscoveredConversation) :
  d ∈ existingOf E items <-> d ∈ items /\ jsonlFile d ∈ E.
Proof.
  unfold existingOf. rewrite !list_elem_of_In, List.filter_In, bool_decide_eq_true.
  done.
Qed.

Lemma elem_of_insertedOf (E : gset string) (items : list DiscoveredConversation)
  (d : DiscoveredConversation) :
  d ∈ insertedOf E items <-> d ∈ items /\ jsonlFile d ∉ E.
Proof.
  unfold insertedOf.
  rewrite !list_elem_of_In, List.filter_In, negb_true_iff, bool_decide_eq_false.
  done.
Qed.

(** X12.  Only the requested sources are scanned ([sources] omitted or
    empty means both): every discovered conversation belongs to a requested
    source, and in a returned report all five counters of a source that was
    not requested are zero. *)
Theorem unrequested_source_stays_empty (fuel : nat) (agentId : string)
  (request : BackfillRequest) (w w' : World S) (r : BackfillReport)
  (src : ConversationSource) :
  backfillAgentMemory rt ops fuel agentId request w = (Returned r, w') ->
  src ∉ requestSources request ->
  stats r src = emptySourceStats
  /\ exists discoveredAll,
       discoverConversations rt fuel (requestSources request) = Some discoveredAll
       /\ forall d, d ∈ discoveredAll -> source d ∈ requestSources request.
Proof.
  intros Hrun Hsrc.
  apply backfill_returned in Hrun
    as (n & wds & w1 & discoveredAll & E & w2 & _ & Hdiscover & _ & _ & Hd).
  assert (Hall : forall d, d ∈ discoveredAll -> source d <> src).
  { intros d Hin Heq. apply Hsrc. rewrite <- Heq.
    by apply (discovered_sources rt fuel _ discoveredAll). }
  unfold Describes in Hd. cbv zeta in Hd.
  set (items := classified (requestMaxFiles request) discoveredAll) in *.
  assert (Hitems : forall d, d ∈ items -> source d <> src)
    by (intros d Hin; by apply Hall, (classified_subset (requestMaxFiles request))).
  assert (HM : forall d, d ∈ matchedOf wds items -> source d <> src).
  { intros d Hin. apply matchedOf_origin in Hin as (item & c & Hitem & _ & ->).
    simpl. by apply Hitems. }
  destruct Hd as [_ _ _ _ _ _ _ _ _ _ _ _ Hdisc Hsm Hsu Hse Hsi].
  specialize (Hdisc src). specialize (Hsm src). specialize (Hsu src).
  specialize (Hse src). specialize (Hsi src).
  rewrite (countSource_none src discoveredAll Hall) in Hdisc.
  rewrite (countSource_none src _ HM) in Hsm, Hsu.
  rewrite (countSource_none src items Hitems) in Hsu.
  rewrite countSource_none in Hse
    by (intros d Hin; apply elem_of_existingOf in Hin as [Hin _]; by apply HM).
  rewrite countSource_none in Hsi
    by (intros d Hin; apply elem_of_insertedOf in Hin as [Hin _]; by apply HM).
  split.
  - destruct (stats r src) as [a b c d e]. simpl in *.
    unfold emptySourceStats. f_equal; lia.
  - exists discoveredAll. split; [done |]. intros d.
    by apply (discovered_sources rt fuel).
Qed.

End SourceFacts.

Lemma unrequested_source_stays_empty_witness :
  stats (World.reportOf
           (backfillAgentMemory World.host UpsertStore.ops 10 World.agent
              (mkRequest (Some [codex]) (Some true) None None)
              (World.start World.seeded))) claude
  = emptySourceStats.
Proof.
  set (run := backfillAgentMemory _ _ _ _ _ _).
  apply (unrequested_source_stays_empty World.host UpsertStore.ops 10 World.agent
           (mkRequest (Some [codex]) (Some true) None None)
           (World.start World.seeded) (snd run) (World.reportOf run) claude).
  - vm_compute. reflexivity.
  - intros Hin. apply list_elem_of_singleton in Hin. discriminate Hin.
Defined.

(** ** Working-directory resolver *)

Section ResolverExtras.

Context {S : Type}.
Variables (rt : Runtime) (ops : StoreOps S).

Lemma sessionLoop_quiet (agentId : string) (sessions : list json)
  (seen : nat) (wds : list string) (w : World S) :
  snd (sessionLoop rt ops agentId false sessions seen wds w) = w.
Proof.
  revert seen wds. induction sessions as [|session sessions IH]; intros seen wds;
    simpl; [done |].
  destruct session; try done; repeat (case_match; try done; try apply IH).
Qed.

(** X14.  The resolver is best effort: whatever the registry, the live
    inventory and the store do, it returns; the only store call it makes is
    [recordSession], and without [applyWrites] it makes no call at all. *)
Theorem resolver_never_fails (agentId : string) (applyWrites : bool) (w : World S) :
  let run := fetchWorkingDirectoriesForAgent rt ops agentId applyWrites w in
  (exists n wds, fst run = Returned (n, wds))
  /\ Forall (fun e => isRecordSession (fst e) = true) (newCalls w (snd run))
  /\ (applyWrites = false -> snd run = w).
Proof.
  simpl. destruct (sessionCallsOnly_fetch rt ops agentId applyWrites w)
    as ([[n wds] Hret] & calls & Hlog & Hcalls).
  split; [eauto |]. split.
  - unfold newCalls. by rewrite Hlog, drop_app_length.
  - intros ->. unfold fetchWorkingDirectoriesForAgent.
    repeat (case_match; try done; try apply sessionLoop_quiet).
Qed.

Lemma setAdd_NoDup (l : list string) (x : string) : NoDup l -> NoDup (setAdd l x).
Proof.
  intros Hl. unfold setAdd. case_bool_decide; [done |].
  apply NoDup_app. split; [done |]. split; [|apply NoDup_singleton].
  intros y Hy Hin. apply list_elem_of_singleton in Hin. by subst.
Qed.

Lemma setAdd_prefix (l : list string) (x : string) : l `prefix_of` setAdd l x.
Proof.
  unfold setAdd. case_bool_decide; [done | by apply prefix_app_r].
Qed.

Lemma setAdd_Forall (P : string -> Prop) (l : list string) (x : string) :
  Forall P l -> P x -> Forall P (setAdd l x).
Proof.
  intros Hl Hx. unfold setAdd. case_bool_decide; [done |].
  apply Forall_app. split; [done | by constructor].
Qed.

Lemma directoriesOk_add (base wds : list string) (raw : string) :
  directoriesOk base wds -> directoriesOk base (setAdd wds (normalizePathForMatch raw)).
Proof.
  intros (Hnd & Hpre & Hall). split; [by apply setAdd_NoDup |]. split.
  - etrans; [exact Hpre | apply setAdd_prefix].
  - apply setAdd_Forall; [done | by exists raw].
Qed.

Lemma registryDirectories_ok (agentId : string) :
  directoriesOk (registryDirectories rt agentId) (registryDirectories rt agentId).
Proof.
  assert (Hnil : directoriesOk [] []).
  { split; [constructor | split; [done | constructor]]. }
  assert (Hreg : directoriesOk [] (registryDirectories rt agentId)).
  { unfold registryDirectories.
    repeat (first [exact Hnil | apply directoriesOk_add | case_match]). }
  destruct Hreg as (Hnd & _ & Hall). by split.
Qed.

Lemma sessionLoop_directories (agentId : string) (applyWrites : bool)
  (base : list string) (sessions : list json) (seen : nat) (wds : list string)
  (w w' : World S) (n : nat) (wds' : list string) :
  directoriesOk base wds ->
  sessionLoop rt ops agentId applyWrites sessions seen wds w = (Returned (n, wds'), w') ->
  directoriesOk base wds' /\ (seen <= n <= seen + length sessions)%nat.
Proof.
  revert seen wds w. induction sessions as [|session sessions IH]; intros seen wds w Hwds;
    simpl.
  - intros [= <- <- <-]. split; [done | lia].
  - assert (Hret : forall seen0 wds0 (w0 : World S),
              directoriesOk base wds0 -> (seen <= seen0 <= Datatypes.S seen)%nat ->
              ret (seen0, wds0) w0 = (Returned (n, wds'), w') ->
              directoriesOk base wds'
              /\ (seen <= n <= seen + Datatypes.S (length sessions))%nat).
    { intros seen0 wds0 w0 Hok Hle [= <- <- <-]. split; [done | lia]. }
    assert (Hrec : forall seen0 wds0 (w0 : World S),
              directoriesOk base wds0 -> (seen <= seen0 <= Datatypes.S seen)%nat ->
              sessionLoop rt ops agentId applyWrites sessions seen0 wds0 w0
              = (Returned (n, wds'), w') ->
              directoriesOk base wds'
              /\ (seen <= n <= seen + Datatypes.S (length sessions))%nat).
    { intros seen0 wds0 w0 Hok Hle Hrun.
      destruct (IH seen0 wds0 w0 Hok Hrun) as [Hok' Hn]. split; [done | lia]. }
    assert (Hstep : forall wds0,
              directoriesOk base wds0 ->
              (if applyWrites
               then bind (tryCatch (bind (callRecordSession ops
                                            (sessionArgs rt agentId session))
                                         (fun _ => ret true)) (ret false))
                         (fun recorded : bool =>
                            if recorded
                            then sessionLoop rt ops agentId applyWrites sessions
                                             (Datatypes.S seen) wds0
                            else ret (Datatypes.S seen, wds0))
               else sessionLoop rt ops agentId applyWrites sessions
                                (Datatypes.S seen) wds0) w
              = (Returned (n, wds'), w') ->
              directoriesOk base wds'
              /\ (seen <= n <= seen + Datatypes.S (length sessions))%nat).
    { intros wds0 Hok. destruct applyWrites; [|apply Hrec; [done | lia]].
      intros Hrun. apply bind_returned in Hrun as ([|] & w1 & _ & Hrun).
      - revert Hrun. apply Hrec; [done | lia].
      - revert Hrun. apply Hret; [done | lia]. }
    destruct session; try (apply Hret; [done | lia]).
    all: destruct (negb (isStr _ agentId)); [apply Hrec; [done | lia] |].
    all: match goal with
         | |- context [match ?x with Some _ => _ | None => _ end] =>
             destruct x as [wds0|] eqn:Hadd
         end; [|apply Hret; [done | lia]].
    all: apply Hstep; revert Hadd;
      repeat (case_match; try done); intros [= <-]; try done;
      by apply directoriesOk_add.
Qed.

(** X15.  The resolved working directories are a duplicate-free list of
    non-empty normal forms that starts with the registry's directories;
    when the session listing throws or does not answer ok, they are exactly
    the registry's directories and no session is counted. *)
Theorem resolver_directories (agentId : string) (applyWrites : bool)
  (w w' : World S) (n : nat) (wds : list string) :
  fetchWorkingDirectoriesForAgent rt ops agentId applyWrites w = (Returned (n, wds), w') ->
  NoDup wds
  /\ registryDirectories rt agentId `prefix_of` wds
  /\ Forall isNormalForm wds
  /\ (forall d, d ∈ wds -> d <> EmptyString)
  /\ (fetchSessions rt = FetchThrows \/ fetchSessions rt = FetchNotOk ->
      n = 0%nat /\ wds = registryDirectories rt agentId).
Proof.
  intros Hrun.
  assert (Hok : directoriesOk (registryDirectories rt agentId) wds).
  { revert Hrun. unfold fetchWorkingDirectoriesForAgent.
    pose proof (registryDirectories_ok agentId) as Hbase.
    repeat (case_match; try (intros [= <- <- <-]; exact Hbase)).
    intros Hrun.
    by apply (sessionLoop_directories _ _ _ _ _ _ _ _ _ _ Hbase) in Hrun as [Hok _]. }
  destruct Hok as (Hnd & Hpre & Hall).
  split; [done |]. split; [done |]. split; [done |]. split.
  - intros d Hd. rewrite Forall_forall in Hall. destruct (Hall d Hd) as [raw ->].
    apply normalizePath_nonempty.
  - unfold fetchWorkingDirectoriesForAgent in Hrun.
    intros [Hf|Hf]; rewrite Hf in Hrun; by injection Hrun as <- <- <-.
Qed.

End ResolverExtras.

Lemma resolver_never_fails_witness :
  snd (fetchWorkingDirectoriesForAgent World.host UpsertStore.opsSessionsDown
         World.agent false (World.start World.seeded))
  = World.start World.seeded.
Proof.
  apply (resolver_never_fails World.host UpsertStore.opsSessionsDown World.agent false
           (World.start World.seeded)).
  reflexivity.
Defined.

Lemma resolver_directories_witness :
  NoDup ["/home/u/work"; "/home/u/side"]
  /\ (registryDirectories World.host World.agent
      `prefix_of` ["/home/u/work"; "/home/u/side"]).
Proof.
  set (run := fetchWorkingDirectoriesForAgent World.host UpsertStore.ops World.agent true
                (World.start World.seeded)).
  destruct (resolver_directories World.host UpsertStore.ops World.agent true
              (World.start World.seeded) (snd run) 1%nat
              ["/home/u/work"; "/home/u/side"]) as (Hnd & Hpre & _).
  { vm_compute. reflexivity. }
  split; [exact Hnd | exact Hpre].
Defined.

(** ** Existing-files lookup *)

Section LookupExtras.

Context {S : Type}.
Variable ops : StoreOps S.

Lemma addRows_from (acc : gset string) (rows : list string) (k : string) :
  k ∈ addRows acc rows -> k ∈ acc \/ (k ∈ rows /\ k <> EmptyString).
Proof. apply addRows_spec. Qed.

Lemma existingLoop_calls (projects : list string) (acc E : gset string) (w w' : World S) :
  existingLoop ops projects acc w = (Returned E, w') ->
  w_store w' = w_store w
  /\ w_log w' = w_log w ++ map (fun p => (CallGetConversations p, true)) projects
  /\ forall k, k ∈ E ->
       k ∈ acc \/ (k <> EmptyString
                   /\ exists p rows, p ∈ projects
                                     /\ getConversations ops (w_store w) p = Ok rows
                                     /\ k ∈ rows).
Proof.
  revert acc w. induction projects as [|p projects IH]; intros acc w; simpl.
  - intros [= <- <-]. rewrite app_nil_r. split; [done |]. split; [done |]. by left.
  - intros Hrun. apply bind_returned in Hrun as (rows & w1 & Hread & Hrun).
    unfold callGetConversations, doRead in Hread.
    destruct (getConversations ops (w_store w) p) as [rows'|e] eqn:Hrows; [|done].
    injection Hread as <- <-.
    apply IH in Hrun as (Hstore & Hlog & HE). simpl in *.
    split; [done |]. split; [by rewrite Hlog, <- app_assoc |].
    intros k Hk. destruct (HE k Hk) as [Hacc|(Hne & p' & rows'' & Hp' & Hconv & Hin)].
    + apply addRows_from in Hacc as [?|[Hin Hne]]; [by left |].
      right. split; [done |]. exists p, rows'. split; [by apply elem_of_cons; left | done].
    + right. split; [done |]. exists p', rows''.
      split; [by apply elem_of_cons; right | done].
Qed.

(** X16.  The existing-files lookup reads and never writes: it calls
    [getProjects] once and then [getConversations] once per project row, in
    order; the set it returns never contains the empty path, and each of
    its paths was listed under one of the projects. *)
Theorem existing_files_lookup (w w' : World S) (E : gset string) :
  getExistingConversationFiles ops w = (Returned E, w') ->
  exists projects,
    getProjects ops (w_store w) = Ok projects
    /\ w_store w' = w_store w
    /\ newCalls w w'
       = (CallGetProjects, true) :: map (fun p => (CallGetConversations p, true)) projects
    /\ (EmptyString ∉ E)
    /\ forall k, k ∈ E ->
         exists p rows, p ∈ projects
                        /\ getConversations ops (w_store w) p = Ok rows /\ k ∈ rows.
Proof.
  unfold getExistingConversationFiles. intros Hrun.
  apply bind_returned in Hrun as (projects & w1 & Hread & Hrun).
  unfold callGetProjects, doRead in Hread.
  destruct (getProjects ops (w_store w)) as [projects'|e] eqn:Hprojects; [|done].
  injection Hread as <- <-.
  apply existingLoop_calls in Hrun as (Hstore & Hlog & HE). simpl in *.
  exists projects'. split; [done |]. split; [done |]. split.
  - unfold newCalls. rewrite Hlog, <- app_assoc, drop_app_length. done.
  - split.
    + intros Hin. destruct (HE _ Hin) as [Hempty|[Hne _]]; [|done].
      by apply not_elem_of_empty in Hempty.
    + intros k Hk. destruct (HE k Hk) as [Hempty|(_ & p & rows & ?)]; [|eauto].
      by apply not_elem_of_empty in Hempty.
Qed.

End LookupExtras.

Lemma existing_files_lookup_witness :
  exists projects,
    getProjects UpsertStore.ops World.seeded = Ok projects
    /\ EmptyString ∉ ({[ World.fileA ]} : gset string).
Proof.
  set (run := getExistingConversationFiles UpsertStore.ops (World.start World.seeded)).
  destruct (existing_files_lookup UpsertStore.ops (World.start World.seeded) (snd run)
              {[ World.fileA ]}) as (projects & Hprojects & _ & _ & Hempty & _).
  { vm_compute. reflexivity. }
  exists projects. split; [exact Hprojects | exact Hempty].
Defined.

(** ** Example lists are capped *)

Section CapFacts.

Context {S : Type}.
Variables (rt : Runtime) (ops : StoreOps S).

Lemma pushExample_min (target : list string) (value : string) (count : nat) :
  length target = Nat.min MAX_EXAMPLES count ->
  length (pushExample target value) = Nat.min MAX_EXAMPLES (Datatypes.S count).
Proof.
  unfold pushExample, MAX_EXAMPLES. intros Hlen.
  pose proof (Nat.min_spec 20 count) as Hmin.
  pose proof (Nat.min_spec 20 (Datatypes.S count)) as Hmin'.
  destruct (Nat.leb_spec 20 (length target)) as [Hfull|Hroom];
    [lia | rewrite length_app; change (length [value]) with 1%nat; lia].
Qed.

Lemma capped_classify (q : QArith_base.Q) (discoveredAll : list DiscoveredConversation)
  (r0 : BackfillReport) :
  capped r0 -> capped (fst (classify q discoveredAll r0)).
Proof.
  intros Hr0. unfold classify.
  apply (fold_left_invariant (matchStep _) (fun acc => capped (fst acc))).
  - destruct (fold_countDiscovered discoveredAll r0) as [_ Hrest].
    unfold besidesDiscovered in Hrest.
    injection Hrest as _ _ _ _ _ _ _ _ _ Htu Hte Hti Hue Hee Hie _ _ _ _ _ _ _ _.
    unfold capped in *. simpl. by rewrite Htu, Hte, Hti, Hue, Hee, Hie.
  - intros [r matchedItems] item (Hu & He & Hi). unfold matchStep.
    destruct (matchedCwd _ item); simpl.
    + by split.
    + split; [by apply pushExample_min | by split].
Qed.

Lemma capped_insertLoop (dry : bool) (E : gset string)
  (items : list DiscoveredConversation) (r r' : BackfillReport) (w w' : World S) :
  capped r -> insertLoop rt ops dry E items r w = (Returned r', w') -> capped r'.
Proof.
  revert r w. induction items as [|item items IH]; intros r w (Hu & He & Hi); simpl.
  - by intros [= <- <-].
  - case_match.
    + apply IH. split; [done |]. split; [by apply pushExample_min | done].
    + intros Hrun. apply bind_returned in Hrun as (_ & w1 & _ & Hrun).
      revert Hrun. apply IH. split; [done |]. split; [done | by apply pushExample_min].
Qed.

(** X17.  The three example lists of a returned report are capped at
    [MAX_EXAMPLES = 20]: each has exactly min(20, total) entries, where
    total is the report's count for its class. *)
Theorem example_lists_capped (fuel : nat) (agentId : string) (request : BackfillRequest)
  (w w' : World S) (r : BackfillReport) :
  backfillAgentMemory rt ops fuel agentId request w = (Returned r, w') ->
  capped r
  /\ (length (unmapped_examples r) <= 20)%nat
  /\ (length (existing_examples r) <= 20)%nat
  /\ (length (inserted_examples r) <= 20)%nat.
Proof.
  intros Hrun.
  apply backfill_returned in Hrun
    as (n & wds & w1 & discoveredAll & E & w2 & _ & _ & _ & Hloop & _).
  assert (Hcap : capped r).
  { revert Hloop. apply capped_insertLoop, capped_classify. by split. }
  split; [done |]. destruct Hcap as (Hu & He & Hi). unfold MAX_EXAMPLES in *.
  pose proof (Nat.le_min_l 20 (total_unmapped r)).
  pose proof (Nat.le_min_l 20 (total_existing r)).
  pose proof (Nat.le_min_l 20 (total_inserted r)). lia.
Qed.

End CapFacts.

Lemma example_lists_capped_witness :
  let r := World.reportOf
             (backfillAgentMemory World.host UpsertStore.ops 10 World.agent
                (World.request (Some true) None) (World.start World.seeded)) in
  (length (unmapped_examples r) <= 20)%nat
  /\ unmapped_examples r = [World.fileB].
Proof.
  intros r. split; [|vm_compute; reflexivity].
  set (run := backfillAgentMemory World.host UpsertStore.ops 10 World.agent
                (World.request (Some true) None) (World.start World.seeded)).
  destruct (example_lists_capped World.host UpsertStore.ops 10 World.agent
              (World.request (Some true) None) (World.start World.seeded) (snd run) r)
    as (_ & Hu & _).
  { vm_compute. reflexivity. }
  exact Hu.
Defined.

(** ** The transcript scanner *)

Section ScannerPaths.

Variable rt : Runtime.

Lemma startsWith_spec (l pre : chars) :
  startsWith l pre = true <-> exists rest, l = pre ++ rest.
Proof.
  revert l. induction pre as [|p pre IH]; intros l.
  - split; [by exists l | by destruct l].
  - destruct l as [|c l]; simpl; [split; [done | by intros [rest Hrest]] |].
    rewrite andb_true_iff, IH. split.
    + intros [Hc [rest ->]]. apply Ascii.eqb_eq in Hc as ->. by exists rest.
    + intros [rest [= -> ->]]. split; [apply Ascii.eqb_refl | by exists rest].
Qed.

Lemma endsWithString_spec (s suffix : string) :
  endsWithString s suffix = true <-> exists pre, ofString s = pre ++ ofString suffix.
Proof.
  unfold endsWithString. rewrite startsWith_spec. split.
  - intros [rest Hrest]. exists (rev rest).
    by rewrite <- (rev_involutive (ofString s)), Hrest, rev_app_distr, rev_involutive.
  - intros [pre ->]. exists (rev pre). by rewrite rev_app_distr.
Qed.

Lemma split_app_plain (sep : ascii) (l t : chars) :
  sep ∉ t ->
  exists init s, split sep l = init ++ [s] /\ split sep (l ++ t) = init ++ [s ++ t].
Proof.
  intros Ht. induction t as [|c t IH] using rev_ind.
  - destruct (split sep l) as [|s0 rest _] eqn:E using rev_ind;
      [by apply split_nonempty in E |].
    exists rest, s0. by rewrite !app_nil_r.
  - destruct IH as (init & s & Hl & Hlt).
    { intros Hin. apply Ht, elem_of_app. by left. }
    assert (Hc : Ascii.eqb c sep = false).
    { apply Ascii.eqb_neq. intros ->. apply Ht, elem_of_app. right. by left. }
    destruct (split_snoc_other sep c (l ++ t) Hc) as (init' & s' & Hlt' & Hltc).
    rewrite Hlt in Hlt'. apply app_inj_tail in Hlt' as [<- <-].
    exists init, s. split; [done |]. by rewrite app_assoc, Hltc, <- app_assoc.
Qed.

(** A path that ends in a plain suffix of the final component keeps it
    through [path.normalize]. *)
Lemma normalizeChars_suffix (q t : chars) :
  Path.slash ∉ t -> (2 < length t)%nat ->
  exists pre, Path.normalizeChars (q ++ t) = pre ++ t.
Proof.
  intros Ht Hlen. unfold Path.normalizeChars.
  destruct (q ++ t) as [|c p] eqn:Hp.
  { apply app_eq_nil in Hp as [_ ->]. simpl in Hlen. lia. }
  cbv zeta. rewrite <- Hp.
  destruct (split_app_plain Path.slash q t Ht) as (init & s & _ & Hsplit).
  assert (Hcore : forall allow, exists core,
            Path.normalizeString (q ++ t) allow = core ++ t).
  { intros allow. unfold Path.normalizeString. rewrite Hsplit, fold_left_app. simpl.
    rewrite normStep_plain;
      try (intros Heq; apply (f_equal length) in Heq; rewrite length_app in Heq;
           simpl in Heq; lia).
    simpl. rewrite join_snoc_app. by eexists. }
  assert (Hend : endsWith (q ++ t) Path.slash = false).
  { apply endsWith_false. intros Hlast. apply Ht.
    destruct t as [|x t] using rev_ind; [simpl in Hlen; lia |].
    rewrite app_assoc, last_snoc in Hlast. injection Hlast as ->.
    apply elem_of_app. right. by left. }
  rewrite Hend.
  destruct (Hcore (negb (Ascii.eqb c Path.slash))) as [core ->].
  destruct (core ++ t) as [|x rest] eqn:Hct.
  { apply app_eq_nil in Hct as [_ ->]. simpl in Hlen. lia. }
  rewrite <- Hct, app_nil_r. exists ((if Ascii.eqb c Path.slash then [Path.slash] else []) ++ core).
  by rewrite <- app_assoc.
Qed.

Lemma path_join_suffix (current item suffix : string) :
  Path.slash ∉ ofString suffix -> (2 < length (ofString suffix))%nat ->
  endsWithString item suffix = true ->
  endsWithString (Path.join [current; item]) suffix = true.
Proof.
  intros Hplain Hlen Hitem. apply endsWithString_spec in Hitem as [pre Hitem].
  assert (Hne : item <> EmptyString).
  { intros ->. simpl in Hitem. symmetry in Hitem.
    apply app_eq_nil in Hitem as [_ Hs]. rewrite Hs in Hlen. simpl in Hlen. lia. }
  apply endsWithString_spec. unfold Path.join.
  assert (Hjoined : exists q ps,
            filter (fun s => s <> EmptyString) [current; item] = ps
            /\ ps <> []
            /\ Js.join [Path.slash] (map ofString ps) = q ++ ofString suffix).
  { destruct (decide (current = EmptyString)) as [->|Hcur].
    - exists pre, [item]. split; [|split; [done | by simpl]].
      rewrite filter_cons_False by (intros H; by apply H).
      rewrite filter_cons_True by done. done.
    - exists (ofString current ++ [Path.slash] ++ pre), [current; item].
      split; [|split; [done |]].
      + rewrite filter_cons_True by done. by rewrite filter_cons_True by done.
      + simpl. rewrite Hitem. by rewrite <- !app_assoc. }
  destruct Hjoined as (q & ps & -> & Hps & Hjoin).
  destruct ps as [|p0 ps]; [done |]. rewrite Hjoin.
  destruct (normalizeChars_suffix q (ofString suffix) Hplain Hlen) as [pre' ->].
  exists pre'. apply ofString_toString.
Qed.

Lemma scanItems_jsonl (current : string) (items stack files : list string) :
  Forall (jsonlFileOf rt) files ->
  Forall (jsonlFileOf rt) (snd (scanItems rt current items stack files)).
Proof.
  revert stack files. induction items as [|item items IH]; intros stack files Hfiles;
    simpl; [done |].
  destruct (fs_statSync rt (Path.join [current; item])) as [[|]|] eqn:Hstat;
    [by apply IH | | by apply IH].
  destruct (endsWithString item ".jsonl") eqn:Hsuffix; [|by apply IH].
  apply IH. apply Forall_app. split; [done |]. constructor; [|done].
  split; [done |]. apply path_join_suffix; [|simpl; lia | done].
  vm_compute. intros Hin. by repeat (apply elem_of_cons in Hin as [Hin|Hin]; [done |]);
    apply elem_of_nil in Hin.
Qed.

Lemma walk_jsonl (fuel : nat) (stack files result : list string) :
  Forall (jsonlFileOf rt) files ->
  walk rt fuel stack files = Some result -> Forall (jsonlFileOf rt) result.
Proof.
  revert stack files. induction fuel as [|fuel IH]; intros stack files Hfiles.
  - destruct stack; simpl; [by intros [= <-] | done].
  - destruct stack as [|current stack]; simpl; [by intros [= <-] |].
    destruct (fs_readdirSync rt current) as [items|]; [|by apply IH].
    pose proof (scanItems_jsonl current items stack files Hfiles) as Hscan.
    destruct (scanItems rt current items stack files) as [stack' files'].
    by apply IH.
Qed.

(** X13.  The scanner returns nothing for a root that does not exist, and
    otherwise only regular files whose path ends in ".jsonl": directories
    are descended into, other files and entries that cannot be stat'ed are
    left out. *)
Theorem scanner_returns_jsonl_files (fuel : nat) (rootDir : string)
  (files : list string) :
  findJsonlFiles rt fuel rootDir = Some files ->
  (fs_existsSync rt rootDir = false -> files = [])
  /\ Forall (fun f => fs_statSync rt f = Some false
                      /\ endsWithString f ".jsonl" = true) files.
Proof.
  unfold findJsonlFiles. destruct (fs_existsSync rt rootDir); simpl.
  - intros Hwalk. split; [done |]. revert Hwalk. by apply walk_jsonl.
  - intros [= <-]. by split.
Qed.

End ScannerPaths.

Lemma scanner_returns_jsonl_files_witness :
  findJsonlFiles World.host 10 World.claudeRoot
  = Some [World.fileA; World.fileBlank; World.fileB]
  /\ Forall (fun f => fs_statSync World.host f = Some false
                      /\ endsWithString f ".jsonl" = true)
            [World.fileA; World.fileBlank; World.fileB].
Proof.
  split; [vm_compute; reflexivity |].
  apply (scanner_returns_jsonl_files World.host 10 World.claudeRoot).
  vm_compute. reflexivity.
Defined.

(** ** What an apply run writes *)

Section WriteFacts.

Context {S : Type}.
Variables (rt : Runtime) (ops : StoreOps S).

Lemma doWrite_returned (c : StoreCall) (f : S -> S * option Err) (w w' : World S) (u : unit) :
  doWrite c f w = (Returned u, w') -> w_log w' = w_log w ++ [(c, true)].
Proof.
  unfold doWrite. destruct (f (w_store w)) as [s' [e|]]; [done |]. by intros [= _ <-].
Qed.

Lemma persist_trace (item : DiscoveredConversation) (c : string) (w w' : World S) (u : unit) :
  cwd item = Some c -> c <> EmptyString ->
  persist rt ops false item w = (Returned u, w') ->
  w_log w' = w_log w ++ writesFor rt item.
Proof.
  intros Hcwd Hc. unfold persist, writesFor. rewrite Hcwd. simpl.
  destruct (String.eqb_spec c EmptyString) as [|_]; [done |]. simpl.
  intros Hrun. apply bind_returned in Hrun as (u1 & w1 & Hproject & Hconversation).
  unfold callRecordProject in Hproject. unfold callRecordConversation in Hconversation.
  apply doWrite_returned in Hproject, Hconversation.
  by rewrite Hconversation, Hproject, <- app_assoc.
Qed.

Lemma insertLoop_trace (E : gset string) (items : list DiscoveredConversation)
  (r r' : BackfillReport) (w w' : World S) :
  Forall (fun d => exists c, cwd d = Some c /\ c <> EmptyString) items ->
  insertLoop rt ops false E items r w = (Returned r', w') ->
  w_log w' = w_log w ++ flat_map (writesFor rt) (insertedOf E items).
Proof.
  revert r w. induction items as [|item items IH]; intros r w Hitems; simpl.
  - intros [= _ <-]. by rewrite app_nil_r.
  - apply Forall_cons in Hitems as [(c & Hcwd & Hc) Hitems].
    unfold insertedOf in *. simpl. case_bool_decide; simpl.
    + by apply IH.
    + intros Hrun. apply bind_returned in Hrun as (u & w1 & Hpersist & Hrun).
      apply (persist_trace item c) in Hpersist; [|done..].
      apply IH in Hrun; [|done]. by rewrite Hrun, Hpersist, <- app_assoc.
Qed.

(** The stages of an apply run that returns, with the calls of each. *)
Lemma apply_run_stages (fuel : nat) (agentId : string) (request : BackfillRequest)
  (w w' : World S) (r : BackfillReport) :
  backfillAgentMemory rt ops fuel agentId request w = (Returned r, w') ->
  requestDryRun request = false ->
  exists n w1 w2 discoveredAll existingFiles,
    let inserted :=
      insertedOf existingFiles
        (matchedOf (working_directories r)
           (classified (requestMaxFiles request) discoveredAll)) in
    fetchWorkingDirectoriesForAgent rt ops agentId true w
      = (Returned (n, working_directories r), w1)
    /\ discoverConversations rt fuel (requestSources request) = Some discoveredAll
    /\ getExistingConversationFiles ops w1 = (Returned existingFiles, w2)
    /\ newCalls w w'
       = newCalls w w1 ++ newCalls w1 w2 ++ flat_map (writesFor rt) inserted
    /\ Forall (fun e => isRecordSession (fst e) = true) (newCalls w w1)
    /\ Forall (fun e => isWrite (fst e) = false) (newCalls w1 w2)
    /\ length inserted = total_inserted r
    /\ Forall (fun d => jsonlFile d <> EmptyString
                        /\ (jsonlFile d ∉ existingFiles)
                        /\ exists c, cwd d = Some c /\ c <> EmptyString
                                     /\ c ∈ working_directories r) inserted.
Proof.
  intros Hrun Hdry.
  apply backfill_returned in Hrun
    as (n & wds & w1 & discoveredAll & E & w2 & Hfetch & Hdiscover & Hexisting
        & Hloop & Hdescribes).
  unfold Describes in Hdescribes. cbv zeta in Hdescribes.
  destruct Hdescribes as [_ _ _ _ _ Hwds _ _ _ _ _ Hinserted _ _ _ _ _].
  rewrite Hwds.
  destruct (sessionCallsOnly_fetch rt ops agentId (negb (requestDryRun request)) w)
    as (_ & sessionCalls & Hlog1 & Hsession).
  rewrite Hfetch in Hlog1. simpl in Hlog1.
  destruct (readsOnly_getExisting ops w1) as (_ & readCalls & Hlog2 & Hreads).
  rewrite Hexisting in Hlog2. simpl in Hlog2.
  assert (Hitems : Forall (fun d => jsonlFile d <> EmptyString
                        /\ exists c, cwd d = Some c /\ c <> EmptyString /\ c ∈ wds)
            (matchedOf wds (classified (requestMaxFiles request) discoveredAll))).
  { apply Forall_forall. intros d Hd.
    apply matchedOf_origin in Hd as (item & c & Hitem & Hc & ->). simpl.
    apply classified_subset in Hitem. split.
    - by apply (discovered_path_nonempty rt fuel (requestSources request) discoveredAll).
    - exists c. split; [done |]. by apply (matchedCwd_nonempty wds item). }
  rewrite Hdry in Hloop, Hfetch. simpl in Hfetch. apply insertLoop_trace in Hloop.
  2:{ eapply Forall_impl; [exact Hitems |]. intros d (_ & c & ? & ? & _). eauto. }
  assert (Hnew1 : newCalls w w1 = sessionCalls)
    by (unfold newCalls; by rewrite Hlog1, drop_app_length).
  assert (Hnew2 : newCalls w1 w2 = readCalls)
    by (unfold newCalls; by rewrite Hlog2, drop_app_length).
  exists n, w1, w2, discoveredAll, E. cbv zeta. rewrite Hnew1, Hnew2.
  split; [done |]. split; [done |]. split; [done |]. split.
  { unfold newCalls. rewrite Hloop, Hlog2, Hlog1, <- !app_assoc.
    by rewrite drop_app_length. }
  split; [done |]. split; [done |]. split; [done |].
  apply Forall_forall. intros d Hd. apply elem_of_insertedOf in Hd as [Hd HE].
  rewrite Forall_forall in Hitems. destruct (Hitems d Hd) as (Hpath & Hc).
  done.
Qed.

(** X18.  In an apply run that returns, the store calls come in three
    phases: the resolver's [recordSession] calls, the reads of the
    existing-files lookup, and then one [recordProject] followed by one
    [recordConversation], all of which returned, for each matched
    conversation, in discovery order, whose transcript path is not in the
    set that this lookup returned, and for no other.  Each written
    conversation has a non-empty transcript path and a working directory
    that is one of the report's. *)
Theorem apply_run_call_order (fuel : nat) (agentId : string) (request : BackfillRequest)
  (w w' : World S) (r : BackfillReport) :
  backfillAgentMemory rt ops fuel agentId request w = (Returned r, w') ->
  requestDryRun request = false ->
  exists n w1 w2 discoveredAll existingFiles,
    let inserted :=
      insertedOf existingFiles
        (matchedOf (working_directories r)
           (classified (requestMaxFiles request) discoveredAll)) in
    fetchWorkingDirectoriesForAgent rt ops agentId true w
      = (Returned (n, working_directories r), w1)
    /\ discoverConversations rt fuel (requestSources request) = Some discoveredAll
    /\ getExistingConversationFiles ops w1 = (Returned existingFiles, w2)
    /\ newCalls w w'
       = newCalls w w1 ++ newCalls w1 w2 ++ flat_map (writesFor rt) inserted
    /\ Forall (fun e => isRecordSession (fst e) = true) (newCalls w w1)
    /\ Forall (fun e => isWrite (fst e) = false) (newCalls w1 w2)
    /\ length inserted = total_inserted r
    /\ Forall (fun d => jsonlFile d <> EmptyString
                        /\ (jsonlFile d ∉ existingFiles)
                        /\ exists c, cwd d = Some c /\ c <> EmptyString
                                     /\ c ∈ working_directories r) inserted.
Proof. apply apply_run_stages. Qed.

Lemma filter_none {A} (P : A -> bool) (l : list A) :
  Forall (fun x => P x = false) l -> List.filter P l = [].
Proof.
  induction 1 as [|x l Hx _ IH]; simpl; [done |]. by rewrite Hx.
Qed.

Lemma writesFor_counts (items : list DiscoveredConversation) :
  Forall (fun d => exists c, cwd d = Some c) items ->
  length (List.filter (fun e => isRecordConversation (fst e))
            (flat_map (writesFor rt) items)) = length items
  /\ length (List.filter (fun e => isRecordProject (fst e))
               (flat_map (writesFor rt) items)) = length items.
Proof.
  induction 1 as [|d items [c Hc] _ [IH1 IH2]]; simpl; [done |].
  unfold writesFor at 1 3. rewrite Hc. simpl. by rewrite IH1, IH2.
Qed.

(** X19.  The inserted counter of an apply run is the number of writes: a
    run that returns called [recordConversation] exactly [total_inserted]
    times and [recordProject] as many times, every one of these calls
    returned, and each [recordConversation] was for a non-empty transcript
    path under one of the report's working directories. *)
Theorem apply_run_write_counts (fuel : nat) (agentId : string)
  (request : BackfillRequest) (w w' : World S) (r : BackfillReport) :
  backfillAgentMemory rt ops fuel agentId request w = (Returned r, w') ->
  requestDryRun request = false ->
  length (List.filter (fun e => isRecordConversation (fst e)) (newCalls w w'))
  = total_inserted r
  /\ length (List.filter (fun e => isRecordProject (fst e)) (newCalls w w'))
     = total_inserted r
  /\ forall a ok, (CallRecordConversation a, ok) ∈ newCalls w w' ->
       ok = true /\ ca_jsonl_file a <> EmptyString
       /\ ca_project_path a ∈ working_directories r.
Proof.
  intros Hrun Hdry.
  destruct (apply_run_stages fuel agentId request w w' r Hrun Hdry)
    as (n & w1 & w2 & discoveredAll & E & _ & _ & _ & Hcalls & Hsession & Hreads
        & Hlen & Hitems).
  cbv zeta in *. rewrite Hcalls.
  set (sessionCalls := newCalls w w1) in *. set (readCalls := newCalls w1 w2) in *.
  set (inserted := insertedOf E _) in *.
  assert (Hcwd : Forall (fun d => exists c, cwd d = Some c) inserted).
  { eapply Forall_impl; [exact Hitems |]. intros d (_ & _ & c & ? & _). eauto. }
  destruct (writesFor_counts inserted Hcwd) as [Hconv Hproj].
  rewrite !List.filter_app, !length_app, Hconv, Hproj, Hlen.
  rewrite !(filter_none _ sessionCalls), !(filter_none _ readCalls); simpl.
  2-5: eapply Forall_impl; [eassumption |]; intros [[] ok]; simpl; congruence.
  split; [done |]. split; [done |].
  intros a ok Hin. apply elem_of_app in Hin as [Hin|Hin].
  { rewrite Forall_forall in Hsession. specialize (Hsession _ Hin). done. }
  apply elem_of_app in Hin as [Hin|Hin].
  { rewrite Forall_forall in Hreads. specialize (Hreads _ Hin). done. }
  apply list_elem_of_In, in_flat_map in Hin as (d & Hd & Hin).
  apply list_elem_of_In in Hd, Hin.
  rewrite Forall_forall in Hitems. destruct (Hitems d Hd) as (Hpath & _ & c & Hc & _ & Hwd).
  unfold writesFor in Hin. rewrite Hc in Hin.
  apply elem_of_cons in Hin as [Hin|Hin]; [done |].
  apply list_elem_of_singleton in Hin. injection Hin as -> ->. by simpl.
Qed.

End WriteFacts.

Lemma apply_run_call_order_witness :
  let run := backfillAgentMemory World.host UpsertStore.ops 10 World.agent
               (World.request None None) (World.start World.seeded) in
  total_inserted (World.reportOf run) = 1%nat
  /\ exists w1 w2 discoveredAll existingFiles,
       discoverConversations World.host 10 [claude; codex] = Some discoveredAll
       /\ getExistingConversationFiles UpsertStore.ops w1 = (Returned existingFiles, w2)
       /\ newCalls (World.start World.seeded) (snd run)
          = newCalls (World.start World.seeded) w1 ++ newCalls w1 w2
            ++ flat_map (writesFor World.host)
                 (insertedOf existingFiles
                    (matchedOf (working_directories (World.reportOf run))
                       (classified DEFAULT_MAX_FILES discoveredAll))).
Proof.
  intros run. split; [vm_compute; reflexivity |].
  destruct (apply_run_call_order World.host UpsertStore.ops 10 World.agent
              (World.request None None) (World.start World.seeded) (snd run)
              (World.reportOf run))
    as (n & w1 & w2 & discoveredAll & E & _ & Hdiscover & Hexisting & Hcalls & _).
  { vm_compute. reflexivity. }
  { reflexivity. }
  exists w1, w2, discoveredAll, E.
  split; [exact Hdiscover |]. split; [exact Hexisting | exact Hcalls].
Defined.

Lemma apply_run_write_counts_witness :
  let run := backfillAgentMemory World.host UpsertStore.ops 10 World.agent
               (World.request None None) (World.start World.seeded) in
  total_inserted (World.reportOf run) = 1%nat
  /\ length (List.filter (fun e => isRecordConversation (fst e))
               (newCalls (World.start World.seeded) (snd run)))
     = total_inserted (World.reportOf run).
Proof.
  intros run. split; [vm_compute; reflexivity |].
  apply (apply_run_write_counts World.host UpsertStore.ops 10 World.agent
           (World.request None None)).
  - vm_compute. reflexivity.
  - reflexivity.
Defined.

(** ** Where the engine's errors come from *)

Section OutcomeFacts.

Context {S : Type}.
Variables (rt : Runtime) (ops : StoreOps S).

Lemma stopsAtFailure_ret {A} (a : A) : stopsAtFailure (S:=S) (ret a).
Proof. intros w. exists []. split; [by rewrite app_nil_r | by constructor]. Qed.

Lemma stopsAtFailure_hung {A} : stopsAtFailure (S:=S) (A:=A) (fun w => (Hung, w)).
Proof. intros w. exists []. split; [by rewrite app_nil_r | by constructor]. Qed.

Lemma stopsAtFailure_bind {A B} (m : M S A) (k : A -> M S B) :
  stopsAtFailure m -> (forall a, stopsAtFailure (k a)) -> stopsAtFailure (bind m k).
Proof.
  intros Hm Hk w. unfold bind. destruct (Hm w) as (calls & Hlog & Hcalls).
  destruct (m w) as [[a|e|] w1]; simpl in *; [|by exists calls..].
  destruct (Hk a w1) as (calls2 & Hlog2 & Hcalls2).
  exists (calls ++ calls2). split; [by rewrite Hlog2, Hlog, app_assoc |].
  destruct (fst (k a w1)) as [b|e|].
  - by apply Forall_app.
  - destruct Hcalls2 as (before & c & -> & Hc & Hbefore).
    exists (calls ++ before), c. split; [by rewrite app_assoc |].
    split; [done |]. by apply Forall_app.
  - by apply Forall_app.
Qed.

Lemma stopsAtFailure_doRead {A} (c : StoreCall) (f : S -> Result A) :
  isRecordSession c = false -> stopsAtFailure (doRead c f).
Proof.
  intros Hc w. unfold doRead. destruct (f (w_store w)) as [a|e]; simpl.
  - exists [(c, true)]. split; [done |]. constructor; [by left | done].
  - exists [(c, false)]. split; [done |]. by exists [], c.
Qed.

Lemma stopsAtFailure_doWrite (c : StoreCall) (f : S -> S * option Err) :
  isRecordSession c = false -> stopsAtFailure (doWrite c f).
Proof.
  intros Hc w. unfold doWrite. destruct (f (w_store w)) as [s' [e|]]; simpl.
  - exists [(c, false)]. split; [done |]. by exists [], c.
  - exists [(c, true)]. split; [done |]. constructor; [by left | done].
Qed.

Lemma sessionCallsOnly_stops {A} (m : M S A) :
  sessionCallsOnly m -> stopsAtFailure m.
Proof.
  intros Hm w. destruct (Hm w) as ([a Ha] & calls & Hlog & Hall).
  exists calls. split; [done |]. rewrite Ha.
  eapply Forall_impl; [exact Hall |]. intros e He. by right.
Qed.

Lemma stopsAtFailure_existingLoop (projects : list string) (acc : gset string) :
  stopsAtFailure (existingLoop ops projects acc).
Proof.
  revert acc. induction projects as [|p projects IH]; intros acc; simpl.
  - apply stopsAtFailure_ret.
  - apply stopsAtFailure_bind; [by apply stopsAtFailure_doRead | intros rows; apply IH].
Qed.

Lemma stopsAtFailure_insertLoop (dry : bool) (E : gset string)
  (items : list DiscoveredConversation) (r : BackfillReport) :
  stopsAtFailure (insertLoop rt ops dry E items r).
Proof.
  revert r. induction items as [|item items IH]; intros r; simpl.
  - apply stopsAtFailure_ret.
  - case_match; [apply IH |].
    apply stopsAtFailure_bind; [|intros _; apply IH].
    unfold persist. repeat (case_match; try apply stopsAtFailure_ret).
    apply stopsAtFailure_bind; [by apply stopsAtFailure_doWrite |].
    intros _. by apply stopsAtFailure_doWrite.
Qed.

Lemma ends_ret {A} (a : A) : ends (S:=S) (ret a).
Proof. by intros w. Qed.

Lemma ends_bind {A B} (m : M S A) (k : A -> M S B) :
  ends m -> (forall a, ends (k a)) -> ends (bind m k).
Proof.
  intros Hm Hk w. unfold bind. specialize (Hm w).
  destruct (m w) as [[a|e|] w1]; simpl in *; [apply Hk | done | done].
Qed.

Lemma ends_doRead {A} (c : StoreCall) (f : S -> Result A) : ends (doRead c f).
Proof. intros w. unfold doRead. by destruct (f (w_store w)). Qed.

Lemma ends_doWrite (c : StoreCall) (f : S -> S * option Err) : ends (doWrite c f).
Proof. intros w. unfold doWrite. by destruct (f (w_store w)) as [s' [e|]]. Qed.

Lemma ends_existingLoop (projects : list string) (acc : gset string) :
  ends (existingLoop ops projects acc).
Proof.
  revert acc. induction projects as [|p projects IH]; intros acc; simpl.
  - apply ends_ret.
  - apply ends_bind; [apply ends_doRead | intros rows; apply IH].
Qed.

Lemma ends_insertLoop (dry : bool) (E : gset string)
  (items : list DiscoveredConversation) (r : BackfillReport) :
  ends (insertLoop rt ops dry E items r).
Proof.
  revert r. induction items as [|item items IH]; intros r; simpl.
  - apply ends_ret.
  - case_match; [apply IH |].
    apply ends_bind; [|intros _; apply IH].
    unfold persist. repeat (case_match; try apply ends_ret).
    apply ends_bind; [apply ends_doWrite |]. intros _. apply ends_doWrite.
Qed.

(** X20.  The engine raises no error of its own.  When an invocation
    throws, the last store call it made is one other than [recordSession]
    that threw, and every call before it returned (or was a swallowed
    [recordSession]); when it returns or does not end, no call other than
    [recordSession] threw.  It fails to end exactly when the directory walk
    does. *)
Theorem engine_stops_at_store_failure (fuel : nat) (agentId : string)
  (request : BackfillRequest) (w : World S) :
  let run := backfillAgentMemory rt ops fuel agentId request w in
  (exists calls,
     w_log (snd run) = w_log w ++ calls
     /\ match fst run with
        | Threw _ => exists before c,
                       calls = before ++ [(c, false)]
                       /\ isRecordSession c = false /\ Forall callOk before
        | _ => Forall callOk calls
        end)
  /\ (fst run = Hung
      <-> discoverConversations rt fuel (requestSources request) = None).
Proof.
  cbv zeta. split.
  - revert w. change (stopsAtFailure (backfillAgentMemory rt ops fuel agentId request)).
    unfold backfillAgentMemory.
    apply stopsAtFailure_bind; [apply sessionCallsOnly_stops, sessionCallsOnly_fetch |].
    intros [n wds]. case_match; [|apply stopsAtFailure_hung].
    case_match. apply stopsAtFailure_bind.
    + apply stopsAtFailure_bind; [by apply stopsAtFailure_doRead |].
      intros projects. apply stopsAtFailure_existingLoop.
    + intros E. apply stopsAtFailure_insertLoop.
  - unfold backfillAgentMemory.
    destruct (sessionCallsOnly_fetch rt ops agentId (negb (requestDryRun request)) w)
      as ([[n wds] Hfetch] & _).
    unfold bind at 1.
    destruct (fetchWorkingDirectoriesForAgent rt ops agentId
                (negb (requestDryRun request)) w) as [out w1].
    simpl in Hfetch. subst out.
    destruct (discoverConversations rt fuel (requestSources request))
      as [discoveredAll|]; [|done].
    split; [|done]. intros Hhung. exfalso. revert Hhung.
    case_match.
    apply (ends_bind (getExistingConversationFiles ops)).
    + apply ends_bind; [apply ends_doRead | intros projects; apply ends_existingLoop].
    + intros E. apply ends_insertLoop.
Qed.

End OutcomeFacts.

Lemma engine_stops_at_store_failure_witness :
  let run := backfillAgentMemory World.host UpsertStore.opsReadsDown 10 World.agent
               (World.request None None) (World.start World.seeded) in
  (exists e, fst run = Threw e) /\ fst run <> Hung.
Proof.
  intros run. split; [vm_compute; eauto |].
  destruct (engine_stops_at_store_failure World.host UpsertStore.opsReadsDown 10
              World.agent (World.request None None) (World.start World.seeded))
    as [_ Hhung].
  intros Hrun. apply Hhung in Hrun. vm_compute in Hrun. discriminate Hrun.
Defined.
